(** * tap-pagerduty: the incremental sync engine of [tap_pagerduty/streams.py]

    A shallow embedding of the stream classes of the tap: the construction
    of a stream, the headers and the retrying fetcher [_get], the page
    iterator [PagerdutyResponse], the [sync] of the FULL_TABLE classes, the
    window loop of the incremental [sync] methods and the bookmark update.

    Conventions of the embedding.
    - JSON documents and Python dicts decoded from JSON are values of [json];
      JSON numbers are integers.  A record is a [JObj], an association list
      in key order.
    - The query-parameter dicts ([self.params], [substream_params]) are
      mutable objects shared between a stream and the page iterators made
      from it: they live in a heap of dicts and are passed by reference.
    - A [datetime] is the instant it denotes, an integer count of
      microseconds on the UTC time line; [parser.parse] (dateutil) and
      [datetime.isoformat] are parameters of the development.  The UTC
      offset of an aware datetime shows in its ISO text only; the one place
      where the tap compares such texts, the head of the window loop, is
      given a second time on datetimes that carry their offset.
    - The HTTP API, the schema transformer of singer and the clock are
      parameters too.  What the program does to the outside world is kept as
      a list of events: the GET requests it issued (with the parameters as
      they were when the request left) and the records it wrote.
    - Loops that the source does not bound (the page loop follows the API's
      [more] flag, the retry loop follows the clock) take a fuel argument;
      running out of fuel is the outcome [OutOfFuel], distinct from every
      Python exception. *)

From Stdlib Require Import ZArith List Bool Ascii String.
From stdpp Require Import base gmap strings list fin_maps.

Open Scope string_scope.
Open Scope list_scope.
Open Scope Z_scope.

(** ** JSON values and the Python operations used on them *)

#[local] Set Warnings "-register-all".

Inductive json : Type :=
| JNull
| JBool (b : bool)
| JNum (n : Z)
| JStr (s : string)
| JArr (l : list json)
| JObj (kv : list (string * json)).

(** Exceptions that the modelled code can raise. *)
Inductive exn : Type :=
| RuntimeError (msg : string)
| HTTPError (status : Z)
| ConnectionError
| Timeout
| TypeError
| AttributeError
| KeyError (key : string)
| ParserError
| ValueError
| SchemaError.

(** [d.get(k)] on an association list: first binding of [k]. *)
Fixpoint assoc_get (k : string) (kv : list (string * json)) : option json :=
  match kv with
  | [] => None
  | (k', v) :: rest => if String.eqb k k' then Some v else assoc_get k rest
  end.

(** [d[k] = v] on an association list: overwrite in place, or append. *)
Fixpoint assoc_set (k : string) (v : json) (kv : list (string * json))
  : list (string * json) :=
  match kv with
  | [] => [(k, v)]
  | (k', v') :: rest =>
      if String.eqb k k' then (k, v) :: rest else (k', v') :: assoc_set k v rest
  end.

(** [x.get(k)] where [x] was decoded from JSON: [None] when the key is
    missing, [AttributeError] when [x] is not a dict. *)
Definition py_get (x : json) (k : string) : exn + json :=
  match x with
  | JObj kv => inr (default JNull (assoc_get k kv))
  | _ => inl AttributeError
  end.

(** [x[k]] with a string key. *)
Definition py_item (x : json) (k : string) : exn + json :=
  match x with
  | JObj kv => match assoc_get k kv with
               | Some v => inr v
               | None => inl (KeyError k)
               end
  | _ => inl TypeError
  end.

(** [x[k] = v]. *)
Definition py_setitem (x : json) (k : string) (v : json) : exn + json :=
  match x with
  | JObj kv => inr (JObj (assoc_set k v kv))
  | _ => inl TypeError
  end.

(** Truth value of an object, as [not x] and [if x] test it. *)
Definition truthy (x : json) : bool :=
  match x with
  | JNull => false
  | JBool b => b
  | JNum n => negb (n =? 0)
  | JStr s => negb (String.eqb s "")
  | JArr l => match l with [] => false | _ => true end
  | JObj kv => match kv with [] => false | _ => true end
  end.

(** [a + b]: integers (booleans count as 0 and 1) add, strings and lists
    concatenate, everything else is a [TypeError]. *)
Definition py_add (a b : json) : exn + json :=
  match a, b with
  | JNum x, JNum y => inr (JNum (x + y))
  | JNum x, JBool y => inr (JNum (x + Z.b2z y))
  | JBool x, JNum y => inr (JNum (Z.b2z x + y))
  | JBool x, JBool y => inr (JNum (Z.b2z x + Z.b2z y))
  | JStr x, JStr y => inr (JStr (String.append x y))
  | JArr x, JArr y => inr (JArr (x ++ y))
  | _, _ => inl TypeError
  end.

(** Sequencing of pure Python operations that return or raise. *)
Definition and_then {A B} (r : exn + A) (k : A -> exn + B) : exn + B :=
  match r with
  | inl e => inl e
  | inr a => k a
  end.

Notation "'try' x ':=' r 'in' k" := (and_then r (fun x => k))
  (at level 10, x name, r at level 100, k at level 200, only parsing).

(** OncallsStream.sync, lines 488-489:
    [record['id'] = record['schedule']['id'] + record['start'] + record['end']]. *)
Definition synthesize_id (record : json) : exn + json :=
  try schedule := py_item record "schedule" in
  try schedule_id := py_item schedule "id" in
  try start := py_item record "start" in
  try prefix := py_add schedule_id start in
  try end_ := py_item record "end" in
  try id := py_add prefix end_ in
  py_setitem record "id" id.

(** The items a [for] loop (or [list.extend]) draws from a value: the
    elements of a list, the keys of a dict, the characters of a string;
    other JSON values are not iterable. *)
Definition py_iter (x : json) : exn + list json :=
  match x with
  | JArr l => inr l
  | JObj kv => inr (map (fun p => JStr (fst p)) kv)
  | JStr s => inr (map (fun a => JStr (String a EmptyString)) (list_ascii_of_string s))
  | _ => inl TypeError
  end.

(** [x[k].extend(y)]: the list stored under [k] grows in place. *)
Definition py_extend_item (x : json) (k : string) (y : json) : exn + json :=
  match py_item x k with
  | inl e => inl e
  | inr (JArr l) =>
      match py_iter y with
      | inl e => inl e
      | inr l' => py_setitem x k (JArr (l ++ l'))
      end
  | inr _ => inl AttributeError
  end.

(** [x.get(k, d)]. *)
Definition py_get_default (x : json) (k : string) (d : json) : exn + json :=
  match x with
  | JObj kv => inr (default d (assoc_get k kv))
  | _ => inl AttributeError
  end.

(** [x.keys()] together with the bindings, in key order. *)
Definition py_items (x : json) : exn + list (string * json) :=
  match x with
  | JObj kv => inr kv
  | _ => inl AttributeError
  end.

(** [min(a, b)] on strings: Python returns [a] unless [b < a], comparing
    code points from the left. *)
Definition py_min (a b : string) : string :=
  if String.ltb b a then b else a.

(** [max(a, b)] on datetimes: Python returns [a] unless [b > a]. *)
Definition py_max (a b : Z) : Z :=
  if a <? b then b else a.

(** Text of a value inside an f-string.  Only the cases that occur for a
    record id are spelled out; [repr] is the text of the remaining ones. *)
Definition py_format (repr : json -> string) (x : json) : string :=
  match x with
  | JStr s => s
  | JNull => "None"
  | JBool true => "True"
  | JBool false => "False"
  | other => repr other
  end.

(** [timedelta(days=d)] in microseconds. *)
Definition timedelta (days : Z) : Z := days * 86400000000.

(** ** is_fatal_code *)

(** [is_fatal_code(e)], on the status code of the response carried by [e]. *)
Definition is_fatal_code (status_code : Z) : bool :=
  (400 <=? status_code) && (status_code <? 500) && negb (status_code =? 429).

(** ** The machine: outcomes, events and the state monad *)

(** Result of running a piece of the program. *)
Inductive outcome (A : Type) : Type :=
| Ok (a : A)
| Raise (e : exn)
| OutOfFuel.
Arguments Ok {A} a.
Arguments Raise {A} e.
Arguments OutOfFuel {A}.

(** What [requests.get] comes back with: no connection, a timeout, or a
    response with its status code and its body ([None] when the body is not
    JSON). *)
Inductive reply : Type :=
| RefusedConnection
| TimedOut
| Response (status_code : Z) (body : option json).

(** [response.raise_for_status()] then [response.json()], or the exception
    of [requests.get]. *)
Definition outcome_of (r : reply) : outcome json :=
  match r with
  | RefusedConnection => Raise ConnectionError
  | TimedOut => Raise Timeout
  | Response status_code body =>
      if (400 <=? status_code) && (status_code <? 600)
      then Raise (HTTPError status_code)
      else match body with
           | Some j => Ok j
           | None => Raise ValueError
           end
  end.

(** The outside world of the fetcher: the network and the clock, the
    requests sent so far (each with the reading of the clock when it left
    and what came back) and the waits slept so far. *)
Record wire (Net : Type) : Type := {
  net : Net;
  sent : list (Z * reply);
  slept : list Z
}.
Arguments net {Net} w.
Arguments sent {Net} w.
Arguments slept {Net} w.

(** Seconds in microseconds, the unit of the clock. *)
Definition seconds (n : Z) : Z := n * 1000000.

(** [backoff.fibo()]: the state of the generator after [n] values, as the
    pair of its variables [a] and [b]; it yields [a]. *)
Fixpoint fibo (n : nat) : Z * Z :=
  match n with
  | O => (1, 1)
  | S n' => let '(a, b) := fibo n' in (b, a + b)
  end.

Definition fib (n : nat) : Z := fst (fibo n).

(** The exceptions each decorator of [_get] is declared on. *)
Definition is_http_error (e : exn) : bool :=
  match e with
  | HTTPError _ => true
  | _ => false
  end.

Definition is_network_error (e : exn) : bool :=
  match e with
  | ConnectionError | Timeout => true
  | _ => false
  end.

(** [giveup=is_fatal_code] on an exception of the outer decorator. *)
Definition giveup_fatal (e : exn) : bool :=
  match e with
  | HTTPError status_code => is_fatal_code status_code
  | _ => false
  end.

(** A reply that the decorators answer with another attempt. *)
Definition retryable (r : reply) : Prop :=
  match r with
  | RefusedConnection | TimedOut => True
  | Response status_code _ => 500 <= status_code < 600 \/ status_code = 429
  end.

(** What the program does to the outside world. *)
Inductive event : Type :=
| Get (url_suffix : string) (params : gmap string json) (reply : exn + json)
| WriteRecord (stream_name : string) (record : json).

(** Records written, in order. *)
Definition writes_of (evs : list event) : list json :=
  flat_map (fun ev => match ev with
                      | WriteRecord _ r => [r]
                      | Get _ _ _ => []
                      end) evs.

(** Class attributes of a stream class. *)
Record stream_class : Type := {
  tap_stream_id : string;
  stream : string;
  key_properties : string;
  replication_key : option string;
  valid_replication_keys : list string;
  replication_method : string;
  valid_params : list string;
  required_params : list string
}.

(** Instance attributes of a stream: [params] is a reference to the
    stream's parameter dict. *)
Record PagerdutyStream : Type := {
  cls : stream_class;
  config : json;
  token : json;
  email : json;
  params : nat
}.

(** Instance attributes of a page iterator.  [client] is only used for its
    [_get], which is the fetcher of the section below. *)
Record PagerdutyResponse : Type := {
  url_suffix : string;
  resp_params : nat;
  response : json;
  _iteration : Z
}.

(** The state of a run: the API, the events so far, the heap of parameter
    dicts, the record counter of singer's metrics and singer's [state]
    (its ["bookmarks"] entry: stream id, then key). *)
Record machine (Api : Type) : Type := {
  api : Api;
  events : list event;
  heap : gmap nat (gmap string json);
  counter : Z;
  state : gmap string (gmap string json)
}.
Arguments api {Api} m.
Arguments events {Api} m.
Arguments heap {Api} m.
Arguments counter {Api} m.
Arguments state {Api} m.

(** The streams with [replication_method = 'INCREMENTAL']. *)
Inductive incremental : Type := Incidents | Notifications | Oncalls.

(** ** The stream classes *)

Definition IncidentsStream : stream_class := {|
  tap_stream_id := "incidents";
  stream := "incidents";
  key_properties := "id";
  replication_key := Some "created_at";
  valid_replication_keys := ["created_at"];
  replication_method := "INCREMENTAL";
  valid_params := ["since"; "until"; "date_range"; "statuses[]";
                   "incident_key"; "service_ids[]"; "team_ids[]";
                   "user_ids[]"; "urgencies[]"; "time_zone"; "sort_by";
                   "include[]"];
  required_params := ["since"; "until"]
|}.

Definition EscalationPoliciesStream : stream_class := {|
  tap_stream_id := "escalation_policies";
  stream := "escalation_policies";
  key_properties := "id";
  replication_key := None;
  valid_replication_keys := [];
  replication_method := "FULL_TABLE";
  valid_params := ["user_ids[]"; "team_ids[]"; "sort_by"; "query"; "include[]"];
  required_params := []
|}.

Definition ServicesStream : stream_class := {|
  tap_stream_id := "services";
  stream := "services";
  key_properties := "id";
  replication_key := None;
  valid_replication_keys := [];
  replication_method := "FULL_TABLE";
  valid_params := ["team_ids[]"; "time_zone"; "sort_by"; "query"; "include[]"];
  required_params := []
|}.

Definition NotificationsStream : stream_class := {|
  tap_stream_id := "notifications";
  stream := "notifications";
  key_properties := "id";
  replication_key := Some "started_at";
  valid_replication_keys := ["started_at"];
  replication_method := "INCREMENTAL";
  valid_params := ["time_zone"; "since"; "until"; "filter"; "include"];
  required_params := ["since"; "until"]
|}.

Definition SchedulesStream : stream_class := {|
  tap_stream_id := "schedules";
  stream := "schedules";
  key_properties := "id";
  replication_key := None;
  valid_replication_keys := [];
  replication_method := "FULL_TABLE";
  valid_params := ["include[]"; "query"];
  required_params := []
|}.

Definition UsersStream : stream_class := {|
  tap_stream_id := "users";
  stream := "users";
  key_properties := "id";
  replication_key := None;
  valid_replication_keys := [];
  replication_method := "FULL_TABLE";
  valid_params := ["include[]"; "team_ids[]"; "query"];
  required_params := []
|}.

Definition OncallsStream : stream_class := {|
  tap_stream_id := "oncalls";
  stream := "oncalls";
  key_properties := "id";
  replication_key := Some "start";
  valid_replication_keys := ["start"];
  replication_method := "INCREMENTAL";
  valid_params := ["since"; "until"; "time_zone"; "earliest"; "user_ids[]";
                   "schedule_ids[]"; "escalation_policy_ids[]"];
  required_params := ["since"; "until"]
|}.

(** [AVAILABLE_STREAMS], lines 518-526: a set in the source, listed here in
    the order it is written. *)
Definition AVAILABLE_STREAMS : list stream_class :=
  [IncidentsStream; ServicesStream; NotificationsStream;
   EscalationPoliciesStream; SchedulesStream; OncallsStream; UsersStream].

Definition class_of (s : incremental) : stream_class :=
  match s with
  | Incidents => IncidentsStream
  | Notifications => NotificationsStream
  | Oncalls => OncallsStream
  end.

(** [replication_key] of the incremental classes. *)
Definition key_of (s : incremental) : string :=
  match s with
  | Incidents => "created_at"
  | Notifications => "started_at"
  | Oncalls => "start"
  end.

(** [request_range_limit] of each incremental [sync], in days. *)
Definition range_days (s : incremental) : Z :=
  match s with
  | Incidents => 7
  | Notifications => 89
  | Oncalls => 89
  end.

(** ** Header dicts

    [requests.structures.CaseInsensitiveDict], the type of what
    [requests.utils.default_headers()] returns: an ordered store from the
    lower-cased key to the key as it was last set and its value.  Header
    names are ASCII. *)

Definition lower_ascii (a : ascii) : ascii :=
  let n := N_of_ascii a in
  if N.leb 65 n && N.leb n 90 then ascii_of_N (n + 32)%N else a.

(** [key.lower()]. *)
Fixpoint lower (key : string) : string :=
  match key with
  | EmptyString => EmptyString
  | String a rest => String (lower_ascii a) (lower rest)
  end.

Definition CaseInsensitiveDict : Type := list (string * (string * json)).

(** [headers[key] = value]: an entry under the same lower-cased key is
    replaced where it stands, a new one goes to the end. *)
Fixpoint ci_setitem (key : string) (value : json) (headers : CaseInsensitiveDict)
  : CaseInsensitiveDict :=
  match headers with
  | [] => [(lower key, (key, value))]
  | (l, kv) :: rest =>
      if String.eqb (lower key) l then (l, (key, value)) :: rest
      else (l, kv) :: ci_setitem key value rest
  end.

(** [headers.get(key)]. *)
Fixpoint ci_get (key : string) (headers : CaseInsensitiveDict) : option json :=
  match headers with
  | [] => None
  | (l, (_, v)) :: rest =>
      if String.eqb (lower key) l then Some v else ci_get key rest
  end.

(** ** Concrete collaborators, for running the engine on examples *)

(** *** ISO-8601 texts of UTC instants

    [isoformat_utc] is [datetime.isoformat] on a datetime with
    [tzinfo = UTC]; [parse_utc] reads the texts the API and the tap produce
    ([YYYY-MM-DDTHH:MM:SS], an optional [.ffffff], then [Z] or [+00:00]).
    Instants count microseconds from 1970-01-01T00:00:00Z. *)

Definition digit_of (a : ascii) : option Z :=
  let n := Z.of_N (N_of_ascii a) in
  if (48 <=? n) && (n <=? 57) then Some (n - 48) else None.

Fixpoint take_digits (n : nat) (acc : Z) (s : string) : option (Z * string) :=
  match n with
  | O => Some (acc, s)
  | S n' =>
      match s with
      | String a rest =>
          match digit_of a with
          | Some d => take_digits n' (acc * 10 + d) rest
          | None => None
          end
      | EmptyString => None
      end
  end.

Definition expect (c : ascii) (s : string) : option string :=
  match s with
  | String a rest => if Ascii.eqb a c then Some rest else None
  | EmptyString => None
  end.

Fixpoint pad (w : nat) (n : Z) : string :=
  match w with
  | O => ""
  | S w' => String.append (pad w' (n / 10))
              (String (ascii_of_N (Z.to_N (48 + n mod 10))) "")
  end.

Definition days_from_civil (y m d : Z) : Z :=
  let y' := if m <=? 2 then y - 1 else y in
  let era := y' / 400 in
  let yoe := y' - era * 400 in
  let doy := (153 * (if 2 <? m then m - 3 else m + 9) + 2) / 5 + d - 1 in
  let doe := yoe * 365 + yoe / 4 - yoe / 100 + doy in
  era * 146097 + doe - 719468.

Definition civil_from_days (days : Z) : Z * Z * Z :=
  let z := days + 719468 in
  let era := z / 146097 in
  let doe := z - era * 146097 in
  let yoe := (doe - doe / 1460 + doe / 36524 - doe / 146096) / 365 in
  let doy := doe - (365 * yoe + yoe / 4 - yoe / 100) in
  let mp := (5 * doy + 2) / 153 in
  let d := doy - (153 * mp + 2) / 5 + 1 in
  let m := if mp <? 10 then mp + 3 else mp - 9 in
  (if m <=? 2 then yoe + era * 400 + 1 else yoe + era * 400, m, d).

Definition isoformat_utc (t : Z) : string :=
  let '(y, m, d) := civil_from_days (t / 86400000000) in
  let r := t mod 86400000000 in
  let us := r mod 1000000 in
  let secs := r / 1000000 in
  String.concat ""
    [pad 4 y; "-"; pad 2 m; "-"; pad 2 d; "T";
     pad 2 (secs / 3600); ":"; pad 2 (secs / 60 mod 60); ":"; pad 2 (secs mod 60);
     if us =? 0 then "" else String.append "." (pad 6 us);
     "+00:00"].

Definition parse_utc (s : string) : option Z :=
  '(y, s) ← take_digits 4 0 s;
  s ← expect "-" s;
  '(m, s) ← take_digits 2 0 s;
  s ← expect "-" s;
  '(d, s) ← take_digits 2 0 s;
  s ← expect "T" s;
  '(hh, s) ← take_digits 2 0 s;
  s ← expect ":" s;
  '(mi, s) ← take_digits 2 0 s;
  s ← expect ":" s;
  '(ss, s) ← take_digits 2 0 s;
  '(us, s) ← match expect "." s with
             | Some s' => take_digits 6 0 s'
             | None => Some (0, s)
             end;
  if String.eqb s "Z" || String.eqb s "+00:00"
  then Some ((days_from_civil y m d * 86400 + hh * 3600 + mi * 60 + ss) * 1000000 + us)
  else None.

(** *** Datetimes that carry their UTC offset

    What [parser.parse] returns for a text with an offset is an aware
    datetime: an instant together with the offset of the text.  Adding a
    [timedelta] keeps the offset, [<] compares the instants, and
    [isoformat] writes the local time followed by the offset.  The window
    loop is the one place of the tap where the text of a datetime is
    compared, so its head is given on these datetimes as well. *)
Record datetime : Type := { instant : Z; utcoffset : Z }.

Definition datetime_add (d : datetime) (delta : Z) : datetime :=
  {| instant := instant d + delta; utcoffset := utcoffset d |}.

Definition datetime_lt (a b : datetime) : bool := instant a <? instant b.

(** [utcoffset] as [+HH:MM] or [-HH:MM]. *)
Definition offset_text (offset : Z) : string :=
  let minutes := Z.abs offset / 60000000 in
  String.concat ""
    [if offset <? 0 then "-" else "+";
     pad 2 (minutes / 60); ":"; pad 2 (minutes mod 60)].

Definition datetime_isoformat (d : datetime) : string :=
  let local := instant d + utcoffset d in
  let '(y, m, dd) := civil_from_days (local / 86400000000) in
  let r := local mod 86400000000 in
  let us := r mod 1000000 in
  let secs := r / 1000000 in
  String.concat ""
    [pad 4 y; "-"; pad 2 m; "-"; pad 2 dd; "T";
     pad 2 (secs / 3600); ":"; pad 2 (secs / 60 mod 60); ":"; pad 2 (secs mod 60);
     if us =? 0 then "" else String.append "." (pad 6 us);
     offset_text (utcoffset d)].

(** The offset at the end of a text: [Z], [+HH:MM] or [-HH:MM]. *)
Definition parse_offset (s : string) : option Z :=
  if String.eqb s "Z" then Some 0
  else
    match s with
    | String sign s =>
        '(hh, s) ← take_digits 2 0 s;
        s ← expect ":" s;
        '(mi, s) ← take_digits 2 0 s;
        if negb (String.eqb s "") then None
        else if Ascii.eqb sign "+" then Some ((hh * 60 + mi) * 60000000)
        else if Ascii.eqb sign "-" then Some (- ((hh * 60 + mi) * 60000000))
        else None
    | EmptyString => None
    end.

Definition datetime_parse (s : string) : option datetime :=
  '(y, s) ← take_digits 4 0 s;
  s ← expect "-" s;
  '(m, s) ← take_digits 2 0 s;
  s ← expect "-" s;
  '(d, s) ← take_digits 2 0 s;
  s ← expect "T" s;
  '(hh, s) ← take_digits 2 0 s;
  s ← expect ":" s;
  '(mi, s) ← take_digits 2 0 s;
  s ← expect ":" s;
  '(ss, s) ← take_digits 2 0 s;
  '(us, s) ← match expect "." s with
             | Some s' => take_digits 6 0 s'
             | None => Some (0, s)
             end;
  offset ← parse_offset s;
  Some {| instant := (days_from_civil y m d * 86400 + hh * 3600 + mi * 60 + ss)
                     * 1000000 + us - offset;
          utcoffset := offset |}.

(** The [range] dict of one turn of the window loop, lines 201-205. *)
Definition datetime_range (request_range_limit : Z) (since_dtime until_dtime : datetime)
  : list (string * json) :=
  [("offset", JNum 0);
   ("since", JStr (datetime_isoformat since_dtime));
   ("until", JStr (py_min (datetime_isoformat
                             (datetime_add since_dtime request_range_limit))
                          (datetime_isoformat until_dtime)))].

(** The [range] dicts of the turns of
    [while since_dtime < until_dtime: ...; since_dtime += request_range_limit],
    in order; at most [turns] turns. *)
Fixpoint window_ranges (turns : nat) (request_range_limit : Z)
  (since_dtime until_dtime : datetime) : option (list (list (string * json))) :=
  match turns with
  | O => None
  | S turns' =>
      if datetime_lt since_dtime until_dtime then
        option_map (cons (datetime_range request_range_limit since_dtime until_dtime))
          (window_ranges turns' request_range_limit
             (datetime_add since_dtime request_range_limit) until_dtime)
      else Some []
  end.

(** *** A scripted API

    Each URL suffix has its own queue of answers; a request takes the next
    answer of its URL, and a URL with nothing left answers 404. *)

Definition mock_api : Type := list (string * list (exn + json)).

Fixpoint mock_fetch (url : string) (p : gmap string json) (s : mock_api)
  : (exn + json) * mock_api :=
  match s with
  | [] => (inl (HTTPError 404), [])
  | (u, replies) :: rest =>
      if String.eqb u url then
        match replies with
        | [] => (inl (HTTPError 404), s)
        | r :: rs => (r, (u, rs) :: rest)
        end
      else
        let '(r, rest') := mock_fetch url p rest in
        (r, (u, replies) :: rest')
  end.

(** A transformer that accepts every record as it is. *)
Definition accept_all (c : stream_class) (r : json) : exn + json := inr r.

(** Ids are strings in the examples. *)
Definition no_repr (x : json) : string := "".

(** *** A scripted network

    The replies still to come, each with the time its request takes, and
    the clock; [random.uniform(0, value)] draws the middle of its range. *)

Record tape : Type := {
  replies_left : list (reply * Z);
  time : Z
}.

Definition tape_get (url : string) (p : gmap string json) (n : tape) : reply * tape :=
  match replies_left n with
  | [] => (RefusedConnection, n)
  | (r, d) :: rest => (r, {| replies_left := rest; time := time n + d |})
  end.

Definition tape_sleep (d : Z) (n : tape) : tape :=
  {| replies_left := replies_left n; time := time n + d |}.

Definition tape_uniform (v : Z) (n : tape) : Z * tape := (v / 2, n).

(** *** Sample data *)

Definition page_of (key : string) (records : list json) (more : bool) : json :=
  JObj [(key, JArr records); ("more", JBool more)].

Definition notification (id started_at : string) : json :=
  JObj [("id", JStr id); ("started_at", JStr started_at)].

Definition incident (id created_at : string) : json :=
  JObj [("id", JStr id); ("created_at", JStr created_at)].

(** The parameters of a stream made from a config with [since] on
    2024-01-01 and [until] on 2024-01-20. *)
Definition sample_params : gmap string json :=
  list_to_map [("limit", JNum 100); ("offset", JNum 0);
               ("since", JStr "2024-01-01T00:00:00Z");
               ("time_zone", JStr "UTC");
               ("until", JStr "2024-01-20T00:00:00Z")].

Definition sample_stream (c : stream_class) : PagerdutyStream :=
  {| cls := c; config := JNull; token := JStr "secret";
     email := JStr "ops@example.com"; params := 0%nat |}.

Definition sample_machine (a : mock_api) (bookmarks : gmap string (gmap string json))
  : machine mock_api :=
  {| api := a; events := []; heap := {[ 0%nat := sample_params ]};
     counter := 0; state := bookmarks |}.

(** Three notifications on two pages: one before, one at and one after
    2024-01-03. *)
Definition notifications_api : mock_api :=
  [("/notifications",
     [inr (page_of "notifications"
             [notification "N1" "2024-01-02T00:00:00Z";
              notification "N2" "2024-01-03T00:00:00Z"] true);
      inr (page_of "notifications"
             [notification "N3" "2024-01-04T00:00:00Z"] false)])].

Definition notifications_bookmark (text : string) : gmap string (gmap string json) :=
  {[ "notifications" := {[ "started_at" := JStr text ]} ]}.

(** One incident in the first of three weekly windows; its log entries
    come in three pages and its alerts in two. *)
Definition incidents_api : mock_api :=
  [("/incidents",
     [inr (page_of "incidents" [incident "P1" "2024-01-02T00:00:00Z"] false);
      inr (page_of "incidents" [] false);
      inr (page_of "incidents" [] false)]);
   ("/incidents/P1/log_entries",
     [inr (page_of "log_entries" [JStr "L1"] true);
      inr (page_of "log_entries" [JStr "L2"] true);
      inr (page_of "log_entries" [JStr "L3"] false)]);
   ("/incidents/P1/alerts",
     [inr (page_of "alerts" [JStr "A1"] true);
      inr (page_of "alerts" [JStr "A2"] false)])].

(** Three pages of users. *)
Definition users_api : mock_api :=
  [("/users",
     [inr (page_of "users" [JStr "U1"] true);
      inr (page_of "users" [JStr "U2"] true);
      inr (page_of "users" [JStr "U3"] false)])].

(** A config whose [notifications] entry overrides [until]; one whose
    entry names a parameter the endpoint does not have. *)
Definition sample_config (overrides : list (string * json)) : list (string * json) :=
  [("token", JStr "secret"); ("email", JStr "ops@example.com");
   ("since", JStr "2024-01-01T00:00:00Z");
   ("streams", JObj [("notifications", JObj overrides)])].

Definition empty_machine : machine mock_api :=
  {| api := []; events := []; heap := ∅; counter := 0; state := ∅ |}.

(** A connection error, then a 503, then a 200 with a body; each request
    takes a second. *)
Definition flaky_tape : tape :=
  {| replies_left := [(RefusedConnection, 1000000);
                      (Response 503 None, 1000000);
                      (Response 200 (Some (JObj [("users", JArr [])])), 1000000)];
     time := 0 |}.

Definition not_found_tape : tape :=
  {| replies_left := [(Response 404 None, 1000000);
                      (Response 200 (Some JNull), 1000000)];
     time := 0 |}.

Definition fresh_wire (n : tape) : wire tape :=
  {| net := n; sent := []; slept := [] |}.

(** A machine whose stream holds the parameters [p]. *)
Definition machine_with (a : mock_api) (p : gmap string json)
  (bookmarks : gmap string (gmap string json)) : machine mock_api :=
  {| api := a; events := []; heap := {[ 0%nat := p ]};
     counter := 0; state := bookmarks |}.

(** A first page of notifications that announces more, with nothing after
    it: the second request is answered 404. *)
Definition truncated_notifications_api : mock_api :=
  [("/notifications",
     [inr (page_of "notifications"
             [notification "N1" "2024-01-02T00:00:00Z";
              notification "N2" "2024-01-03T00:00:00Z"] true)])].

(** A bookmark store with more in it than the bookmark of the
    notifications: another key under the same stream, and the bookmark of
    the incidents. *)
Definition crowded_bookmarks : gmap string (gmap string json) :=
  <["incidents" := {[ "created_at" := JStr "2023-12-31T00:00:00+00:00" ]}]>
    {[ "notifications" :=
         <["version" := JNum 1]>
           {[ "started_at" := JStr "2024-01-03T00:00:00+00:00" ]} ]}.

(** [/users] answers with a body that has no list of users. *)
Definition keyless_users_api : mock_api :=
  [("/users", [inr (JObj [("error", JStr "unavailable")])])].

(** The parameters of two streams. *)
Definition two_streams (a : mock_api) (bookmarks : gmap string (gmap string json))
  : machine mock_api :=
  {| api := a; events := [];
     heap := <[1%nat := <["limit" := JNum 25]> sample_params]>
               {[ 0%nat := sample_params ]};
     counter := 0; state := bookmarks |}.

(** A timeout, then a 200 with a body; a 204 without a body. *)
Definition hiccup_tape : tape :=
  {| replies_left := [(TimedOut, 1000000);
                      (Response 200 (Some (JObj [("users", JArr [])])), 1000000)];
     time := 0 |}.

Definition empty_body_tape : tape :=
  {| replies_left := [(Response 204 None, 1000000)]; time := 0 |}.

(** Four timeouts, a 503, one more timeout, then a 200 with a body; each
    request takes a second. *)
Definition stubborn_tape : tape :=
  {| replies_left := [(TimedOut, 1000000); (TimedOut, 1000000);
                      (TimedOut, 1000000); (TimedOut, 1000000);
                      (Response 503 None, 1000000); (TimedOut, 1000000);
                      (Response 200 (Some (JObj [("users", JArr [])])), 1000000)];
     time := 0 |}.

(** A timeout, a 503, two more timeouts, then a 200 with a body; each
    request takes a minute. *)
Definition slow_tape : tape :=
  {| replies_left := [(TimedOut, 60000000); (Response 503 None, 60000000);
                      (TimedOut, 60000000); (TimedOut, 60000000);
                      (Response 200 (Some (JObj [("users", JArr [])])), 60000000)];
     time := 0 |}.

(** On-calls that have a start but no schedule, or no end. *)
Definition oncall_without_schedule : list (string * json) :=
  [("schedule", JNull); ("start", JStr "2024-01-05T00:00:00Z");
   ("end", JStr "2024-01-06T00:00:00Z")].

Definition oncall_without_end : list (string * json) :=
  [("schedule", JObj [("id", JStr "SCHED1")]);
   ("start", JStr "2024-01-05T00:00:00Z"); ("end", JNull)].

(** ** The engine *)

Section Tap.

(** The PagerDuty API seen through the decorated [_get]: its state, and
    what one call answers (the parsed body, or the exception that comes
    out of the retry decorators). *)
Variable Api : Type.
Variable fetch : string -> gmap string json -> Api -> (exn + json) * Api.

(** [dateutil.parser.parse] on a string ([None]: it raises) and
    [datetime.isoformat]. *)
Variable parse : string -> option Z.
Variable isoformat : Z -> string.

(** [singer.Transformer().transform(data, schema)] with the schema of the
    stream; it raises on a record that does not fit. *)
Variable transform : stream_class -> json -> exn + json.

(** Text of a record id that is not a string, inside an f-string. *)
Variable repr : json -> string.

(** The network and the clock under [requests.get], [datetime.now],
    [time.sleep] and [random.uniform(0, value)], in microseconds. *)
Variable Net : Type.
Variable requests_get : string -> gmap string json -> Net -> reply * Net.
Variable clock : Net -> Z.
Variable sleep : Z -> Net -> Net.
Variable uniform : Z -> Net -> Z * Net.

(** *** The retrying fetcher *)

(** [_construct_headers()], lines 85-92, on the dict that
    [requests.utils.default_headers()] returns. *)
Definition _construct_headers (default_headers : CaseInsensitiveDict)
  (self : PagerdutyStream) : CaseInsensitiveDict :=
  let headers := default_headers in
  let headers :=
    ci_setitem "Accept" (JStr "application/vnd.pagerduty+json;version=2") headers in
  let headers := ci_setitem "User-Agent" (JStr "python-pagerduty-tap") headers in
  let headers :=
    ci_setitem "Authorization"
      (JStr (String.append "Token token= " (py_format repr (token self)))) headers in
  let headers := ci_setitem "Content-Type" (JStr "application/json") headers in
  ci_setitem "From" (email self) headers.

(** The body of [_get], lines 105-109: one request.  The URL is
    [base_url + url_suffix] and the headers are those of
    [_construct_headers]; neither bears on the outcome. *)
Definition get_once (url : string) (p : gmap string json) (w : wire Net)
  : outcome json * wire Net :=
  let '(r, n1) := requests_get url p (net w) in
  (outcome_of r,
   {| net := n1; sent := sent w ++ [(clock (net w), r)]; slept := slept w |}).

(** The retry loop of [backoff.on_exception(wait_gen, exception,
    max_time=..., giveup=..., jitter=full_jitter)], as the library runs it:
    [start] is the reading of the clock when the decorated function was
    called, [a] and [b] are the variables of the wait generator.  The time
    elapsed is read before each attempt; an exception that is caught is
    raised again when [giveup] says so or when the elapsed time has reached
    [max_time]; otherwise the loop sleeps a random part of the next value
    of the generator, at most what is left of [max_time], and tries
    again. *)
Fixpoint on_exception (fuel : nat) (catches giveup : exn -> bool) (max_time : Z)
  (target : wire Net -> outcome json * wire Net) (start a b : Z) (w : wire Net)
  : outcome json * wire Net :=
  match fuel with
  | O => (OutOfFuel, w)
  | S fuel' =>
      let elapsed := clock (net w) - start in
      match target w with
      | (Raise e, w1) =>
          if catches e then
            if giveup e || (max_time <=? elapsed) then (Raise e, w1)
            else
              let '(x, n2) := uniform (seconds a) (net w1) in
              let wait := Z.min x (max_time - elapsed) in
              on_exception fuel' catches giveup max_time target start b (a + b)
                {| net := sleep wait n2; sent := sent w1;
                   slept := slept w1 ++ [wait] |}
          else (Raise e, w1)
      | other => other
      end
  end.

(** A function under the decorator: the clock is read and the generator
    made when it is called. *)
Definition decorated (fuel : nat) (catches giveup : exn -> bool) (max_time : Z)
  (target : wire Net -> outcome json * wire Net) (w : wire Net)
  : outcome json * wire Net :=
  on_exception fuel catches giveup max_time target (clock (net w)) 1 1 w.

(** [_get] under its two decorators, lines 94-104: the inner one retries
    connection errors and timeouts, the outer one HTTP errors unless
    [is_fatal_code]; both with [backoff.fibo] and [max_time=120]. *)
Definition get_retrying (fuel : nat) (url : string) (p : gmap string json)
  : wire Net -> outcome json * wire Net :=
  decorated fuel is_http_error giveup_fatal (seconds 120)
    (decorated fuel is_network_error (fun _ => false) (seconds 120)
       (get_once url p)).

Definition M (A : Type) : Type := machine Api -> outcome A * machine Api.

Definition ret {A} (a : A) : M A := fun m => (Ok a, m).

Definition bind {A B} (c : M A) (k : A -> M B) : M B :=
  fun m => match c m with
           | (Ok a, m') => k a m'
           | (Raise e, m') => (Raise e, m')
           | (OutOfFuel, m') => (OutOfFuel, m')
           end.

Definition raise {A} (e : exn) : M A := fun m => (Raise e, m).

Definition out_of_fuel {A} : M A := fun m => (OutOfFuel, m).

(** A pure Python operation that returns or raises. *)
Definition lift {A} (r : exn + A) : M A :=
  match r with
  | inl e => raise e
  | inr a => ret a
  end.

Notation "'let*' x ':=' c 'in' k" := (bind c (fun x => k))
  (at level 10, x name, c at level 100, k at level 200, only parsing).
Notation "c ';;;' k" := (bind c (fun _ => k))
  (at level 100, k at level 200, right associativity, only parsing).

(** *** The heap of parameter dicts *)

Definition read_dict (r : nat) : M (gmap string json) :=
  fun m => (Ok (default ∅ (heap m !! r)), m).

Definition write_dict (r : nat) (d : gmap string json) : M unit :=
  fun m => (Ok tt, {| api := api m; events := events m;
                      heap := <[r := d]> (heap m);
                      counter := counter m; state := state m |}).

(** A dict display [{...}]: a new object. *)
Definition new_dict (d : gmap string json) : M nat :=
  fun m => let r := fresh (dom (heap m)) in
           (Ok r, {| api := api m; events := events m;
                     heap := <[r := d]> (heap m);
                     counter := counter m; state := state m |}).

(** [d.update(other)], [other] in key order. *)
Definition dict_update (d : gmap string json) (other : list (string * json))
  : gmap string json :=
  fold_left (fun acc kv => <[fst kv := snd kv]> acc) other d.

(** [d[k]] on a parameter dict. *)
Definition dict_item (d : gmap string json) (k : string) : exn + json :=
  match d !! k with
  | Some v => inr v
  | None => inl (KeyError k)
  end.

(** *** The external calls *)

(** [self._get(url_suffix, params)]: one decorated fetch.  The request
    carries the dict as it is when the call is made. *)
Definition _get (url : string) (pref : nat) : M json :=
  fun m =>
    let p := default ∅ (heap m !! pref) in
    let '(r, a') := fetch url p (api m) in
    let m' := {| api := a'; events := events m ++ [Get url p r];
                 heap := heap m; counter := counter m; state := state m |} in
    match r with
    | inl e => (Raise e, m')
    | inr j => (Ok j, m')
    end.

(** [singer.write_record(stream_name, record)]. *)
Definition write_record (name : string) (r : json) : M unit :=
  fun m => (Ok tt, {| api := api m; events := events m ++ [WriteRecord name r];
                      heap := heap m; counter := counter m; state := state m |}).

(** [counter.increment()]. *)
Definition counter_increment : M unit :=
  fun m => (Ok tt, {| api := api m; events := events m; heap := heap m;
                      counter := counter m + 1; state := state m |}).

(** [singer.bookmarks.get_bookmark(state, tap_stream_id, key, default=None)]. *)
Definition get_bookmark (id key : string) : M json :=
  fun m => (Ok (default JNull (default ∅ (state m !! id) !! key)), m).

(** [singer.bookmarks.write_bookmark(state, tap_stream_id, key, val)]. *)
Definition write_bookmark (id key : string) (val : json) : M unit :=
  fun m => (Ok tt, {| api := api m; events := events m; heap := heap m;
                      counter := counter m;
                      state := <[id := <[key := val]> (default ∅ (state m !! id))]>
                                 (state m) |}).

(** [parser.parse(x)]: a [TypeError] unless [x] is a string. *)
Definition parser_parse (x : json) : M Z :=
  match x with
  | JStr s => match parse s with
              | Some t => ret t
              | None => raise ParserError
              end
  | _ => raise TypeError
  end.

(** *** PagerdutyStream *)

(** The first loop of [__init__]: every key of the stream's overrides must
    be a valid parameter of the class. *)
Fixpoint check_overrides (c : stream_class) (keys : list string) : M unit :=
  match keys with
  | [] => ret tt
  | key :: rest =>
      if bool_decide (key ∈ valid_params c) then check_overrides c rest
      else raise (RuntimeError
                    (String.concat "" ["/"; tap_stream_id c;
                                       " endpoint does not support '"; key;
                                       "' parameter."]))
  end.

(** The second loop of [__init__], over [required_params]; [now] is the
    reading of the clock. *)
Fixpoint check_required (c : stream_class) (pref : nat) (now : Z)
  (required : list string) : M unit :=
  match required with
  | [] => ret tt
  | param :: rest =>
      let* p := read_dict pref in
      (match p !! param with
       | Some _ => ret tt
       | None =>
           if String.eqb param "until"
           then write_dict pref (dict_update p [("until", JStr (isoformat now))])
           else raise (RuntimeError
                         (String.concat "" ["Parameter '"; param;
                                            "' required but not supplied for /";
                                            tap_stream_id c; " endpoint."]))
       end) ;;;
      check_required c pref now rest
  end.

(** [PagerdutyStream.__init__(config, state)] run for class [c]; the
    subclasses' [__init__] only call it.  Loading the schema and building
    the metadata touch neither the parameters nor the API and are left
    out. *)
Definition PagerdutyStream_init (c : stream_class) (config : json) (now : Z)
  : M PagerdutyStream :=
  let* token := lift (py_get config "token") in
  let* email := lift (py_get config "email") in
  let* limit := lift (py_get_default config "limit" (JNum 100)) in
  let* since := lift (py_get config "since") in
  let* pref := new_dict (dict_update ∅ [("limit", limit); ("offset", JNum 0);
                                        ("since", since);
                                        ("time_zone", JStr "UTC")]) in
  let* streams := lift (py_get_default config "streams" (JObj [])) in
  let* config_stream_params := lift (py_get streams (tap_stream_id c)) in
  (match config_stream_params with
   | JNull => ret tt
   | _ =>
       let* items := lift (py_items config_stream_params) in
       check_overrides c (map fst items) ;;;
       let* p := read_dict pref in
       write_dict pref (dict_update p items)
   end) ;;;
  check_required c pref now (required_params c) ;;;
  ret {| cls := c; config := config; token := token; email := email;
         params := pref |}.

(** [update_bookmark(bookmark, value)]. *)
Definition update_bookmark (bookmark : option Z) (value : Z) : Z :=
  match bookmark with
  | None => value
  | Some b => py_max b value
  end.

(** [_list_resource(url_suffix, params)]: the first page is fetched here. *)
Definition _list_resource (url : string) (pref : nat) : M PagerdutyResponse :=
  let* r := _get url pref in
  ret {| url_suffix := url; resp_params := pref; response := r;
         _iteration := 0 |}.

(** *** PagerdutyResponse *)

Definition PagerdutyResponse_iter (self : PagerdutyResponse) : PagerdutyResponse :=
  {| url_suffix := url_suffix self; resp_params := resp_params self;
     response := response self; _iteration := 0 |}.

(** [__next__]: [None] stands for [StopIteration]; otherwise the iterator
    itself, after the step. *)
Definition PagerdutyResponse_next (self : PagerdutyResponse)
  : M (option PagerdutyResponse) :=
  let it := _iteration self + 1 in
  if it =? 1 then
    ret (Some {| url_suffix := url_suffix self; resp_params := resp_params self;
                 response := response self; _iteration := it |})
  else
    let* more := lift (py_get (response self) "more") in
    match more with
    | JBool false => ret None
    | JBool true =>
        let* p := read_dict (resp_params self) in
        let* offset := lift (dict_item p "offset") in
        let* limit := lift (dict_item p "limit") in
        let* sum := lift (py_add offset limit) in
        write_dict (resp_params self) (<["offset" := sum]> p) ;;;
        let* r := _get (url_suffix self) (resp_params self) in
        ret (Some {| url_suffix := url_suffix self;
                     resp_params := resp_params self;
                     response := r; _iteration := it |})
    | _ => ret None
    end.

(** [PagerdutyResponse.get(key, default=None)], lines 151-152. *)
Definition PagerdutyResponse_get (self : PagerdutyResponse) (key : string)
  (default : json) : exn + json :=
  py_get_default (response self) key default.

(** [for page in it: acc = body(page, acc)], from the second [__next__]
    on; at most [fuel] calls of [__next__]. *)
Fixpoint next_pages {A} (fuel : nat) (body : PagerdutyResponse -> A -> M A)
  (it : PagerdutyResponse) (acc : A) : M A :=
  match fuel with
  | O => out_of_fuel
  | S fuel' =>
      let* nx := PagerdutyResponse_next it in
      match nx with
      | None => ret acc
      | Some page =>
          let* acc' := body page acc in
          next_pages fuel' body page acc'
      end
  end.

(** [for page in resp: acc = body(page, acc)]. *)
Definition for_pages {A} (fuel : nat) (body : PagerdutyResponse -> A -> M A)
  (resp : PagerdutyResponse) (acc : A) : M A :=
  next_pages fuel body (PagerdutyResponse_iter resp) acc.

(** [for record in records: acc = body(record, acc)]. *)
Fixpoint for_records {A} (body : json -> A -> M A) (records : list json)
  (acc : A) : M A :=
  match records with
  | [] => ret acc
  | record :: rest =>
      let* acc' := body record acc in
      for_records body rest acc'
  end.

(** [for record in page.get(key): ...]. *)
Definition for_records_of {A} (key : string) (body : json -> A -> M A)
  (page : PagerdutyResponse) (acc : A) : M A :=
  let* v := lift (py_get (response page) key) in
  let* records := lift (py_iter v) in
  for_records body records acc.

(** The block under [with singer.Transformer()]: transform, write, count. *)
Definition emit (c : stream_class) (record : json) : M unit :=
  let* transformed_record := lift (transform c record) in
  write_record (stream c) transformed_record ;;;
  counter_increment.

(** The bookmark test
    [(current_bookmark_dtime is None) or (record_dtime >= current_bookmark_dtime)]. *)
Definition passes (current_bookmark_dtime : option Z) (record_dtime : Z) : bool :=
  match current_bookmark_dtime with
  | None => true
  | Some w => w <=? record_dtime
  end.

(** *** sync of the FULL_TABLE classes

    [EscalationPoliciesStream], [ServicesStream], [SchedulesStream] and
    [UsersStream] share this text. *)
Definition full_table_sync (fuel : nat) (self : PagerdutyStream) : M unit :=
  let c := cls self in
  let* resp := _list_resource (String.append "/" (tap_stream_id c)) (params self) in
  for_pages fuel
    (for_records_of (tap_stream_id c) (fun record _ => emit c record))
    resp tt.

(** *** The record loop bodies of the INCREMENTAL classes

    Each takes the watermark read at the start of the run, the record and
    the running bookmark, and returns the running bookmark. *)

(** NotificationsStream.sync, lines 349-359. *)
Definition notifications_record (current : option Z) (record : json)
  (running : option Z) : M (option Z) :=
  let* v := lift (py_get record "started_at") in
  let* record_dtime := parser_parse v in
  if passes current record_dtime then
    emit NotificationsStream record ;;;
    ret (Some (update_bookmark running record_dtime))
  else ret running.

(** OncallsStream.sync, lines 484-505. *)
Definition oncalls_record (current : option Z) (record : json)
  (running : option Z) : M (option Z) :=
  let* v := lift (py_get record "start") in
  if negb (truthy v) then ret running
  else
    let* record := lift (synthesize_id record) in
    let* v := lift (py_get record "start") in
    let* record_dtime := parser_parse v in
    if passes current record_dtime then
      emit OncallsStream record ;;;
      ret (Some (update_bookmark running record_dtime))
    else ret running.

(** URL suffix of a sub-resource of an incident. *)
Definition incident_url (record_id : json) (sub : string) : string :=
  String.concat "" ["/"; "incidents"; "/"; py_format repr record_id; "/"; sub].

(** Body of the loop over the pages of log entries, lines 218-220, on the
    body of the page. *)
Definition extend_from_page (key : string) (page : json) (record : json)
  : exn + json :=
  match py_get page key with
  | inl e => inl e
  | inr v => py_extend_item record key v
  end.

Definition extend_log_entries (page : PagerdutyResponse) (record : json) : M json :=
  lift (extend_from_page "log_entries" (response page) record).

(** Body of the loop over the pages of alerts, lines 223-234: the bookmark
    test and the emission are inside this loop. *)
Definition extend_alerts (current : option Z) (record_dtime : Z)
  (page : PagerdutyResponse) (acc : json * option Z) : M (json * option Z) :=
  let* record := lift (extend_from_page "alerts" (response page) (fst acc)) in
  if passes current record_dtime then
    emit IncidentsStream record ;;;
    ret (record, Some (update_bookmark (snd acc) record_dtime))
  else ret (record, snd acc).

(** IncidentsStream.sync, lines 209-234. *)
Definition incidents_record (fuel : nat) (current : option Z) (record : json)
  (running : option Z) : M (option Z) :=
  let* v := lift (py_get record "created_at") in
  let* record_dtime := parser_parse v in
  let* substream_params :=
    new_dict (dict_update ∅ [("limit", JNum 100); ("offset", JNum 0);
                             ("time_zone", JStr "UTC")]) in
  let* record := lift (py_setitem record "log_entries" (JArr [])) in
  let* id := lift (py_get record "id") in
  let* resp := _list_resource (incident_url id "log_entries") substream_params in
  let* record := for_pages fuel extend_log_entries resp record in
  let* record := lift (py_setitem record "alerts" (JArr [])) in
  let* id := lift (py_get record "id") in
  let* resp := _list_resource (incident_url id "alerts") substream_params in
  let* acc := for_pages fuel (extend_alerts current record_dtime) resp
                (record, running) in
  ret (snd acc).

Definition record_body (s : incremental) (fuel : nat)
  : option Z -> json -> option Z -> M (option Z) :=
  match s with
  | Incidents => incidents_record fuel
  | Notifications => notifications_record
  | Oncalls => oncalls_record
  end.

(** *** sync of the INCREMENTAL classes

    The three [sync] methods share their text but for the stream id, the
    replication key, the number of days of [request_range_limit] and the
    body of the record loop. *)

(** The [range] dict of one turn of the window loop. *)
Definition window_range (request_range_limit since_dtime until_dtime : Z)
  : list (string * json) :=
  [("offset", JNum 0);
   ("since", JStr (isoformat since_dtime));
   ("until", JStr (py_min (isoformat (since_dtime + request_range_limit))
                          (isoformat until_dtime)))].

(** One turn of [while since_dtime < until_dtime], without the final
    [since_dtime += request_range_limit]. *)
Definition sync_window (s : incremental) (fuel : nat) (self : PagerdutyStream)
  (current : option Z) (since_dtime until_dtime : Z) (running : option Z)
  : M (option Z) :=
  let* p := read_dict (params self) in
  write_dict (params self)
    (dict_update p (window_range (timedelta (range_days s)) since_dtime until_dtime)) ;;;
  let* resp := _list_resource (String.append "/" (tap_stream_id (class_of s)))
                 (params self) in
  for_pages fuel
    (for_records_of (tap_stream_id (class_of s)) (record_body s fuel current))
    resp running.

(** [while since_dtime < until_dtime: ...]; at most [turns] turns. *)
Fixpoint window_loop (turns : nat) (turn : Z -> option Z -> M (option Z))
  (step : Z) (since_dtime until_dtime : Z) (running : option Z)
  : M (option Z) :=
  match turns with
  | O => out_of_fuel
  | S turns' =>
      if since_dtime <? until_dtime then
        let* running' := turn since_dtime running in
        window_loop turns' turn step (since_dtime + step) until_dtime running'
      else ret running
  end.

(** The part of [sync] up to the end of the window loop: it returns
    [running_bookmark_dtime]. *)
Definition sync_records (s : incremental) (fuel : nat) (self : PagerdutyStream)
  : M (option Z) :=
  let* current_bookmark := get_bookmark (tap_stream_id (class_of s)) (key_of s) in
  let* current :=
    match current_bookmark with
    | JNull => ret None
    | v => let* t := parser_parse v in ret (Some t)
    end in
  let* p := read_dict (params self) in
  let* since_dtime :=
    match current with
    | Some t => ret t
    | None => parser_parse (default JNull (p !! "since"))
    end in
  let* until_dtime := parser_parse (default JNull (p !! "until")) in
  window_loop fuel
    (fun since running => sync_window s fuel self current since until_dtime running)
    (timedelta (range_days s)) since_dtime until_dtime None.

(** The end of [sync]: [running_bookmark_dtime.isoformat()] and the write
    of the bookmark. *)
Definition write_final_bookmark (s : incremental) (running : option Z) : M unit :=
  match running with
  | None => raise AttributeError
  | Some t =>
      write_bookmark (tap_stream_id (class_of s)) (key_of s) (JStr (isoformat t))
  end.

(** [IncidentsStream.sync], [NotificationsStream.sync], [OncallsStream.sync]. *)
Definition sync (s : incremental) (fuel : nat) (self : PagerdutyStream) : M unit :=
  let* running := sync_records s fuel self in
  write_final_bookmark s running.

(** ** Notions used to state the properties *)

(** The API answers the requests of one pagination, started at [offset]
    and stepping by [limit], with [pages], one after the other, and is left
    in state [a']. *)
Fixpoint served (url : string) (p : gmap string json) (limit offset : Z)
  (a : Api) (pages : list json) (a' : Api) : Prop :=
  match pages with
  | [] => a' = a
  | page :: rest =>
      exists a1, fetch url (<["offset" := JNum offset]> p) a = (inr page, a1)
                 /\ served url p limit (offset + limit) a1 rest a'
  end.

(** The GET events of that pagination. *)
Fixpoint page_requests (url : string) (p : gmap string json) (limit offset : Z)
  (pages : list json) : list event :=
  match pages with
  | [] => []
  | page :: rest =>
      Get url (<["offset" := JNum offset]> p) (inr page)
      :: page_requests url p limit (offset + limit) rest
  end.

(** [cur] and the pages after it form one page sequence: every page but
    the last has [more] true, and the last has it false, absent or anything
    but true. *)
Fixpoint chained (cur : json) (rest : list json) : Prop :=
  match rest with
  | [] => exists v, py_get cur "more" = inr v /\ v <> JBool true
  | nxt :: rest' => py_get cur "more" = inr (JBool true) /\ chained nxt rest'
  end.

(** A loop body that only looks at the body of the page, folded over the
    pages. *)
Fixpoint fold_pages {A} (f : json -> A -> exn + A) (pages : list json) (acc : A)
  : exn + A :=
  match pages with
  | [] => inr acc
  | page :: rest =>
      match f page acc with
      | inl e => inl e
      | inr acc' => fold_pages f rest acc'
      end
  end.

(** The records of a page of stream [id], as the record loop draws them. *)
Definition records_of (id : string) (page : json) : list json :=
  match py_get page id with
  | inr v => match py_iter v with
             | inr l => l
             | inl _ => []
             end
  | inl _ => []
  end.

(** The records fetched during a run of stream [s]: those of the pages
    answered to requests on the stream's own endpoint, in order. *)
Definition top_records (s : incremental) (evs : list event) : list json :=
  flat_map (fun ev =>
              match ev with
              | Get url _ (inr page) =>
                  if String.eqb url (String.append "/" (tap_stream_id (class_of s)))
                  then records_of (tap_stream_id (class_of s)) page
                  else []
              | _ => []
              end) evs.

(** The records of all the pages fetched, for a stream whose only requests
    are those of its own endpoint. *)
Definition page_records (id : string) (evs : list event) : list json :=
  flat_map (fun ev =>
              match ev with
              | Get _ _ (inr page) => records_of id page
              | _ => []
              end) evs.

(** The replication-key value of a record of stream [s]: the parsed
    replication key.  An on-call record with an empty key has none. *)
Definition record_dtime (s : incremental) (record : json) : option Z :=
  match py_get record (key_of s) with
  | inr (JStr text) =>
      match s with
      | Oncalls => if String.eqb text "" then None else parse text
      | _ => parse text
      end
  | _ => None
  end.

(** The watermark of stream [s] in the bookmark store of [m]. *)
Definition watermark (s : incremental) (m : machine Api) : option Z :=
  match default JNull (default ∅ (state m !! tap_stream_id (class_of s)) !! key_of s) with
  | JStr text => parse text
  | _ => None
  end.

(** The events of a computation are appended to those before it, and the
    bookmark store is left as it is. *)
Definition extends {A} (c : M A) : Prop :=
  forall m r m',
    c m = (r, m') ->
    state m' = state m /\ exists new, events m' = events m ++ new.

(** What a completed page loop leaves in the events: per page after the
    first call of [__next__], its GET and then the events of the loop body,
    related to the page and the accumulator by [R]. *)
Inductive paged {A} (url : string) (R : json -> A -> A -> list event -> Prop)
  : A -> list event -> A -> Prop :=
| paged_stop acc : paged url R acc [] acc
| paged_step acc p page acc1 new1 rest acc' :
    R page acc acc1 new1 ->
    paged url R acc1 rest acc' ->
    paged url R acc (Get url p (inr page) :: new1 ++ rest) acc'.

(** What a completed record loop leaves: the records drawn, the records
    written and the running bookmark before and after.  A record with
    replication-key value [k] that passes the bookmark test against [W]
    contributes a non-empty group [g] of writes accepted by [G] and moves
    the bookmark; any other record contributes nothing. *)
Inductive processed (s : incremental) (W : option Z)
  (G : json -> list json -> Prop)
  : list json -> list json -> option Z -> option Z -> Prop :=
| processed_nil run : processed s W G [] [] run run
| processed_skip r rs ws run run' :
    (forall k, record_dtime s r = Some k -> passes W k = false) ->
    processed s W G rs ws run run' ->
    processed s W G (r :: rs) ws run run'
| processed_emit r rs g ws k run run' :
    record_dtime s r = Some k -> passes W k = true ->
    g <> [] -> G r g ->
    processed s W G rs ws (Some (update_bookmark run k)) run' ->
    processed s W G (r :: rs) (g ++ ws) run run'.

(** An incident record with its two sub-resource lists filled in. *)
Definition enriched (r r' : json) : Prop :=
  exists kv log_entries alerts,
    r = JObj kv
    /\ r' = JObj (assoc_set "alerts" (JArr alerts)
                    (assoc_set "log_entries" (JArr log_entries) kv)).

(** The writes [g] made for a record [r] that passes: the transformed
    record, once; for an on-call the record carries its synthesized id; for
    an incident the write sits inside the loop over the pages of alerts, so
    there are as many writes as pages, each of the record as enriched so
    far. *)
Definition written_from (s : incremental) (r : json) (g : list json) : Prop :=
  match s with
  | Incidents =>
      Forall (fun t => exists r', enriched r r'
                                  /\ transform IncidentsStream r' = inr t) g
  | Notifications =>
      exists t, transform NotificationsStream r = inr t /\ g = [t]
  | Oncalls =>
      exists r' t, synthesize_id r = inr r'
                   /\ transform OncallsStream r' = inr t /\ g = [t]
  end.

(** A record loop body that completes fetches no record of the stream and
    treats its record as [processed] says. *)
Definition body_ok (s : incremental) (W : option Z)
  (body : json -> option Z -> M (option Z)) : Prop :=
  forall r run m run' m',
    body r run m = (Ok run', m') ->
    exists new, events m' = events m ++ new
                /\ top_records s new = []
                /\ processed s W (written_from s) [r] (writes_of new) run run'.

(** What one turn of the loop over the pages of alerts leaves, for an
    incident [r] with replication-key value [k]: the accumulator is the
    record and the running bookmark. *)
Definition alerts_turn (W : option Z) (k : Z) (r : json) (page : json)
  (acc acc1 : json * option Z) (new1 : list event) : Prop :=
  top_records Incidents new1 = []
  /\ (enriched r (fst acc) ->
      enriched r (fst acc1) /\ written_from Incidents r (writes_of new1))
  /\ (passes W k = true /\ writes_of new1 <> []
      /\ snd acc1 = Some (update_bookmark (snd acc) k)
      \/ passes W k = false /\ new1 = [] /\ snd acc1 = snd acc).

(** The turns of the window loop written out: one per cursor, in order. *)
Fixpoint turns_over (turn : Z -> option Z -> M (option Z)) (cursors : list Z)
  (running : option Z) : M (option Z) :=
  match cursors with
  | [] => ret running
  | cursor :: rest =>
      let* running' := turn cursor running in
      turns_over turn rest running'
  end.

(** The number of windows of span [step] between [since] and [until], and
    the start of the [k]-th of them, counted from 0. *)
Definition window_count (step since until_ : Z) : nat :=
  Z.to_nat ((until_ - since + step - 1) / step).

Definition window_start (step since : Z) (k : nat) : Z :=
  since + Z.of_nat k * step.

(** [substream_params] as the dict display of IncidentsStream.sync makes
    it, lines 212-216. *)
Definition substream_params : gmap string json :=
  dict_update ∅ [("limit", JNum 100); ("offset", JNum 0);
                 ("time_zone", JStr "UTC")].

(** A page of a sub-resource whose list under [key] can be drawn from. *)
Definition has_items (key : string) (page : json) : Prop :=
  exists v l, py_get page key = inr v /\ py_iter v = inr l.

(** A computation that leaves the API alone: no request is issued. *)
Definition quiet {A} (c : M A) : Prop :=
  forall m r m', c m = (r, m') -> events m' = events m /\ api m' = api m.

(** The parameter dict that the loop over [required_params] leaves, for the
    dict [p] it starts from. *)
Definition with_default_until (required : list string) (now : Z)
  (p : gmap string json) : gmap string json :=
  match p !! "until" with
  | Some _ => p
  | None =>
      if bool_decide ("until" ∈ required)
      then <["until" := JStr (isoformat now)]> p
      else p
  end.

(** The parameter dict of a stream after the overrides [items] of its
    config entry, for the config object [cfg]. *)
Definition params_after_overrides (cfg items : list (string * json))
  : gmap string json :=
  dict_update
    (dict_update ∅ [("limit", default (JNum 100) (assoc_get "limit" cfg));
                    ("offset", JNum 0);
                    ("since", default JNull (assoc_get "since" cfg));
                    ("time_zone", JStr "UTC")])
    items.

(** What a completed call of a (decorated) fetch leaves on the wire, when
    [g] waits had been slept before it: the requests it sent are some
    [failed] attempts, each with a retryable reply, and a [last] one that
    decides the result; the first left when the call began; there is one
    wait per failed attempt, the [i]-th of the call no longer than the
    [g + i]-th Fibonacci number of seconds; and when the last reply is one
    of those [Q] that the call retries, two of its attempts (or [start] and
    one of them) began [max_time] or more apart. *)
Definition attempts_ok (Q : reply -> Prop) (max_time start : Z) (g : nat)
  (w : wire Net) (res : outcome json) (w' : wire Net) : Prop :=
  exists failed last ds,
    sent w' = sent w ++ failed ++ [last]
    /\ fst (hd last failed) = clock (net w)
    /\ Forall (fun tr => retryable (snd tr)) failed
    /\ res = outcome_of (snd last)
    /\ slept w' = slept w ++ ds
    /\ length ds = length failed
    /\ (forall i d, ds !! i = Some d -> 0 <= d <= seconds (fib (g + i)))
    /\ (Q (snd last) ->
        exists t0 t1,
          (t0 = start \/ In t0 (map fst (failed ++ [last])))
          /\ In t1 (map fst (failed ++ [last]))
          /\ max_time <= t1 - t0).

(** The pace of the two retry loops of [_get] along the attempts of one
    call: [attempt], those after it in [rest], and the [waits] between
    them.  [call_start] is the reading of the clock when the outer loop
    (HTTP errors) began and [j] the number of values its wait generator has
    given; [round_start] is the reading when the inner loop (connection
    errors and timeouts) began, which is when the current attempt of the
    outer loop began, and [i] the number of values that run of the inner
    loop has drawn from its own generator.
    - An attempt followed by another one failed and was retried by its
      loop: after a connection error or a timeout the inner loop had used
      less than 120 seconds when the attempt left, and the wait is a random
      part of the [i]-th Fibonacci number of seconds, cut to what was left
      of the 120; after a 5xx or a 429 the outer loop had used less than
      120 seconds when its own attempt began, the wait is a random part of
      its [j]-th Fibonacci number of seconds, cut likewise, and the inner
      loop starts anew with the next attempt.
    - The last attempt, when its reply is one that is retried, found its
      loop 120 seconds or more from its start. *)
Fixpoint paced (call_start : Z) (j : nat) (round_start : Z) (i : nat)
  (attempt : Z * reply) (rest : list (Z * reply)) (waits : list Z) : Prop :=
  match rest with
  | [] =>
      waits = []
      /\ match snd attempt with
         | Response status_code _ =>
             500 <= status_code < 600 \/ status_code = 429 ->
             seconds 120 <= round_start - call_start
         | _ => seconds 120 <= fst attempt - round_start
         end
  | next :: rest' =>
      exists d waits' n,
        waits = d :: waits'
        /\ match snd attempt with
           | Response status_code _ =>
               (500 <= status_code < 600 \/ status_code = 429)
               /\ round_start - call_start < seconds 120
               /\ d = Z.min (fst (uniform (seconds (fib j)) n))
                        (seconds 120 - (round_start - call_start))
               /\ paced call_start (S j) (fst next) 0 next rest' waits'
           | _ =>
               fst attempt - round_start < seconds 120
               /\ d = Z.min (fst (uniform (seconds (fib i)) n))
                        (seconds 120 - (fst attempt - round_start))
               /\ paced call_start j round_start (S i) next rest' waits'
           end
  end.

Definition paced_list (call_start : Z) (j : nat) (round_start : Z) (i : nat)
  (attempts : list (Z * reply)) (waits : list Z) : Prop :=
  match attempts with
  | [] => False
  | attempt :: rest => paced call_start j round_start i attempt rest waits
  end.

(** The 120 seconds read as one budget of the whole call, as the
    specification words it: of the [attempts] of a call that began at
    [start], each one that was retried (all but the last) had begun less
    than [max_time] after [start]. *)
Definition budget_per_call (max_time start : Z) (attempts : list (Z * reply))
  : Prop :=
  Forall (fun tr => fst tr - start < max_time) (removelast attempts).

(** The value stored for stream [s] in the bookmark store of [m]. *)
Definition bookmark (s : incremental) (m : machine Api) : option json :=
  default ∅ (state m !! tap_stream_id (class_of s)) !! key_of s.

(** An event of a stream of class [c] that has no sub-resources: a request
    on the stream's endpoint, or a record written under the stream's
    name. *)
Definition own_event (c : stream_class) (ev : event) : Prop :=
  match ev with
  | Get url _ _ => url = String.append "/" (tap_stream_id c)
  | WriteRecord name _ => name = stream c
  end.

(** An event of an incremental stream: as above, and for the incidents the
    requests on the log entries and the alerts of an incident. *)
Definition stream_event (s : incremental) (ev : event) : Prop :=
  match ev with
  | Get url _ _ =>
      url = String.append "/" (tap_stream_id (class_of s))
      \/ (s = Incidents
          /\ exists id sub,
               (sub = "log_entries" \/ sub = "alerts") /\ url = incident_url id sub)
  | WriteRecord name _ => name = stream (class_of s)
  end.

(** A computation that keeps the books, whatever its outcome: its events
    are appended to those before it and satisfy [P], and the record counter
    moves by the number of records written. *)
Definition accounted {A} (P : event -> Prop) (c : M A) : Prop :=
  forall m r m',
    c m = (r, m') ->
    exists new,
      events m' = events m ++ new
      /\ Forall P new
      /\ counter m' = counter m + Z.of_nat (length (writes_of new)).

(** A computation whose first event, whatever its outcome, is a request on
    [url] with the parameters [p]. *)
Definition starts_with {A} (url : string) (p : gmap string json) (c : M A)
  (m : machine Api) : Prop :=
  forall r m',
    c m = (r, m') ->
    exists reply rest, events m' = events m ++ Get url p reply :: rest.

(** The bodies of the pages answered to the requests on [url], in order. *)
Definition pages_at (url : string) (evs : list event) : list json :=
  flat_map (fun ev =>
              match ev with
              | Get u _ (inr page) => if String.eqb u url then [page] else []
              | _ => []
              end) evs.

(** The running concatenations of a list of lists, from [acc] on:
    [prefixes [] [a; b; c] = [a; a ++ b; a ++ b ++ c]]. *)
Fixpoint prefixes {A} (acc : list A) (ls : list (list A)) : list (list A) :=
  match ls with
  | [] => []
  | l :: rest => (acc ++ l) :: prefixes (acc ++ l) rest
  end.

(** An incident record with its log entries and its alerts set, as
    IncidentsStream.sync sets them (lines 217-224). *)
Definition with_sub_resources (kv : list (string * json))
  (log_entries alerts : list json) : json :=
  JObj (assoc_set "alerts" (JArr alerts)
          (assoc_set "log_entries" (JArr log_entries) kv)).

(** One turn of the loop over the pages of alerts, with the contents. *)
Definition alerts_step (W : option Z) (k : Z) (kv : list (string * json))
  (logs : list json) (page : json) (acc acc1 : json * option Z)
  (new1 : list event) : Prop :=
  (forall al, fst acc = with_sub_resources kv logs al ->
              fst acc1 = with_sub_resources kv logs (al ++ records_of "alerts" page))
  /\ (if passes W k
      then exists t, transform IncidentsStream (fst acc1) = inr t
                     /\ new1 = [WriteRecord (stream IncidentsStream) t]
                     /\ snd acc1 = Some (update_bookmark (snd acc) k)
      else new1 = [] /\ snd acc1 = snd acc).

(** A computation that leaves alone every parameter dict that exists when
    it starts, but those whose reference is in [S]; no dict is lost. *)
Definition touches {A} (S : nat -> Prop) (c : M A) : Prop :=
  forall m r m',
    c m = (r, m') ->
    (forall ref, is_Some (heap m !! ref) -> is_Some (heap m' !! ref))
    /\ (forall ref, is_Some (heap m !! ref) -> ~ S ref ->
                    heap m' !! ref = heap m !! ref).

(** ** Properties *)

(** *** The monad *)

Lemma bind_ok {A B} (c : M A) (k : A -> M B) m a m1 :
  c m = (Ok a, m1) -> bind c k m = k a m1.
Proof. intros H. unfold bind. now rewrite H. Qed.

Lemma bind_raise {A B} (c : M A) (k : A -> M B) m e m1 :
  c m = (Raise e, m1) -> bind c k m = (Raise e, m1).
Proof. intros H. unfold bind. now rewrite H. Qed.

Lemma bind_inv_ok {A B} (c : M A) (k : A -> M B) m b m' :
  bind c k m = (Ok b, m') ->
  exists a m1, c m = (Ok a, m1) /\ k a m1 = (Ok b, m').
Proof.
  unfold bind. destruct (c m) as [[a | e |] m1]; intros H; try discriminate.
  now exists a, m1.
Qed.

Lemma lift_inv_ok {A} (r : exn + A) m a m' :
  lift r m = (Ok a, m') -> r = inr a /\ m' = m.
Proof.
  destruct r as [e | x]; cbn; intros H; inversion H; auto.
Qed.

Lemma machine_eta (m : machine Api) :
  {| api := api m; events := events m; heap := heap m;
     counter := counter m; state := state m |} = m.
Proof. now destruct m. Qed.

(** *** The page sequence *)

Lemma next_first (it : PagerdutyResponse) m :
  _iteration it = 0 ->
  PagerdutyResponse_next it m
  = (Ok (Some {| url_suffix := url_suffix it; resp_params := resp_params it;
                 response := response it; _iteration := 1 |}), m).
Proof. intros H. unfold PagerdutyResponse_next. now rewrite H. Qed.

Lemma next_stop (it : PagerdutyResponse) m v :
  1 <= _iteration it ->
  py_get (response it) "more" = inr v -> v <> JBool true ->
  PagerdutyResponse_next it m = (Ok None, m).
Proof.
  intros Hit Hmore Hv. unfold PagerdutyResponse_next.
  destruct (Z.eqb_spec (_iteration it + 1) 1) as [E | _]; [lia |].
  rewrite (bind_ok _ _ m v m) by (now rewrite Hmore).
  destruct v as [ | [ | ] | | | | ]; try reflexivity. now destruct Hv.
Qed.

Lemma next_more (it : PagerdutyResponse) m p offset limit :
  1 <= _iteration it ->
  py_get (response it) "more" = inr (JBool true) ->
  heap m !! resp_params it = Some p ->
  p !! "offset" = Some (JNum offset) ->
  p !! "limit" = Some (JNum limit) ->
  PagerdutyResponse_next it m
  = let p' := <["offset" := JNum (offset + limit)]> p in
    let '(r, a') := fetch (url_suffix it) p' (api m) in
    let m' := {| api := a';
                 events := events m ++ [Get (url_suffix it) p' r];
                 heap := <[resp_params it := p']> (heap m);
                 counter := counter m; state := state m |} in
    match r with
    | inl e => (Raise e, m')
    | inr j => (Ok (Some {| url_suffix := url_suffix it;
                            resp_params := resp_params it;
                            response := j;
                            _iteration := _iteration it + 1 |}), m')
    end.
Proof.
  intros Hit Hmore Hp Ho Hl. unfold PagerdutyResponse_next.
  destruct (Z.eqb_spec (_iteration it + 1) 1) as [E | _]; [lia |].
  rewrite (bind_ok _ _ m (JBool true) m) by (now rewrite Hmore).
  unfold bind, read_dict, dict_item, write_dict, _get, lift, ret. cbn.
  rewrite Hp. cbn. rewrite Ho, Hl. cbn.
  rewrite lookup_insert_eq. cbn.
  destruct (fetch _ _ _) as [[e | j] a']; reflexivity.
Qed.

Lemma next_pages_served {A} (f : json -> A -> exn + A) url pref p limit a' :
  p !! "limit" = Some (JNum limit) ->
  forall rest cur it acc acc' m offset fuel,
    1 <= _iteration it -> response it = cur ->
    url_suffix it = url -> resp_params it = pref ->
    heap m !! pref = Some (<["offset" := JNum offset]> p) ->
    chained cur rest ->
    served url p limit (offset + limit) (api m) rest a' ->
    fold_pages f rest acc = inr acc' ->
    (length rest < fuel)%nat ->
    next_pages fuel (fun page acc => lift (f (response page) acc)) it acc m
    = (Ok acc',
       {| api := a';
          events := events m ++ page_requests url p limit (offset + limit) rest;
          heap := <[pref := <["offset" := JNum (offset + Z.of_nat (length rest) * limit)]> p]>
                    (heap m);
          counter := counter m; state := state m |}).
Proof.
  intros Hlimit rest.
  induction rest as [ | nxt rest IH];
    intros cur it acc acc' m offset fuel Hit Hcur Hurl Hpref Hheap Hch Hsv Hfold Hfuel;
    (destruct fuel as [ | fuel]; [cbn in Hfuel; lia |]); cbn [next_pages].
  - destruct Hch as (v & Hmore & Hv). subst cur.
    rewrite (bind_ok _ _ m None m) by (eapply next_stop; eauto).
    cbn in Hfold, Hsv. inversion Hfold; subst acc' a'.
    unfold ret. f_equal. cbn [page_requests length].
    rewrite app_nil_r, Z.mul_0_l, Z.add_0_r, (insert_id (heap m)) by exact Hheap.
    symmetry. apply machine_eta.
  - destruct Hch as (Hmore & Hch). subst cur.
    cbn in Hsv. destruct Hsv as (a1 & Hfetch & Hsv).
    cbn in Hfold. destruct (f nxt acc) as [e | acc1] eqn:Hf; [discriminate |].
    assert (Hnext := next_more it m (<["offset" := JNum offset]> p) offset limit
                       Hit Hmore).
    rewrite Hpref in Hnext. specialize (Hnext Hheap).
    rewrite lookup_insert_eq in Hnext. specialize (Hnext eq_refl).
    rewrite lookup_insert_ne in Hnext by discriminate.
    specialize (Hnext Hlimit). cbn zeta in Hnext.
    rewrite insert_insert_eq, Hurl, Hfetch in Hnext.
    erewrite bind_ok by exact Hnext. cbn beta iota.
    erewrite bind_ok by (cbn [response]; rewrite Hf; reflexivity).
    erewrite IH; cycle 1.
    + cbn. lia.
    + reflexivity.
    + reflexivity.
    + reflexivity.
    + cbn [heap]. apply lookup_insert_eq.
    + exact Hch.
    + cbn [api]. exact Hsv.
    + exact Hfold.
    + cbn in Hfuel. lia.
    + cbn [api events heap counter state page_requests length].
      rewrite insert_insert_eq, <- app_assoc. cbn [app].
      do 4 f_equal. f_equal. lia.
Qed.

(** A pagination from its first request on: [_list_resource], then the
    loop over the pages. *)
Lemma list_pages_served {A} (f : json -> A -> exn + A) url pref p limit offset
  first rest acc acc' m a' fuel :
  heap m !! pref = Some p ->
  p !! "offset" = Some (JNum offset) ->
  p !! "limit" = Some (JNum limit) ->
  chained first rest ->
  served url p limit offset (api m) (first :: rest) a' ->
  fold_pages f (first :: rest) acc = inr acc' ->
  (length rest + 1 < fuel)%nat ->
  bind (_list_resource url pref)
    (fun resp => for_pages fuel (fun page acc => lift (f (response page) acc))
                   resp acc) m
  = (Ok acc',
     {| api := a';
        events := events m ++ page_requests url p limit offset (first :: rest);
        heap := <[pref := <["offset" := JNum (offset + Z.of_nat (length rest) * limit)]> p]>
                  (heap m);
        counter := counter m; state := state m |}).
Proof.
  intros Hheap Hoff Hlimit Hch Hsv Hfold Hfuel.
  destruct fuel as [ | fuel]; [lia |].
  cbn in Hsv. destruct Hsv as (a1 & Hfetch & Hsv).
  rewrite (insert_id p) in Hfetch by exact Hoff.
  cbn in Hfold. destruct (f first acc) as [e | acc1] eqn:Hf; [discriminate |].
  assert (Hlist : _list_resource url pref m
                  = (Ok {| url_suffix := url; resp_params := pref;
                           response := first; _iteration := 0 |},
                     {| api := a1;
                        events := events m ++ [Get url p (inr first)];
                        heap := heap m; counter := counter m;
                        state := state m |})).
  { unfold _list_resource, bind, _get, ret. rewrite Hheap. cbn.
    now rewrite Hfetch. }
  rewrite (bind_ok _ _ _ _ _ Hlist).
  unfold for_pages. cbn [next_pages].
  erewrite bind_ok by (apply next_first; reflexivity). cbn beta iota.
  erewrite bind_ok by (cbn [response PagerdutyResponse_iter]; rewrite Hf; reflexivity).
  erewrite (next_pages_served f url pref p limit a' Hlimit rest first _ _ _ _ offset);
    cycle 1.
  - cbn. lia.
  - reflexivity.
  - reflexivity.
  - reflexivity.
  - cbn [heap]. rewrite (insert_id p) by exact Hoff. exact Hheap.
  - exact Hch.
  - cbn [api]. exact Hsv.
  - exact Hfold.
  - lia.
  - cbn [api events heap counter state page_requests].
    rewrite <- app_assoc. cbn [app].
    rewrite (insert_id p "offset" (JNum offset)) by exact Hoff.
    reflexivity.
Qed.

(** *** Events only grow *)

Lemma extends_pure {A} (c : M A) :
  (forall m, exists r, c m = (r, m)) -> extends c.
Proof.
  intros Hc m r m' H. destruct (Hc m) as (r0 & E). rewrite E in H.
  inversion H; subst. split; [reflexivity |]. exists []. now rewrite app_nil_r.
Qed.

Lemma extends_ret {A} (a : A) : extends (ret a).
Proof. apply extends_pure. intros m. now eexists. Qed.

Lemma extends_raise {A} e : extends (@raise A e).
Proof. apply extends_pure. intros m. now eexists. Qed.

Lemma extends_out_of_fuel {A} : extends (@out_of_fuel A).
Proof. apply extends_pure. intros m. now eexists. Qed.

Lemma extends_lift {A} (x : exn + A) : extends (lift x).
Proof. destruct x; [apply extends_raise | apply extends_ret]. Qed.

Lemma extends_bind {A B} (c : M A) (k : A -> M B) :
  extends c -> (forall a, extends (k a)) -> extends (bind c k).
Proof.
  intros Hc Hk m r m' H. unfold bind in H.
  destruct (c m) as [[a | e |] m1] eqn:E; destruct (Hc _ _ _ E) as (S1 & n1 & E1).
  - destruct (Hk a _ _ _ H) as (S2 & n2 & E2). split; [congruence |].
    exists (n1 ++ n2). now rewrite E2, E1, app_assoc.
  - inversion H; subst. eauto.
  - inversion H; subst. eauto.
Qed.

Lemma extends_get url pref : extends (_get url pref).
Proof.
  intros m r m' H. unfold _get in H.
  destruct (fetch _ _ _) as [[e | j] a']; inversion H; cbn; eauto.
Qed.

Lemma extends_write_record name r : extends (write_record name r).
Proof. intros m x m' H. inversion H; cbn; eauto. Qed.

Lemma extends_counter_increment : extends counter_increment.
Proof.
  intros m x m' H. inversion H; cbn. split; [reflexivity |].
  exists []. now rewrite app_nil_r.
Qed.

Lemma extends_read_dict r : extends (read_dict r).
Proof. apply extends_pure. intros m. now eexists. Qed.

Lemma extends_write_dict r d : extends (write_dict r d).
Proof.
  intros m x m' H. inversion H; cbn. split; [reflexivity |].
  exists []. now rewrite app_nil_r.
Qed.

Lemma extends_new_dict d : extends (new_dict d).
Proof.
  intros m x m' H. inversion H; cbn. split; [reflexivity |].
  exists []. now rewrite app_nil_r.
Qed.

Lemma extends_get_bookmark id key : extends (get_bookmark id key).
Proof. apply extends_pure. intros m. now eexists. Qed.

Lemma extends_parser_parse v : extends (parser_parse v).
Proof.
  unfold parser_parse. destruct v; try apply extends_raise.
  destruct (parse s); [apply extends_ret | apply extends_raise].
Qed.

Create HintDb extends.

#[local] Hint Resolve extends_ret extends_raise extends_out_of_fuel extends_lift
  extends_get extends_write_record extends_counter_increment extends_read_dict
  extends_write_dict extends_new_dict extends_get_bookmark extends_parser_parse
  : extends.

(** Goes through a sequence of binds whose steps are in the hint base. *)
Ltac extends_steps :=
  repeat (apply extends_bind; [solve [auto with extends] | intros ?]);
  auto with extends.

Lemma extends_emit c r : extends (emit c r).
Proof. unfold emit. extends_steps. Qed.

Lemma extends_list_resource url pref : extends (_list_resource url pref).
Proof. unfold _list_resource. extends_steps. Qed.

Lemma extends_next it : extends (PagerdutyResponse_next it).
Proof.
  unfold PagerdutyResponse_next.
  destruct (_iteration it + 1 =? 1); [apply extends_ret |].
  apply extends_bind; [apply extends_lift | intros more].
  destruct more as [ | [ | ] | | | | ]; extends_steps.
Qed.

#[local] Hint Resolve extends_emit extends_list_resource extends_next : extends.

Lemma extends_next_pages {A} (body : PagerdutyResponse -> A -> M A) :
  (forall page acc, extends (body page acc)) ->
  forall fuel it acc, extends (next_pages fuel body it acc).
Proof.
  intros Hbody fuel. induction fuel as [ | fuel IH]; intros it acc; cbn.
  - apply extends_out_of_fuel.
  - apply extends_bind; [apply extends_next | intros [page | ]].
    + apply extends_bind; [apply Hbody | intros acc']. apply IH.
    + apply extends_ret.
Qed.

Lemma extends_for_pages {A} (body : PagerdutyResponse -> A -> M A) fuel resp acc :
  (forall page acc, extends (body page acc)) ->
  extends (for_pages fuel body resp acc).
Proof. intros Hbody. now apply extends_next_pages. Qed.

Lemma extends_for_records {A} (body : json -> A -> M A) :
  (forall r acc, extends (body r acc)) ->
  forall rs acc, extends (for_records body rs acc).
Proof.
  intros Hbody rs. induction rs as [ | r rs IH]; intros acc; cbn.
  - apply extends_ret.
  - apply extends_bind; [apply Hbody | intros acc']. apply IH.
Qed.

Lemma extends_for_records_of {A} key (body : json -> A -> M A) page acc :
  (forall r acc, extends (body r acc)) ->
  extends (for_records_of key body page acc).
Proof.
  intros Hbody. unfold for_records_of.
  do 2 (apply extends_bind; [apply extends_lift | intros ?]).
  now apply extends_for_records.
Qed.

Lemma extends_extend_alerts current k page acc :
  extends (extend_alerts current k page acc).
Proof.
  unfold extend_alerts. apply extends_bind; [apply extends_lift | intros r].
  destruct (passes current k); extends_steps.
Qed.

Lemma extends_record_body s fuel current r run :
  extends (record_body s fuel current r run).
Proof.
  destruct s; cbn [record_body].
  - unfold incidents_record.
    do 6 (apply extends_bind; [solve [auto with extends] | intros ?]).
    apply extends_bind.
    { apply extends_for_pages. intros. apply extends_lift. }
    intros ?.
    do 3 (apply extends_bind; [solve [auto with extends] | intros ?]).
    apply extends_bind.
    { apply extends_for_pages. intros. apply extends_extend_alerts. }
    intros ?. apply extends_ret.
  - unfold notifications_record.
    do 2 (apply extends_bind; [solve [auto with extends] | intros ?]).
    destruct (passes _ _); extends_steps.
  - unfold oncalls_record.
    apply extends_bind; [solve [auto with extends] | intros ?].
    destruct (negb _); [apply extends_ret |].
    do 3 (apply extends_bind; [solve [auto with extends] | intros ?]).
    destruct (passes _ _); extends_steps.
Qed.

Lemma extends_sync_window s fuel self current since_dtime until_dtime run :
  extends (sync_window s fuel self current since_dtime until_dtime run).
Proof.
  unfold sync_window.
  do 3 (apply extends_bind; [solve [auto with extends] | intros ?]).
  apply extends_for_pages. intros. apply extends_for_records_of.
  intros. apply extends_record_body.
Qed.

Lemma extends_window_loop (turn : Z -> option Z -> M (option Z)) step until_dtime :
  (forall since run, extends (turn since run)) ->
  forall turns since run,
    extends (window_loop turns turn step since until_dtime run).
Proof.
  intros Hturn turns. induction turns as [ | turns IH]; intros since run; cbn.
  - apply extends_out_of_fuel.
  - destruct (since <? until_dtime); [| apply extends_ret].
    apply extends_bind; [apply Hturn | intros ?]. apply IH.
Qed.

Lemma extends_sync_records s fuel self : extends (sync_records s fuel self).
Proof.
  unfold sync_records.
  apply extends_bind; [solve [auto with extends] | intros bm].
  apply extends_bind.
  { destruct bm; extends_steps. }
  intros current.
  apply extends_bind; [solve [auto with extends] | intros p].
  apply extends_bind.
  { destruct current; auto with extends. }
  intros since.
  apply extends_bind; [solve [auto with extends] | intros until_].
  apply extends_window_loop. intros. apply extends_sync_window.
Qed.

(** *** What a completed page loop leaves *)

Lemma next_inv_ok (it : PagerdutyResponse) m nx m1 :
  1 <= _iteration it ->
  PagerdutyResponse_next it m = (Ok nx, m1) ->
  (nx = None /\ m1 = m)
  \/ (exists p page it',
        nx = Some it'
        /\ events m1 = events m ++ [Get (url_suffix it) p (inr page)]
        /\ response it' = page /\ url_suffix it' = url_suffix it
        /\ 1 <= _iteration it').
Proof.
  intros Hit H. unfold PagerdutyResponse_next in H.
  destruct (Z.eqb_spec (_iteration it + 1) 1) as [E | _]; [lia |].
  apply bind_inv_ok in H. destruct H as (more & m2 & Hmore & H).
  apply lift_inv_ok in Hmore. destruct Hmore as (_ & ->).
  destruct more as [ | [ | ] | | | | ];
    try (left; inversion H; now subst).
  right.
  apply bind_inv_ok in H. destruct H as (p & m3 & Hp & H).
  inversion Hp; subst m3. clear Hp.
  apply bind_inv_ok in H. destruct H as (offset & m3 & Ho & H).
  apply lift_inv_ok in Ho. destruct Ho as (_ & ->).
  apply bind_inv_ok in H. destruct H as (limit & m3 & Hl & H).
  apply lift_inv_ok in Hl. destruct Hl as (_ & ->).
  apply bind_inv_ok in H. destruct H as (sum & m3 & Hs & H).
  apply lift_inv_ok in Hs. destruct Hs as (_ & ->).
  apply bind_inv_ok in H. destruct H as ([] & m3 & Hw & H).
  inversion Hw; subst m3. clear Hw.
  apply bind_inv_ok in H. destruct H as (page & m4 & Hg & H).
  inversion H; subst. clear H.
  unfold _get in Hg. cbn [api events heap counter state] in Hg.
  destruct (fetch _ _ _) as [[e | j] a']; inversion Hg; subst.
  eexists _, page, _. split; [reflexivity |]. cbn. repeat split. lia.
Qed.

Lemma next_pages_paged {A} (R : json -> A -> A -> list event -> Prop)
  (body : PagerdutyResponse -> A -> M A) :
  (forall page acc m acc' m',
      body page acc m = (Ok acc', m') ->
      exists new, events m' = events m ++ new /\ R (response page) acc acc' new) ->
  forall fuel it acc m acc' m',
    1 <= _iteration it ->
    next_pages fuel body it acc m = (Ok acc', m') ->
    exists new, events m' = events m ++ new
                /\ paged (url_suffix it) R acc new acc'.
Proof.
  intros Hbody fuel.
  induction fuel as [ | fuel IH]; intros it acc m acc' m' Hit H; cbn in H;
    [discriminate |].
  apply bind_inv_ok in H. destruct H as (nx & m1 & Hnext & H).
  apply next_inv_ok in Hnext; [| exact Hit].
  destruct Hnext as [(-> & ->) | (p & page & it' & -> & Hev & Hresp & Hurl & Hit')].
  - inversion H; subst. exists []. rewrite app_nil_r. split; [reflexivity |].
    constructor.
  - apply bind_inv_ok in H. destruct H as (acc1 & m2 & Hb & H).
    apply Hbody in Hb. destruct Hb as (new1 & E1 & HR).
    apply IH in H; [| exact Hit']. destruct H as (rest & E2 & Hp).
    exists (Get (url_suffix it) p (inr page) :: new1 ++ rest). split.
    + rewrite E2, E1, Hev, <- !app_assoc. reflexivity.
    + rewrite Hurl, Hresp in *. econstructor; eauto.
Qed.

(** A pagination from [_list_resource] on: the first page is there. *)
Lemma for_pages_paged {A} (R : json -> A -> A -> list event -> Prop)
  (body : PagerdutyResponse -> A -> M A) url pref fuel resp acc m m1 acc' m' :
  (forall page acc m acc' m',
      body page acc m = (Ok acc', m') ->
      exists new, events m' = events m ++ new /\ R (response page) acc acc' new) ->
  _list_resource url pref m = (Ok resp, m1) ->
  for_pages fuel body resp acc m1 = (Ok acc', m') ->
  exists p page acc1 new1 rest,
    events m' = events m ++ Get url p (inr page) :: new1 ++ rest
    /\ R page acc acc1 new1
    /\ paged url R acc1 rest acc'.
Proof.
  intros Hbody Hlist H.
  unfold _list_resource in Hlist.
  apply bind_inv_ok in Hlist. destruct Hlist as (page & m2 & Hg & Hr).
  inversion Hr; subst resp m2. clear Hr.
  unfold _get in Hg. destruct (fetch _ _ _) as [[e | j] a']; inversion Hg; subst.
  clear Hg. unfold for_pages in H. destruct fuel as [ | fuel]; [discriminate |].
  cbn [next_pages] in H.
  erewrite bind_ok in H by (apply next_first; reflexivity).
  cbn beta iota in H.
  apply bind_inv_ok in H. destruct H as (acc1 & m2 & Hb & H).
  apply Hbody in Hb. destruct Hb as (new1 & E1 & HR).
  apply (next_pages_paged R body Hbody) in H; [| cbn; lia].
  destruct H as (rest & E2 & Hp). cbn in *.
  eexists _, page, acc1, new1, rest. split; [| split; eauto].
  rewrite E2, E1, <- !app_assoc. reflexivity.
Qed.

(** *** What a completed record loop leaves *)

Lemma writes_of_app evs1 evs2 :
  writes_of (evs1 ++ evs2) = writes_of evs1 ++ writes_of evs2.
Proof. apply flat_map_app. Qed.

Lemma top_records_app s evs1 evs2 :
  top_records s (evs1 ++ evs2) = top_records s evs1 ++ top_records s evs2.
Proof. apply flat_map_app. Qed.

Lemma processed_app s W G rs1 ws1 run run1 :
  processed s W G rs1 ws1 run run1 ->
  forall rs2 ws2 run2,
    processed s W G rs2 ws2 run1 run2 ->
    processed s W G (rs1 ++ rs2) (ws1 ++ ws2) run run2.
Proof.
  induction 1 as [run | r rs ws run run' Hskip _ IH
                 | r rs g ws k run run' Hk Hp Hg HG _ IH];
    intros rs2 ws2 run2 H2; cbn.
  - exact H2.
  - apply processed_skip; auto.
  - rewrite <- app_assoc. eapply processed_emit; eauto.
Qed.

Lemma for_records_ok s W body :
  body_ok s W body ->
  forall rs run m run' m',
    for_records body rs run m = (Ok run', m') ->
    exists new, events m' = events m ++ new
                /\ top_records s new = []
                /\ processed s W (written_from s) rs (writes_of new) run run'.
Proof.
  intros Hbody rs.
  induction rs as [ | r rs IH]; intros run m run' m' H; cbn in H.
  - inversion H; subst. exists []. rewrite app_nil_r.
    repeat split. constructor.
  - apply bind_inv_ok in H. destruct H as (run1 & m1 & Hb & H).
    apply Hbody in Hb. destruct Hb as (n1 & E1 & T1 & P1).
    apply IH in H. destruct H as (n2 & E2 & T2 & P2).
    exists (n1 ++ n2). rewrite E2, E1, app_assoc, top_records_app, T1, T2.
    repeat split. rewrite writes_of_app.
    apply (processed_app _ _ _ _ _ _ _ P1 _ _ _ P2).
Qed.

Lemma for_records_of_ok s W body page run m run' m' :
  body_ok s W body ->
  for_records_of (tap_stream_id (class_of s)) body page run m = (Ok run', m') ->
  exists new, events m' = events m ++ new
              /\ top_records s new = []
              /\ processed s W (written_from s)
                   (records_of (tap_stream_id (class_of s)) (response page))
                   (writes_of new) run run'.
Proof.
  intros Hbody H. unfold for_records_of in H.
  apply bind_inv_ok in H. destruct H as (v & m1 & Hv & H).
  apply lift_inv_ok in Hv. destruct Hv as (Hv & ->).
  apply bind_inv_ok in H. destruct H as (records & m1 & Hr & H).
  apply lift_inv_ok in Hr. destruct Hr as (Hr & ->).
  unfold records_of. rewrite Hv, Hr.
  eapply for_records_ok; eauto.
Qed.

Lemma paged_processed s W p page run run1 run' new1 rest :
  top_records s new1 = [] ->
  processed s W (written_from s)
    (records_of (tap_stream_id (class_of s)) page) (writes_of new1) run run1 ->
  processed s W (written_from s) (top_records s rest) (writes_of rest) run1 run' ->
  processed s W (written_from s)
    (top_records s (Get (String.append "/" (tap_stream_id (class_of s))) p (inr page)
                      :: new1 ++ rest))
    (writes_of (Get (String.append "/" (tap_stream_id (class_of s))) p (inr page)
                  :: new1 ++ rest))
    run run'.
Proof.
  intros T1 P1 P2.
  change (Get ?u ?q ?r :: ?l) with ([Get u q r] ++ l).
  rewrite !top_records_app, !writes_of_app, T1. cbn [app].
  cbn [top_records writes_of flat_map]. rewrite String.eqb_refl.
  rewrite app_nil_r. cbn [app].
  apply (processed_app _ _ _ _ _ _ _ P1 _ _ _ P2).
Qed.

Lemma paged_top_processed s W run new run' :
  paged (String.append "/" (tap_stream_id (class_of s)))
    (fun page run run1 new1 =>
       top_records s new1 = []
       /\ processed s W (written_from s)
            (records_of (tap_stream_id (class_of s)) page) (writes_of new1)
            run run1)
    run new run' ->
  processed s W (written_from s) (top_records s new) (writes_of new) run run'.
Proof.
  induction 1 as [run | run p page run1 new1 rest run' (T1 & P1) _ IH].
  - constructor.
  - exact (paged_processed s W p page run run1 run' new1 rest T1 P1 IH).
Qed.

Lemma sync_window_ok s fuel self W since_dtime until_dtime run m run' m' :
  body_ok s W (record_body s fuel W) ->
  sync_window s fuel self W since_dtime until_dtime run m = (Ok run', m') ->
  exists new, events m' = events m ++ new
              /\ processed s W (written_from s)
                   (top_records s new) (writes_of new) run run'.
Proof.
  intros Hbody H. unfold sync_window in H.
  apply bind_inv_ok in H. destruct H as (p & m1 & Hp & H).
  inversion Hp; subst m1. clear Hp.
  apply bind_inv_ok in H. destruct H as ([] & m1 & Hw & H).
  apply bind_inv_ok in H. destruct H as (resp & m2 & Hl & H).
  eapply (for_pages_paged
            (fun page run run1 new1 =>
               top_records s new1 = []
               /\ processed s W (written_from s)
                    (records_of (tap_stream_id (class_of s)) page)
                    (writes_of new1) run run1)) in H; [| | exact Hl].
  2:{ intros page acc m0 acc' m0' Hb.
      apply (for_records_of_ok s W) in Hb; [| exact Hbody].
      destruct Hb as (new & E & T & P). exists new. split; [exact E |].
      exact (conj T P). }
  destruct H as (q & page & run1 & new1 & rest & E & (T1 & P1) & Hpaged).
  apply paged_top_processed in Hpaged.
  inversion Hw; subst m1. cbn [events] in E.
  eexists. split; [exact E |].
  exact (paged_processed s W q page run run1 run' new1 rest T1 P1 Hpaged).
Qed.

Lemma window_loop_ok s W (turn : Z -> option Z -> M (option Z)) step until_dtime :
  (forall since run m run' m',
      turn since run m = (Ok run', m') ->
      exists new, events m' = events m ++ new
                  /\ processed s W (written_from s)
                       (top_records s new) (writes_of new) run run') ->
  forall turns since run m run' m',
    window_loop turns turn step since until_dtime run m = (Ok run', m') ->
    exists new, events m' = events m ++ new
                /\ processed s W (written_from s)
                     (top_records s new) (writes_of new) run run'.
Proof.
  intros Hturn turns.
  induction turns as [ | turns IH]; intros since run m run' m' H; cbn in H;
    [discriminate |].
  destruct (since <? until_dtime).
  - apply bind_inv_ok in H. destruct H as (run1 & m1 & Ht & H).
    apply Hturn in Ht. destruct Ht as (n1 & E1 & P1).
    apply IH in H. destruct H as (n2 & E2 & P2).
    exists (n1 ++ n2). rewrite E2, E1, app_assoc. split; [reflexivity |].
    rewrite top_records_app, writes_of_app.
    apply (processed_app _ _ _ _ _ _ _ P1 _ _ _ P2).
  - inversion H; subst. exists []. rewrite app_nil_r. split; [reflexivity |].
    constructor.
Qed.

Lemma parser_parse_inv_ok v m t m' :
  parser_parse v m = (Ok t, m') ->
  exists text, v = JStr text /\ parse text = Some t /\ m' = m.
Proof.
  unfold parser_parse. destruct v; try discriminate.
  destruct (parse s) eqn:E; [| discriminate].
  intros H. inversion H; subst. eauto.
Qed.

(** A completed run of the record part of [sync], given that the bodies of
    the stream are as [body_ok] says. *)
Lemma sync_records_ok s fuel self m run' m' :
  (forall W, body_ok s W (record_body s fuel W)) ->
  sync_records s fuel self m = (Ok run', m') ->
  exists new, events m' = events m ++ new
              /\ processed s (watermark s m) (written_from s)
                   (top_records s new) (writes_of new) None run'.
Proof.
  intros Hbody H. unfold sync_records in H.
  apply bind_inv_ok in H. destruct H as (bm & m1 & Hb & H).
  inversion Hb; subst m1. clear Hb.
  apply bind_inv_ok in H. destruct H as (current & m1 & Hc & H).
  assert (Hcur : current = watermark s m /\ m1 = m).
  { unfold watermark. rewrite H1.
    destruct bm; try (inversion Hc; now subst);
      apply bind_inv_ok in Hc; destruct Hc as (t & m2 & Hp & Hr);
      apply parser_parse_inv_ok in Hp; destruct Hp as (text & Ht & Hp & ->);
      inversion Hr; subst; inversion Ht; subst. now rewrite Hp. }
  destruct Hcur as (-> & ->). clear Hc H1 bm.
  apply bind_inv_ok in H. destruct H as (p & m1 & Hp & H).
  inversion Hp; subst m1. clear Hp.
  apply bind_inv_ok in H. destruct H as (since & m1 & Hs & H).
  assert (m1 = m) as ->.
  { destruct (watermark s m); [now inversion Hs |].
    apply parser_parse_inv_ok in Hs. now destruct Hs as (? & _ & _ & ->). }
  apply bind_inv_ok in H. destruct H as (until_ & m1 & Hu & H).
  apply parser_parse_inv_ok in Hu. destruct Hu as (? & _ & _ & ->).
  eapply (window_loop_ok s (watermark s m)) in H.
  - destruct H as (new & E & P). now exists new.
  - intros since0 run m0 run0 m0' Ht.
    eapply sync_window_ok; [apply Hbody | exact Ht].
Qed.

(** *** The record loop bodies *)

Lemma emit_inv_ok c r m u m' :
  emit c r m = (Ok u, m') ->
  exists t, transform c r = inr t
            /\ events m' = events m ++ [WriteRecord (stream c) t].
Proof.
  unfold emit. intros H.
  apply bind_inv_ok in H. destruct H as (t & m1 & Ht & H).
  apply lift_inv_ok in Ht. destruct Ht as (Ht & ->).
  apply bind_inv_ok in H. destruct H as ([] & m1 & Hw & H).
  inversion Hw; subst m1. inversion H; subst. cbn. eauto.
Qed.

Lemma update_bookmark_again run k :
  update_bookmark (Some (update_bookmark run k)) k = update_bookmark run k.
Proof.
  destruct run as [b | ]; cbn; unfold py_max.
  - destruct (b <? k) eqn:E; [now rewrite Z.ltb_irrefl | now rewrite E].
  - now rewrite Z.ltb_irrefl.
Qed.

Lemma assoc_get_set_ne k k' v kv :
  k <> k' -> assoc_get k (assoc_set k' v kv) = assoc_get k kv.
Proof.
  intros Hne. induction kv as [ | [k0 v0] kv IH]; cbn.
  - destruct (String.eqb_spec k k'); [contradiction | reflexivity].
  - destruct (String.eqb_spec k' k0); cbn.
    + subst k0. now destruct (String.eqb_spec k k').
    + destruct (String.eqb_spec k k0); [reflexivity | exact IH].
Qed.

Lemma py_get_setitem_ne r r' k k' v :
  k <> k' -> py_setitem r k' v = inr r' -> py_get r' k = py_get r k.
Proof.
  intros Hne. destruct r; cbn; intros H; inversion H; subst; cbn.
  now rewrite assoc_get_set_ne.
Qed.

Lemma synthesize_id_keeps r r' k :
  k <> "id" -> synthesize_id r = inr r' -> py_get r' k = py_get r k.
Proof.
  intros Hne. unfold synthesize_id, and_then.
  repeat (match goal with
          | |- context [match ?x with inl _ => _ | inr _ => _ end] =>
              destruct x; try discriminate
          end).
  now apply py_get_setitem_ne.
Qed.

(** The decision taken on one record, once its replication-key value [k]
    is known: the common end of the three bodies. *)
Lemma decided_record s W r k g run run' :
  record_dtime s r = Some k ->
  (passes W k = true /\ g <> [] /\ written_from s r g
   /\ run' = Some (update_bookmark run k)
   \/ passes W k = false /\ g = [] /\ run' = run) ->
  processed s W (written_from s) [r] g run run'.
Proof.
  intros Hk [(Hp & Hg & HG & ->) | (Hp & -> & ->)].
  - rewrite <- (app_nil_r g). eapply processed_emit; eauto. constructor.
  - apply processed_skip; [| constructor].
    intros k' Hk'. congruence.
Qed.

Lemma notifications_record_ok W :
  body_ok Notifications W (notifications_record W).
Proof.
  intros r run m run' m' H. unfold notifications_record in H.
  apply bind_inv_ok in H. destruct H as (v & m1 & Hv & H).
  apply lift_inv_ok in Hv. destruct Hv as (Hv & ->).
  apply bind_inv_ok in H. destruct H as (k & m1 & Hk & H).
  apply parser_parse_inv_ok in Hk. destruct Hk as (text & -> & Hk & ->).
  assert (Hd : record_dtime Notifications r = Some k).
  { unfold record_dtime. cbn [key_of]. now rewrite Hv. }
  destruct (passes W k) eqn:Hp.
  - apply bind_inv_ok in H. destruct H as ([] & m1 & He & H).
    apply emit_inv_ok in He. destruct He as (t & Ht & E).
    inversion H; subst. eexists. split; [exact E |]. split; [reflexivity |].
    cbn. apply decided_record with (k := k); auto. left.
    split; [exact Hp | split; [discriminate | split; [now exists t | reflexivity]]].
  - inversion H; subst. exists []. rewrite app_nil_r.
    do 2 (split; [reflexivity |]). cbn.
    apply decided_record with (k := k); auto.
Qed.

Lemma oncalls_record_ok W : body_ok Oncalls W (oncalls_record W).
Proof.
  intros r run m run' m' H. unfold oncalls_record in H.
  apply bind_inv_ok in H. destruct H as (v & m1 & Hv & H).
  apply lift_inv_ok in Hv. destruct Hv as (Hv & ->).
  destruct (truthy v) eqn:Htruthy; cbn [negb] in H.
  - apply bind_inv_ok in H. destruct H as (r' & m1 & Hset & H).
    apply lift_inv_ok in Hset. destruct Hset as (Hset & ->).
    apply bind_inv_ok in H. destruct H as (v' & m1 & Hv' & H).
    apply lift_inv_ok in Hv'. destruct Hv' as (Hv' & ->).
    rewrite (synthesize_id_keeps r r' "start") in Hv' by (discriminate || exact Hset).
    rewrite Hv in Hv'. inversion Hv'; subst v'. clear Hv'.
    apply bind_inv_ok in H. destruct H as (k & m1 & Hk & H).
    apply parser_parse_inv_ok in Hk. destruct Hk as (text & -> & Hk & ->).
    assert (Hd : record_dtime Oncalls r = Some k).
    { unfold record_dtime. cbn [key_of]. rewrite Hv.
      cbn in Htruthy. destruct (String.eqb text ""); [discriminate | exact Hk]. }
    destruct (passes W k) eqn:Hp.
    + apply bind_inv_ok in H. destruct H as ([] & m1 & He & H).
      apply emit_inv_ok in He. destruct He as (t & Ht & E).
      inversion H; subst. eexists. split; [exact E |]. split; [reflexivity |].
      cbn. apply decided_record with (k := k); auto. left.
      split; [exact Hp | split; [discriminate | split; [now exists r', t | reflexivity]]].
    + inversion H; subst. exists []. rewrite app_nil_r.
      do 2 (split; [reflexivity |]). cbn.
      apply decided_record with (k := k); auto.
  - inversion H; subst. exists []. rewrite app_nil_r.
    do 2 (split; [reflexivity |]). cbn.
    apply processed_skip; [| constructor].
    intros k Hk. unfold record_dtime in Hk. cbn [key_of] in Hk. rewrite Hv in Hk.
    destruct v; try discriminate. cbn in Htruthy.
    destruct (String.eqb s ""); discriminate.
Qed.

Lemma incident_url_not_top id sub :
  String.eqb (incident_url id sub)
    (String.append "/" (tap_stream_id (class_of Incidents))) = false.
Proof. reflexivity. Qed.

(** The pages of a sub-resource: requests on another URL than the
    stream's, whose bodies leave no record of the stream behind. *)
Lemma paged_sub_resource {A} s url (R : json -> A -> A -> list event -> Prop)
  acc new acc' :
  String.eqb url (String.append "/" (tap_stream_id (class_of s))) = false ->
  (forall page a a1 new1, R page a a1 new1 -> top_records s new1 = []) ->
  paged url R acc new acc' ->
  top_records s new = [].
Proof.
  intros Hurl HR. induction 1 as [acc | acc p page acc1 new1 rest acc' H1 _ IH].
  - reflexivity.
  - change (Get ?u ?q ?r :: ?l) with ([Get u q r] ++ l).
    rewrite !top_records_app, IH, (HR _ _ _ _ H1). cbn.
    now rewrite Hurl.
Qed.

Lemma paged_no_writes {A} url (R : json -> A -> A -> list event -> Prop)
  acc new acc' :
  (forall page a a1 new1, R page a a1 new1 -> writes_of new1 = []) ->
  paged url R acc new acc' ->
  writes_of new = [].
Proof.
  intros HR. induction 1 as [acc | acc p page acc1 new1 rest acc' H1 _ IH].
  - reflexivity.
  - change (Get ?u ?q ?r :: ?l) with ([Get u q r] ++ l).
    now rewrite !writes_of_app, IH, (HR _ _ _ _ H1).
Qed.

Lemma assoc_get_set_eq k v kv : assoc_get k (assoc_set k v kv) = Some v.
Proof.
  induction kv as [ | [k0 v0] kv IH]; cbn.
  - now rewrite String.eqb_refl.
  - destruct (String.eqb_spec k k0) as [-> | Hne]; cbn.
    + now rewrite String.eqb_refl.
    + destruct (String.eqb_spec k k0); [contradiction | exact IH].
Qed.

Lemma assoc_set_set k v1 v2 kv :
  assoc_set k v2 (assoc_set k v1 kv) = assoc_set k v2 kv.
Proof.
  induction kv as [ | [k0 v0] kv IH]; cbn.
  - now rewrite String.eqb_refl.
  - destruct (String.eqb_spec k k0) as [-> | Hne]; cbn.
    + now rewrite String.eqb_refl.
    + destruct (String.eqb_spec k k0); [contradiction | now rewrite IH].
Qed.

(** [extend] keeps the record as it is but for the list it grows. *)
Lemma extend_from_page_shape key page l kv rec1 :
  extend_from_page key page (JObj (assoc_set key (JArr l) kv)) = inr rec1 ->
  exists l', rec1 = JObj (assoc_set key (JArr l') kv).
Proof.
  unfold extend_from_page, py_extend_item.
  destruct (py_get page key) as [e | v]; [discriminate |].
  cbn [py_item]. rewrite assoc_get_set_eq.
  destruct (py_iter v) as [e | l']; [discriminate |].
  cbn [py_setitem]. rewrite assoc_set_set. intros H. inversion H. eauto.
Qed.

Lemma paged_log_entries_shape url kv acc rest acc' :
  paged url
    (fun _ rec rec1 new1 =>
       new1 = []
       /\ ((exists l, rec = JObj (assoc_set "log_entries" (JArr l) kv)) ->
           exists l, rec1 = JObj (assoc_set "log_entries" (JArr l) kv)))
    acc rest acc' ->
  (exists l, acc = JObj (assoc_set "log_entries" (JArr l) kv)) ->
  exists l, acc' = JObj (assoc_set "log_entries" (JArr l) kv).
Proof.
  induction 1 as [acc | acc p page acc1 new1 rest acc' (_ & H1) _ IH]; auto.
Qed.

Lemma extend_alerts_ok W k r page acc m acc1 m1 :
  extend_alerts W k page acc m = (Ok acc1, m1) ->
  exists new, events m1 = events m ++ new
              /\ alerts_turn W k r (response page) acc acc1 new.
Proof.
  unfold extend_alerts, alerts_turn. intros H.
  apply bind_inv_ok in H. destruct H as (r1 & m2 & Hr & H).
  apply lift_inv_ok in Hr. destruct Hr as (Hr & ->).
  assert (Hshape : enriched r (fst acc) -> enriched r r1).
  { intros (kv & l & a & -> & E). rewrite E in Hr.
    apply extend_from_page_shape in Hr. destruct Hr as (a' & ->).
    now exists kv, l, a'. }
  destruct (passes W k).
  - apply bind_inv_ok in H. destruct H as ([] & m2 & He & H).
    apply emit_inv_ok in He. destruct He as (t & Ht & E).
    inversion H; subst. eexists. split; [exact E |]. cbn.
    split; [reflexivity |]. split.
    + intros Hen. split; [auto |]. constructor; [| constructor].
      exists r1. auto.
    + left. split; [reflexivity | split; [discriminate | reflexivity]].
  - inversion H; subst. exists []. rewrite app_nil_r. cbn.
    split; [reflexivity | split; [reflexivity |]]. split.
    + intros Hen. split; [auto | constructor].
    + right. now repeat split.
Qed.

Lemma paged_alerts_rest W k r url acc rest acc' :
  paged url (alerts_turn W k r) acc rest acc' ->
  (passes W k = true ->
   forall u, snd acc = Some u -> update_bookmark (Some u) k = u ->
             snd acc' = Some u)
  /\ (passes W k = false -> writes_of rest = [] /\ snd acc' = snd acc)
  /\ (enriched r (fst acc) -> written_from Incidents r (writes_of rest)).
Proof.
  induction 1 as [acc | acc p page acc1 new1 rest acc' (_ & Hen & H1) _
                                (IHt & IHf & IHw)].
  - split; [auto | split]; [intros _; now split | intros _; constructor].
  - split; [| split].
    + intros Hp u Hu Hfix.
      destruct H1 as [(_ & _ & E) | (Hp' & _)]; [| congruence].
      apply (IHt Hp u); [| exact Hfix]. now rewrite E, Hu, Hfix.
    + intros Hp.
      destruct H1 as [(Hp' & _) | (_ & -> & E)]; [congruence |].
      destruct (IHf Hp) as (Hw & Hs). cbn. split; [exact Hw | congruence].
    + intros Hacc. destruct (Hen Hacc) as (Hacc1 & Hw1).
      change (Get ?u ?q ?x :: ?l) with ([Get u q x] ++ l).
      rewrite !writes_of_app. cbn [writes_of flat_map app].
      apply Forall_app. split; [exact Hw1 | exact (IHw Hacc1)].
Qed.

Lemma incidents_record_ok fuel W : body_ok Incidents W (incidents_record fuel W).
Proof.
  intros r run m run' m' H. unfold incidents_record in H.
  apply bind_inv_ok in H. destruct H as (v & m1 & Hv & H).
  apply lift_inv_ok in Hv. destruct Hv as (Hv & ->).
  apply bind_inv_ok in H. destruct H as (k & m1 & Hk & H).
  apply parser_parse_inv_ok in Hk. destruct Hk as (text & -> & Hk & ->).
  assert (Hd : record_dtime Incidents r = Some k).
  { unfold record_dtime. cbn [key_of]. now rewrite Hv. }
  apply bind_inv_ok in H. destruct H as (sub & m1 & Hsub & H).
  assert (E1 : events m1 = events m) by (inversion Hsub; reflexivity).
  clear Hsub.
  apply bind_inv_ok in H. destruct H as (r1 & m2 & H1 & H).
  apply lift_inv_ok in H1. destruct H1 as (Hr1 & ->).
  destruct r as [ | | | | | kv]; try discriminate.
  cbn in Hr1. inversion Hr1; subst r1. clear Hr1.
  apply bind_inv_ok in H. destruct H as (id & m2 & H1 & H).
  apply lift_inv_ok in H1. destruct H1 as (_ & ->).
  apply bind_inv_ok in H. destruct H as (resp & m2 & Hl & H).
  apply bind_inv_ok in H. destruct H as (r2 & m3 & Hf & H).
  eapply (for_pages_paged
            (fun _ rec rec1 new1 =>
               new1 = []
               /\ ((exists l, rec = JObj (assoc_set "log_entries" (JArr l) kv)) ->
                   exists l, rec1 = JObj (assoc_set "log_entries" (JArr l) kv))))
    in Hf; [| | exact Hl].
  2:{ intros page acc m0 acc' m0' Hb. unfold extend_log_entries in Hb.
      apply lift_inv_ok in Hb. destruct Hb as (Hb & ->).
      exists []. rewrite app_nil_r. do 2 (split; [reflexivity |]).
      intros (l & ->). now apply extend_from_page_shape in Hb. }
  destruct Hf as (p1 & page1 & r1' & new1 & rest1 & E3 & (-> & Hs1) & Hpaged1).
  clear Hl. cbn [app] in E3.
  destruct (paged_log_entries_shape _ _ _ _ _ Hpaged1 (Hs1 (ex_intro _ [] eq_refl)))
    as (logs & ->).
  apply bind_inv_ok in H. destruct H as (r3 & m4 & H1 & H).
  apply lift_inv_ok in H1. destruct H1 as (Hr3 & ->).
  cbn in Hr3. inversion Hr3; subst r3. clear Hr3.
  apply bind_inv_ok in H. destruct H as (id2 & m4 & H1 & H).
  apply lift_inv_ok in H1. destruct H1 as (_ & ->).
  apply bind_inv_ok in H. destruct H as (resp2 & m4 & Hl & H).
  apply bind_inv_ok in H. destruct H as (acc & m5 & Hf & H).
  eapply (for_pages_paged (alerts_turn W k (JObj kv))) in Hf; [| | exact Hl].
  2:{ intros page a m0 a' m0' Hb. now apply extend_alerts_ok. }
  destruct Hf as (p2 & page2 & acc1 & new2 & rest2 & E5 & (T2 & Hen2 & D2) & Hpaged2).
  clear Hl. inversion H; subst run' m5. clear H.
  assert (Hen : enriched (JObj kv)
                  (JObj (assoc_set "alerts" (JArr [])
                           (assoc_set "log_entries" (JArr logs) kv))))
    by (now exists kv, logs, []).
  destruct (Hen2 Hen) as (Hen1 & Hw2).
  assert (T1 : top_records Incidents rest1 = []).
  { eapply paged_sub_resource; [apply incident_url_not_top | | exact Hpaged1].
    intros ? ? ? ? (-> & _). reflexivity. }
  assert (W1 : writes_of rest1 = []).
  { eapply paged_no_writes; [| exact Hpaged1]. intros ? ? ? ? (-> & _). reflexivity. }
  assert (T3 : top_records Incidents rest2 = []).
  { eapply paged_sub_resource; [apply incident_url_not_top | | exact Hpaged2].
    now intros ? ? ? ? (T & _). }
  destruct (paged_alerts_rest _ _ _ _ _ _ _ Hpaged2) as (Ht & Hf & Hw).
  exists (Get (incident_url id "log_entries") p1 (inr page1) :: rest1
          ++ Get (incident_url id2 "alerts") p2 (inr page2) :: new2 ++ rest2).
  split; [| split].
  - rewrite E5, E3, E1, <- !app_assoc. reflexivity.
  - change (Get ?u ?q ?x :: ?l) with ([Get u q x] ++ l).
    rewrite !top_records_app, T1.
    change (Get ?u ?q ?x :: ?l) with ([Get u q x] ++ l).
    rewrite !top_records_app, T2, T3. reflexivity.
  - change (Get ?u ?q ?x :: ?l) with ([Get u q x] ++ l).
    rewrite !writes_of_app, W1.
    change (Get ?u ?q ?x :: ?l) with ([Get u q x] ++ l).
    rewrite !writes_of_app. cbn [writes_of flat_map app].
    apply decided_record with (k := k); [exact Hd |].
    destruct D2 as [(Hp & Hne & E) | (Hp & -> & E)].
    + left. split; [exact Hp | split; [| split]].
      * intros Hnil. apply app_eq_nil in Hnil. now destruct Hnil.
      * apply Forall_app. split; [exact Hw2 | exact (Hw Hen1)].
      * cbn [snd] in E. f_equal.
        assert (Hs := Ht Hp _ E (update_bookmark_again run k)).
        congruence.
    + right. destruct (Hf Hp) as (Hw' & Hs). cbn [snd] in *.
      repeat split; auto. congruence.
Qed.

Lemma record_body_ok s fuel W : body_ok s W (record_body s fuel W).
Proof.
  destruct s; cbn [record_body].
  - apply incidents_record_ok.
  - apply notifications_record_ok.
  - apply oncalls_record_ok.
Qed.

(** *** The run as a whole *)

Lemma passes_spec W k :
  passes W k = true <-> W = None \/ exists w, W = Some w /\ w <= k.
Proof.
  destruct W as [w | ]; cbn.
  - rewrite Z.leb_le. split.
    + intros H. right. eauto.
    + intros [H | (w' & H & Hle)]; [discriminate | now inversion H; subst].
  - split; auto.
Qed.

Lemma update_bookmark_ge run k :
  k <= update_bookmark run k
  /\ forall b, run = Some b -> b <= update_bookmark run k.
Proof.
  destruct run as [b | ]; cbn; unfold py_max.
  - destruct (Z.ltb_spec b k); split; try lia; intros b' E; inversion E; lia.
  - split; [lia | discriminate].
Qed.

(** A bookmark that is set stays set and does not go down. *)
Lemma processed_monotone s W G rs ws run run' :
  processed s W G rs ws run run' ->
  forall b, run = Some b -> exists t, run' = Some t /\ b <= t.
Proof.
  induction 1 as [run | r rs ws run run' _ _ IH
                 | r rs g ws k run run' _ _ _ _ _ IH]; intros b Hb.
  - exists b. split; [exact Hb | lia].
  - now apply IH.
  - destruct (IH _ eq_refl) as (t & Ht & Hle). exists t. split; [exact Ht |].
    destruct (update_bookmark_ge run k) as (_ & Hge). specialize (Hge _ Hb). lia.
Qed.

(** The writes of a completed record loop, one group per record drawn. *)
Lemma processed_groups s W G rs ws run run' :
  processed s W G rs ws run run' ->
  exists groups,
    ws = concat groups
    /\ Forall2 (fun r g =>
                  (g <> [] <-> exists k, record_dtime s r = Some k
                                         /\ passes W k = true)
                  /\ (g <> [] -> G r g)
                  /\ (g <> [] ->
                      exists k t, record_dtime s r = Some k
                                  /\ run' = Some t /\ k <= t))
         rs groups.
Proof.
  induction 1 as [run | r rs ws run run' Hskip _ (groups & -> & IH)
                 | r rs g ws k run run' Hk Hp Hg HG Hrest (groups & -> & IH)].
  - exists []. split; [reflexivity | constructor].
  - exists ([] :: groups). split; [reflexivity |]. constructor; [| exact IH].
    split; [| split]; try (intros Hne; now destruct Hne).
    split; [intros Hne; now destruct Hne |].
    intros (k & Hk & Hp). rewrite (Hskip _ Hk) in Hp. discriminate.
  - exists (g :: groups). split; [reflexivity |]. constructor; [| exact IH].
    split; [| split]; auto.
    + split; eauto.
    + intros _.
      destruct (processed_monotone _ _ _ _ _ _ _ Hrest _ eq_refl) as (t & Ht & Hle).
      exists k, t. repeat split; auto.
      destruct (update_bookmark_ge run k) as (Hge & _). lia.
Qed.

(** Once something is written the running bookmark is set, and it is not
    below the watermark. *)
Lemma processed_running s W G rs ws run run' :
  processed s W G rs ws run run' ->
  (ws <> [] -> exists t, run' = Some t)
  /\ ((forall b w, run = Some b -> W = Some w -> w <= b) ->
      forall t w, run' = Some t -> W = Some w -> w <= t).
Proof.
  induction 1 as [run | r rs ws run run' _ _ (IH1 & IH2)
                 | r rs g ws k run run' Hk Hp Hg HG Hrest (IH1 & IH2)].
  - split; [intros H; now destruct H | auto].
  - split; auto.
  - split.
    + intros _.
      destruct (processed_monotone _ _ _ _ _ _ _ Hrest _ eq_refl) as (t & Ht & _).
      eauto.
    + intros Hrun. apply IH2. intros b w Hb Hw. inversion Hb; subst b.
      destruct (update_bookmark_ge run k) as (Hge & Hge').
      apply passes_spec in Hp. destruct Hp as [Hn | (w' & Hw' & Hle)]; [congruence |].
      assert (w' = w) by congruence. lia.
Qed.

Lemma processed_nothing s W G rs ws run run' :
  processed s W G rs ws run run' -> ws = [] -> run' = run.
Proof.
  induction 1 as [run | r rs ws run run' _ _ IH
                 | r rs g ws k run run' _ _ Hg _ _ _]; intros Hws; auto.
  apply app_eq_nil in Hws. now destruct Hws.
Qed.

Lemma processed_attained s W G rs ws run run' :
  processed s W G rs ws run run' ->
  forall t, run' = Some t ->
    run = Some t
    \/ exists r, In r rs /\ record_dtime s r = Some t /\ passes W t = true.
Proof.
  induction 1 as [run | r rs ws run run' _ _ IH
                 | r rs g ws k run run' Hk Hp _ _ _ IH]; intros t Ht.
  - now left.
  - destruct (IH t Ht) as [Hrun | (r0 & Hin & Hd & Hpass)]; [now left | right].
    exists r0. split; [now right | auto].
  - destruct (IH t Ht) as [Hrun | (r0 & Hin & Hd & Hpass)].
    + assert (Hu : update_bookmark run k = t) by congruence. clear Hrun.
      destruct run as [b | ]; cbn in Hu; unfold py_max in Hu.
      * revert Hu. destruct (b <? k); intros <-.
        -- right. exists r. split; [now left | auto].
        -- now left.
      * right. exists r. subst t. split; [now left | auto].
    + right. exists r0. split; [now right | auto].
Qed.

Lemma processed_bounds s W G rs ws run run' :
  processed s W G rs ws run run' ->
  forall t, run' = Some t ->
    forall r k, In r rs -> record_dtime s r = Some k -> passes W k = true ->
                k <= t.
Proof.
  induction 1 as [run | r rs ws run run' Hskip _ IH
                 | r rs g ws k run run' Hk Hp _ _ Hrest IH];
    intros t Ht r0 k0 Hin Hd Hpass.
  - destruct Hin.
  - destruct Hin as [<- | Hin]; [| eauto].
    rewrite (Hskip _ Hd) in Hpass. discriminate.
  - destruct Hin as [<- | Hin]; [| eauto].
    assert (k0 = k) by congruence. subst k0.
    destruct (processed_monotone _ _ _ _ _ _ _ Hrest _ eq_refl) as (t' & Ht' & Hle).
    destruct (update_bookmark_ge run k) as (Hge & _).
    assert (t' = t) by congruence. lia.
Qed.


(** C2. In a run of an incremental stream whose record part completes and
    writes at least one record, the end of [sync] stores a bookmark: the
    ISO text of an instant [t] that is not before the watermark read at
    the start of the run and not before the replication-key value of any
    record emitted during the run: of any record fetched that passes the
    bookmark test, and these are the records with a non-empty group of
    writes. *)
Theorem watermark_monotone s fuel self m running m1 new :
  sync_records s fuel self m = (Ok running, m1) ->
  events m1 = events m ++ new ->
  writes_of new <> [] ->
  exists t m',
    sync s fuel self m = (Ok tt, m')
    /\ running = Some t
    /\ bookmark s m' = Some (JStr (isoformat t))
    /\ (forall w, watermark s m = Some w -> w <= t)
    /\ (forall r k,
           In r (top_records s new) -> record_dtime s r = Some k ->
           passes (watermark s m) k = true -> k <= t)
    /\ exists groups,
         writes_of new = concat groups
         /\ Forall2 (fun r g =>
                       (g <> [] <->
                        exists k, record_dtime s r = Some k
                                  /\ passes (watermark s m) k = true)
                       /\ (g <> [] -> written_from s r g)
                       /\ (g <> [] ->
                           exists k, record_dtime s r = Some k /\ k <= t))
              (top_records s new) groups.
Proof.
  intros H E Hne.
  assert (Hsync := H).
  apply sync_records_ok in H; [| intros W; apply record_body_ok].
  destruct H as (new0 & E0 & P).
  rewrite E in E0. apply app_inv_head in E0. subst new0.
  destruct (processed_running _ _ _ _ _ _ _ P) as (Hset & Hge).
  destruct (Hset Hne) as (t & ->).
  exists t. eexists. split; [| split; [reflexivity | split; [| split; [| split]]]].
  - unfold sync. rewrite (bind_ok _ _ _ _ _ Hsync). reflexivity.
  - unfold bookmark. cbn [state]. rewrite lookup_insert_eq.
    cbn [default from_option id]. apply lookup_insert_eq.
  - intros w Hw. apply (Hge ltac:(discriminate) t w eq_refl Hw).
  - intros r k. apply (processed_bounds _ _ _ _ _ _ _ P t eq_refl).
  - apply processed_groups in P. destruct P as (groups & Hw & HF).
    exists groups. split; [exact Hw |].
    eapply Forall2_impl; [exact HF |].
    intros r g (Hiff & HG & Hk). split; [exact Hiff | split; [exact HG |]].
    intros Hg. destruct (Hk Hg) as (k & t' & Hd & Ht & Hle).
    exists k. split; [exact Hd |]. congruence.
Qed.

(** X1. A run of an incremental stream whose record part completes
    without a write ends in the [AttributeError] of [None.isoformat()]:
    the run is an error, and the bookmark store is as it was. *)
Lemma sync_without_writes s fuel self m running m1 new :
  sync_records s fuel self m = (Ok running, m1) ->
  events m1 = events m ++ new ->
  writes_of new = [] ->
  sync s fuel self m = (Raise AttributeError, m1) /\ state m1 = state m.
Proof.
  intros H E Hnil.
  assert (Hsync := H).
  apply sync_records_ok in H; [| intros W; apply record_body_ok].
  destruct H as (new0 & E0 & P).
  rewrite E in E0. apply app_inv_head in E0. subst new0.
  apply processed_nothing in P; [| exact Hnil]. subst running.
  split.
  - unfold sync. rewrite (bind_ok _ _ _ _ _ Hsync). reflexivity.
  - now destruct (extends_sync_records s fuel self _ _ _ Hsync).
Qed.

(** *** The window loop *)

Lemma window_count_more step since until_ :
  0 < step -> since < until_ ->
  window_count step since until_ = S (window_count step (since + step) until_).
Proof.
  intros Hstep Hlt. unfold window_count.
  replace (until_ - since + step - 1) with (until_ - since - 1 + 1 * step) by lia.
  replace (until_ - (since + step) + step - 1) with (until_ - since - 1) by lia.
  rewrite Z.div_add by lia.
  rewrite Z2Nat.inj_add by (try apply Z.div_pos; lia).
  cbn. lia.
Qed.

Lemma window_count_done step since until_ :
  0 < step -> until_ <= since -> window_count step since until_ = 0%nat.
Proof.
  intros Hstep Hle. unfold window_count.
  assert ((until_ - since + step - 1) / step <= 0); [| lia].
  apply Z.lt_succ_r. apply Z.div_lt_upper_bound; lia.
Qed.

Lemma window_starts_more step since n :
  map (window_start step since) (seq 0 (S n))
  = since :: map (window_start step (since + step)) (seq 0 n).
Proof.
  cbn [seq map]. f_equal.
  - unfold window_start. cbn. lia.
  - rewrite <- seq_shift, map_map. apply map_ext. intros k.
    unfold window_start. lia.
Qed.

Lemma window_loop_turns (turn : Z -> option Z -> M (option Z)) step until_ :
  0 < step ->
  forall turns since run m,
    (window_count step since until_ < turns)%nat ->
    window_loop turns turn step since until_ run m
    = turns_over turn
        (map (window_start step since) (seq 0 (window_count step since until_)))
        run m.
Proof.
  intros Hstep turns.
  induction turns as [ | turns IH]; intros since run m Hfuel; [lia |].
  cbn [window_loop]. destruct (Z.ltb_spec since until_) as [Hlt | Hge].
  - rewrite (window_count_more step since until_ Hstep Hlt) in *.
    rewrite window_starts_more. cbn [turns_over].
    unfold bind. destruct (turn since run m) as [[run1 | e |] m1]; try reflexivity.
    apply IH. lia.
  - rewrite (window_count_done step since until_ Hstep Hge). reflexivity.
Qed.

Lemma window_start_inside step since until_ k :
  0 < step ->
  (k < window_count step since until_)%nat ->
  window_start step since k < until_.
Proof.
  intros Hstep Hk. unfold window_count, window_start in *.
  set (q := (until_ - since + step - 1) / step) in *.
  assert (Hq : step * q <= until_ - since + step - 1)
    by (apply Z.mul_div_le; lia).
  assert (Z.of_nat k <= q - 1) by lia.
  nia.
Qed.

Lemma window_end_reaches step since until_ :
  0 < step ->
  until_ <= window_start step since (window_count step since until_).
Proof.
  intros Hstep. unfold window_count, window_start.
  set (q := (until_ - since + step - 1) / step).
  assert (Hq : until_ - since + step - 1 < step * Z.succ q)
    by (apply Z.mul_succ_div_gt; lia).
  destruct (Z.le_gt_cases 0 q) as [Hpos | Hneg].
  - rewrite Z2Nat.id by exact Hpos. nia.
  - replace (Z.to_nat q) with 0%nat by lia. cbn. nia.
Qed.

(** The window loop with a positive span [step] runs one turn per
    window and stops: the [k]-th window starts at [since + k * step], its
    [range] dict carries that start and the smaller of start + [step] and
    [until] (as ISO texts, where the texts order as the instants do).
    The windows are not empty, each but the last is [step] long and ends
    where the next one starts, the last one ends at [until]; when
    [since = until] there is no window and the loop does nothing. *)
Theorem window_plan step since until_ :
  0 < step ->
  let n := window_count step since until_ in
  let start := window_start step since in
  (forall turns turn run m,
      (n < turns)%nat ->
      window_loop turns turn step since until_ run m
      = turns_over turn (map start (seq 0 n)) run m)
  /\ start 0%nat = since
  /\ (forall k, start (S k) = start k + step)
  /\ (forall k, (k < n)%nat -> start k < Z.min (start k + step) until_)
  /\ (forall k, (S k < n)%nat -> Z.min (start k + step) until_ = start (S k))
  /\ (forall k, S k = n -> Z.min (start k + step) until_ = until_)
  /\ (since < until_ -> (0 < n)%nat)
  /\ (since = until_ ->
      n = 0%nat
      /\ forall turns turn run m,
           window_loop (S turns) turn step since until_ run m = (Ok run, m))
  /\ (forall k,
         (k < n)%nat ->
         py_min (isoformat (start k + step)) (isoformat until_)
         = isoformat (Z.min (start k + step) until_) ->
         window_range step (start k) until_
         = [("offset", JNum 0);
            ("since", JStr (isoformat (start k)));
            ("until", JStr (isoformat (Z.min (start k + step) until_)))]).
Proof.
  intros Hstep n start. subst n start.
  split; [| split; [| split; [| split; [| split; [| split; [| split; [| split]]]]]]].
  - intros turns turn run m Hfuel. now apply window_loop_turns.
  - unfold window_start. cbn. lia.
  - intros k. unfold window_start. lia.
  - intros k Hk. assert (H := window_start_inside step since until_ k Hstep Hk). lia.
  - intros k Hk.
    assert (H := window_start_inside step since until_ (S k) Hstep Hk).
    unfold window_start in *. lia.
  - intros k Hk.
    assert (H := window_end_reaches step since until_ Hstep). rewrite <- Hk in H.
    unfold window_start in *. lia.
  - intros Hlt. rewrite (window_count_more step since until_ Hstep Hlt). lia.
  - intros ->. split.
    + apply window_count_done; lia.
    + intros turns turn run m. cbn [window_loop]. now rewrite Z.ltb_irrefl.
  - intros k _ Htext. unfold window_range. now rewrite Htext.
Qed.

(** *** The page sequence, as the API sees it *)





(** *** The parameter dict shared by the two sub-resources of an incident *)

Lemma bind_assoc {A B C} (c : M A) (g : A -> M B) (k : B -> M C) m :
  bind c (fun x => bind (g x) k) m = bind (bind c g) k m.
Proof.
  unfold bind. destruct (c m) as [[a | e |] m1]; reflexivity.
Qed.

Lemma fold_pages_extend key kv pages :
  Forall (has_items key) pages ->
  forall l, exists l',
    fold_pages (extend_from_page key) pages (JObj (assoc_set key (JArr l) kv))
    = inr (JObj (assoc_set key (JArr l') kv)).
Proof.
  induction 1 as [ | page pages (v & items & Hv & Hitems) _ IH]; intros l; cbn.
  - eauto.
  - unfold extend_from_page at 1. rewrite Hv. unfold py_extend_item.
    cbn [py_item]. rewrite assoc_get_set_eq, Hitems. cbn [py_setitem].
    rewrite assoc_set_set. apply IH.
Qed.

(** The first request of a pagination is always in the events, with the
    parameters as the dict holds them at that moment. *)
Lemma list_resource_first {A} url pref (k : PagerdutyResponse -> M A) m res m' :
  (forall resp, extends (k resp)) ->
  bind (_list_resource url pref) k m = (res, m') ->
  exists reply rest,
    events m' = events m ++ Get url (default ∅ (heap m !! pref)) reply :: rest.
Proof.
  intros Hk H. unfold _list_resource, bind, _get, ret in H.
  destruct (fetch _ _ _) as [[e | page] a1].
  - inversion H; subst. cbn. now exists (inl e), [].
  - apply Hk in H. destruct H as (_ & rest & E). cbn in E.
    exists (inr page), rest. rewrite E, <- app_assoc. reflexivity.
Qed.

(** C10. For an incident record, the paginations of log entries and of
    alerts run on one parameter dict, made once for the record: when the
    log entries come in [k] pages, the first request for the alerts leaves
    with the offset [(k - 1) * 100] that the log entries left behind (0
    only when the log entries fit in one page). *)
Theorem alerts_offset_left_over fuel current kv text k running m
  logs_first logs_rest a1 res m' :
  let record := JObj kv in
  let id := default JNull (assoc_get "id" kv) in
  py_get record "created_at" = inr (JStr text) ->
  parse text = Some k ->
  chained logs_first logs_rest ->
  served (incident_url id "log_entries") substream_params 100 0 (api m)
    (logs_first :: logs_rest) a1 ->
  Forall (has_items "log_entries") (logs_first :: logs_rest) ->
  (length logs_rest + 1 < fuel)%nat ->
  incidents_record fuel current record running m = (res, m') ->
  exists reply rest,
    events m'
    = events m
      ++ page_requests (incident_url id "log_entries") substream_params 100 0
           (logs_first :: logs_rest)
      ++ Get (incident_url id "alerts")
           (<["offset" := JNum (Z.of_nat (length logs_rest) * 100)]> substream_params)
           reply
         :: rest.
Proof.
  intros record id Hkey Hparse Hch Hsv Hlogs Hfuel H.
  unfold incidents_record in H.
  erewrite bind_ok in H by (rewrite Hkey; reflexivity).
  erewrite bind_ok in H by (cbn [parser_parse]; rewrite Hparse; reflexivity).
  erewrite bind_ok in H by reflexivity.
  erewrite bind_ok in H by reflexivity.
  erewrite bind_ok in H by reflexivity.
  set (sub := fresh (dom (heap m))) in *.
  set (m1 := {| api := api m; events := events m;
                heap := <[sub := dict_update ∅ [("limit", JNum 100); ("offset", JNum 0);
                                                ("time_zone", JStr "UTC")]]> (heap m);
                counter := counter m; state := state m |}) in *.
  assert (Hid : default JNull (assoc_get "id" (assoc_set "log_entries" (JArr []) kv)) = id).
  { unfold id. now rewrite assoc_get_set_ne by discriminate. }
  rewrite Hid in H.
  destruct (fold_pages_extend "log_entries" kv _ Hlogs []) as (logs & Hfold).
  rewrite bind_assoc in H.
  unfold bind at 1 in H.
  unfold extend_log_entries in H.
  rewrite (list_pages_served (extend_from_page "log_entries")
             (incident_url id "log_entries") sub substream_params 100 0
             logs_first logs_rest
             (JObj (assoc_set "log_entries" (JArr []) kv))
             (JObj (assoc_set "log_entries" (JArr logs) kv)) m1 a1 fuel) in H;
    [| apply lookup_insert_eq | reflexivity | reflexivity | exact Hch
     | exact Hsv | exact Hfold | exact Hfuel].
  erewrite bind_ok in H by reflexivity.
  erewrite bind_ok in H by reflexivity.
  rewrite !assoc_get_set_ne in H by discriminate. fold id in H.
  apply list_resource_first in H.
  - destruct H as (reply & rest & E). cbn [events heap api] in E.
    rewrite lookup_insert_eq in E. cbn [default from_option id] in E.
    exists reply, rest. rewrite E, <- app_assoc. reflexivity.
  - intros resp. apply extends_bind; [| intros; apply extends_ret].
    apply extends_for_pages. intros. apply extends_extend_alerts.
Qed.

(** *** Construction of a stream *)

Lemma quiet_pure {A} (c : M A) :
  (forall m, exists r m', c m = (r, m') /\ events m' = events m /\ api m' = api m) ->
  quiet c.
Proof.
  intros Hc m r m' H. destruct (Hc m) as (r0 & m0 & E & He & Ha).
  rewrite E in H. inversion H; subst. auto.
Qed.

Lemma quiet_ret {A} (a : A) : quiet (ret a).
Proof. apply quiet_pure. intros m. now eexists _, _. Qed.

Lemma quiet_raise {A} e : quiet (@raise A e).
Proof. apply quiet_pure. intros m. now eexists _, _. Qed.

Lemma quiet_lift {A} (x : exn + A) : quiet (lift x).
Proof. destruct x; [apply quiet_raise | apply quiet_ret]. Qed.

Lemma quiet_read_dict r : quiet (read_dict r).
Proof. apply quiet_pure. intros m. now eexists _, _. Qed.

Lemma quiet_write_dict r d : quiet (write_dict r d).
Proof. apply quiet_pure. intros m. now eexists _, _. Qed.

Lemma quiet_new_dict d : quiet (new_dict d).
Proof. apply quiet_pure. intros m. now eexists _, _. Qed.

Lemma quiet_bind {A B} (c : M A) (k : A -> M B) :
  quiet c -> (forall a, quiet (k a)) -> quiet (bind c k).
Proof.
  intros Hc Hk m r m' H. unfold bind in H.
  destruct (c m) as [[a | e |] m1] eqn:E; destruct (Hc _ _ _ E) as (E1 & A1).
  - destruct (Hk a _ _ _ H) as (E2 & A2). split; congruence.
  - inversion H; subst. auto.
  - inversion H; subst. auto.
Qed.

Create HintDb quiet.

#[local] Hint Resolve quiet_ret quiet_raise quiet_lift quiet_read_dict
  quiet_write_dict quiet_new_dict : quiet.

Lemma quiet_check_overrides c keys : quiet (check_overrides c keys).
Proof.
  induction keys as [ | key keys IH]; cbn; [apply quiet_ret |].
  destruct (bool_decide _); [exact IH | apply quiet_raise].
Qed.

Lemma quiet_check_required c pref now required :
  quiet (check_required c pref now required).
Proof.
  induction required as [ | param rest IH]; cbn; [apply quiet_ret |].
  apply quiet_bind; [apply quiet_read_dict | intros p0].
  apply quiet_bind; [| intros _; exact IH].
  destruct (p0 !! param); [apply quiet_ret |].
  destruct (String.eqb param "until"); auto with quiet.
Qed.

Lemma quiet_init c config now : quiet (PagerdutyStream_init c config now).
Proof.
  unfold PagerdutyStream_init.
  do 7 (apply quiet_bind; [solve [auto with quiet] | intros ?]).
  apply quiet_bind.
  { match goal with |- quiet (match ?x with _ => _ end) => destruct x end;
      try apply quiet_ret;
      (apply quiet_bind; [apply quiet_lift | intros ?];
       apply quiet_bind; [apply quiet_check_overrides | intros ?];
       apply quiet_bind; [apply quiet_read_dict | intros ?];
       apply quiet_write_dict). }
  intros _. apply quiet_bind; [apply quiet_check_required | intros _].
  apply quiet_ret.
Qed.

Lemma check_overrides_rejects c keys key m :
  In key keys -> ~ In key (valid_params c) ->
  exists msg, check_overrides c keys m = (Raise (RuntimeError msg), m).
Proof.
  intros Hin Hbad. induction keys as [ | key0 keys IH]; [contradiction |].
  cbn. destruct (bool_decide_reflect (key0 ∈ valid_params c)) as [Hok | Hno].
  - destruct Hin as [-> | Hin]; [| now apply IH].
    apply list_elem_of_In in Hok. contradiction.
  - now eexists.
Qed.

Lemma check_required_defaults c pref now required :
  forall p m,
    heap m !! pref = Some p ->
    (forall param, In param required -> p !! param = None -> param = "until") ->
    check_required c pref now required m
    = (Ok tt,
       {| api := api m; events := events m;
          heap := <[pref := with_default_until required now p]> (heap m);
          counter := counter m; state := state m |}).
Proof.
  induction required as [ | param rest IH]; intros p m Hheap Hreq.
  - cbn. unfold ret, with_default_until.
    rewrite bool_decide_eq_false_2 by (intros H; inversion H).
    assert (Hsame : match p !! "until" with Some _ => p | None => p end = p)
      by (now destruct (p !! "until")).
    rewrite Hsame, insert_id by exact Hheap. now rewrite machine_eta.
  - cbn [check_required]. unfold bind at 1, read_dict. rewrite Hheap.
    cbn [default from_option id].
    destruct (p !! param) as [v | ] eqn:Hparam.
    + unfold bind at 1, ret at 1.
      rewrite (IH p m Hheap) by (intros q Hq; apply Hreq; now right).
      do 3 f_equal. unfold with_default_until.
      destruct (p !! "until") eqn:Hu; [reflexivity |].
      assert (param <> "until") by congruence.
      destruct (bool_decide_reflect ("until" ∈ rest)) as [Hin | Hout].
      * rewrite bool_decide_eq_true_2 by (now right). reflexivity.
      * rewrite bool_decide_eq_false_2; [reflexivity |].
        intros Hin. apply elem_of_cons in Hin. destruct Hin as [E | Hin]; auto.
    + assert (param = "until") as -> by (apply Hreq; [now left | exact Hparam]).
      cbn [String.eqb Ascii.eqb Bool.eqb]. unfold bind at 1, write_dict.
      cbn [dict_update fold_left fst snd].
      rewrite (IH (<["until" := JStr (isoformat now)]> p)).
      * cbn [api events heap counter state]. rewrite insert_insert_eq.
        do 3 f_equal. unfold with_default_until.
        rewrite lookup_insert_eq, Hparam.
        rewrite bool_decide_eq_true_2 by (now left). reflexivity.
      * cbn [heap]. apply lookup_insert_eq.
      * intros q Hq Hnone.
        destruct (String.eqb_spec q "until") as [E | Hne]; [exact E |].
        rewrite lookup_insert_ne in Hnone by congruence.
        apply Hreq; [now right | exact Hnone].
Qed.

Lemma check_required_rejects c pref now required :
  forall p m param,
    heap m !! pref = Some p ->
    In param required -> p !! param = None -> param <> "until" ->
    exists msg m', check_required c pref now required m
                   = (Raise (RuntimeError msg), m').
Proof.
  induction required as [ | param0 rest IH]; intros p m param Hheap Hin Hnone Hne;
    [contradiction |].
  cbn [check_required]. unfold bind at 1, read_dict. rewrite Hheap.
  cbn [default from_option id].
  destruct (p !! param0) as [v | ] eqn:Hparam0.
  - unfold bind at 1, ret at 1.
    destruct Hin as [-> | Hin]; [congruence |]. eapply IH; eauto.
  - destruct (String.eqb_spec param0 "until") as [-> | Hne0].
    + unfold bind at 1, write_dict. cbn [dict_update fold_left fst snd].
      destruct Hin as [<- | Hin]; [contradiction |].
      eapply (IH (<["until" := JStr (isoformat now)]> p)); eauto.
      * cbn [heap]. apply lookup_insert_eq.
      * now rewrite lookup_insert_ne by congruence.
    + unfold bind at 1, raise. eauto.
Qed.

Lemma check_overrides_accepts c keys m :
  (forall key, In key keys -> In key (valid_params c)) ->
  check_overrides c keys m = (Ok tt, m).
Proof.
  intros Hok. induction keys as [ | key keys IH]; [reflexivity |].
  cbn. rewrite bool_decide_eq_true_2.
  - apply IH. intros k Hk. apply Hok. now right.
  - apply list_elem_of_In. apply Hok. now left.
Qed.

(** [__init__] up to the loop over [required_params], when the overrides
    are accepted: the parameter dict is made and overridden. *)
Lemma init_overrides c cfg streams ov items now m :
  default (JObj []) (assoc_get "streams" cfg) = JObj streams ->
  default JNull (assoc_get (tap_stream_id c) streams) = ov ->
  (ov = JNull /\ items = [] \/ ov = JObj items) ->
  (forall key, In key (map fst items) -> In key (valid_params c)) ->
  let pref := fresh (dom (heap m)) in
  PagerdutyStream_init c (JObj cfg) now m
  = bind (check_required c pref now (required_params c))
      (fun _ => ret {| cls := c; config := JObj cfg;
                       token := default JNull (assoc_get "token" cfg);
                       email := default JNull (assoc_get "email" cfg);
                       params := pref |})
      {| api := api m; events := events m;
         heap := <[pref := params_after_overrides cfg items]> (heap m);
         counter := counter m; state := state m |}.
Proof.
  intros Hstreams Hov Hitems Hok pref. unfold PagerdutyStream_init.
  erewrite bind_ok by reflexivity.
  erewrite bind_ok by reflexivity.
  erewrite bind_ok by reflexivity.
  erewrite bind_ok by reflexivity.
  erewrite bind_ok by reflexivity.
  erewrite bind_ok by (cbn [py_get_default lift]; rewrite Hstreams; reflexivity).
  erewrite bind_ok by (cbn [py_get lift]; rewrite Hov; reflexivity).
  destruct Hitems as [(-> & ->) | ->].
  - erewrite bind_ok by reflexivity. reflexivity.
  - erewrite bind_ok; [reflexivity |].
    erewrite bind_ok by reflexivity.
    erewrite bind_ok by (now apply check_overrides_accepts).
    erewrite bind_ok by reflexivity.
    unfold write_dict. cbn [api events heap counter state].
    rewrite lookup_insert_eq, insert_insert_eq. reflexivity.
Qed.

(** Construction of a stream never calls the API, whatever its
    outcome.  It fails with the configuration error when the overrides of
    the stream name a parameter outside [valid_params]; with accepted
    overrides, a required parameter that is no key of the parameter dict
    after the overrides is set to the ISO text of the clock when it is
    [until], and is the configuration error otherwise.  ([since] always is
    a key of the dict: [__init__] stores the config's value, or [None].) *)
Theorem init_validates c cfg streams ov items now m :
  default (JObj []) (assoc_get "streams" cfg) = JObj streams ->
  default JNull (assoc_get (tap_stream_id c) streams) = ov ->
  (ov = JNull /\ items = [] \/ ov = JObj items) ->
  let init := PagerdutyStream_init c (JObj cfg) now in
  let after := params_after_overrides cfg items in
  quiet init
  /\ ((exists key, In key (map fst items) /\ ~ In key (valid_params c)) ->
      exists msg m', init m = (Raise (RuntimeError msg), m'))
  /\ ((forall key, In key (map fst items) -> In key (valid_params c)) ->
      ((forall param, In param (required_params c) ->
                      after !! param = None -> param = "until") ->
       exists self m',
         init m = (Ok self, m')
         /\ cls self = c
         /\ heap m' !! params self
            = Some (with_default_until (required_params c) now after))
      /\ (forall param,
             In param (required_params c) ->
             after !! param = None -> param <> "until" ->
             exists msg m', init m = (Raise (RuntimeError msg), m'))).
Proof.
  intros Hstreams Hov Hitems init after. subst init after.
  split; [apply quiet_init | split].
  - intros (key & Hin & Hbad).
    destruct Hitems as [(-> & ->) | ->]; [contradiction |].
    unfold PagerdutyStream_init.
    erewrite bind_ok by reflexivity.
    erewrite bind_ok by reflexivity.
    erewrite bind_ok by reflexivity.
    erewrite bind_ok by reflexivity.
    erewrite bind_ok by reflexivity.
    erewrite bind_ok by (cbn [py_get_default lift]; rewrite Hstreams; reflexivity).
    erewrite bind_ok by (cbn [py_get lift]; rewrite Hov; reflexivity).
    destruct (check_overrides_rejects c (map fst items) key
                {| api := api m; events := events m;
                   heap := <[fresh (dom (heap m)) :=
                               dict_update ∅
                                 [("limit", default (JNum 100) (assoc_get "limit" cfg));
                                  ("offset", JNum 0);
                                  ("since", default JNull (assoc_get "since" cfg));
                                  ("time_zone", JStr "UTC")]]> (heap m);
                   counter := counter m; state := state m |} Hin Hbad)
      as (msg & Hraise).
    eexists msg, _. erewrite bind_raise; [reflexivity |].
    erewrite bind_ok by reflexivity.
    erewrite bind_raise; [reflexivity | exact Hraise].
  - intros Hok. rewrite (init_overrides c cfg streams ov items now m) by auto.
    split.
    + intros Hreq. eexists _, _. split; [| split].
      * erewrite bind_ok; [reflexivity |].
        apply check_required_defaults; [apply lookup_insert_eq | exact Hreq].
      * reflexivity.
      * cbn [heap params]. apply lookup_insert_eq.
    + intros param Hin Hnone Hne.
      destruct (check_required_rejects c (fresh (dom (heap m))) now
                  (required_params c) (params_after_overrides cfg items)
                  {| api := api m; events := events m;
                     heap := <[fresh (dom (heap m)) :=
                                 params_after_overrides cfg items]> (heap m);
                     counter := counter m; state := state m |}
                  param (lookup_insert_eq _ _ _) Hin Hnone Hne)
        as (msg & m' & Hraise).
      exists msg, m'. erewrite bind_raise; [reflexivity | exact Hraise].
Qed.

Lemma dict_update_lookup_notin items : forall d k,
  ~ In k (map fst items) -> dict_update d items !! k = d !! k.
Proof.
  unfold dict_update.
  induction items as [ | [k0 v0] items IH]; intros d k Hk; cbn.
  - reflexivity.
  - rewrite IH by (intros H; apply Hk; now right).
    apply lookup_insert_ne. intros ->. apply Hk. now left.
Qed.

Lemma dict_update_keeps_keys items : forall d k,
  is_Some (d !! k) -> is_Some (dict_update d items !! k).
Proof.
  unfold dict_update.
  induction items as [ | [k0 v0] items IH]; intros d k Hk; cbn; [exact Hk |].
  apply IH. destruct (String.eqb_spec k0 k) as [-> | Hne].
  - rewrite lookup_insert_eq. now eexists.
  - now rewrite lookup_insert_ne.
Qed.

(** For the classes of [AVAILABLE_STREAMS] the configuration error of the
    loop over [required_params] is out of reach.  Their required
    parameters are [since] and [until]; [until] is defaulted, and [since]
    is a key of the parameter dict from the dict display of [__init__] on,
    with [config.get('since')] as its value: [None] for a config without
    [since].  So construction succeeds whenever the overrides are
    accepted. *)
Lemma required_check_out_of_reach c cfg streams ov items now m :
  In c AVAILABLE_STREAMS ->
  default (JObj []) (assoc_get "streams" cfg) = JObj streams ->
  default JNull (assoc_get (tap_stream_id c) streams) = ov ->
  (ov = JNull /\ items = [] \/ ov = JObj items) ->
  (forall key, In key (map fst items) -> In key (valid_params c)) ->
  exists self m',
    PagerdutyStream_init c (JObj cfg) now m = (Ok self, m')
    /\ heap m' !! params self
       = Some (with_default_until (required_params c) now
                 (params_after_overrides cfg items))
    /\ (~ In "since" (map fst items) ->
        params_after_overrides cfg items !! "since"
        = Some (default JNull (assoc_get "since" cfg))).
Proof.
  intros Hc Hstreams Hov Hitems Hok.
  rewrite (init_overrides c cfg streams ov items now m) by auto.
  eexists _, _. split; [| split].
  - erewrite bind_ok; [reflexivity |].
    apply check_required_defaults; [apply lookup_insert_eq |].
    intros param Hin Hnone.
    assert (Hreq : param = "since" \/ param = "until").
    { cbn in Hc.
      repeat (destruct Hc as [<- | Hc];
              [cbn in Hin; intuition congruence |]).
      contradiction. }
    destruct Hreq as [-> | ->]; [| reflexivity].
    destruct (dict_update_keeps_keys items
                (dict_update ∅
                   [("limit", default (JNum 100) (assoc_get "limit" cfg));
                    ("offset", JNum 0);
                    ("since", default JNull (assoc_get "since" cfg));
                    ("time_zone", JStr "UTC")]) "since") as (v & Hv).
    + now eexists.
    + unfold params_after_overrides in Hnone. congruence.
  - cbn [heap params]. apply lookup_insert_eq.
  - intros Hno. unfold params_after_overrides.
    now rewrite dict_update_lookup_notin.
Qed.

(** *** On-call records *)

(** C9. An on-call record whose [start] is absent (or null) is skipped:
    nothing is written and the running bookmark is as before.  A record
    with a non-empty [start] first gets the id [schedule.id + start + end];
    that record, with the id, is what the bookmark test decides on and what
    is transformed and written. *)
Theorem oncall_record_id current kv running m :
  let record := JObj kv in
  (assoc_get "start" kv = None \/ assoc_get "start" kv = Some JNull ->
   oncalls_record current record running m = (Ok running, m))
  /\ (forall schedule schedule_id start end_ k,
         assoc_get "schedule" kv = Some schedule ->
         py_item schedule "id" = inr (JStr schedule_id) ->
         assoc_get "start" kv = Some (JStr start) -> start <> "" ->
         assoc_get "end" kv = Some (JStr end_) ->
         parse start = Some k ->
         let new_id := String.append (String.append schedule_id start) end_ in
         let record' := JObj (assoc_set "id" (JStr new_id) kv) in
         synthesize_id record = inr record'
         /\ oncalls_record current record running m
            = if passes current k then
                match transform OncallsStream record' with
                | inr t =>
                    (Ok (Some (update_bookmark running k)),
                     {| api := api m;
                        events := events m ++ [WriteRecord "oncalls" t];
                        heap := heap m; counter := counter m + 1;
                        state := state m |})
                | inl e => (Raise e, m)
                end
              else (Ok running, m)).
Proof.
  intros record. subst record. split.
  - intros Habsent. unfold oncalls_record.
    erewrite bind_ok by reflexivity. cbn [py_get].
    now destruct Habsent as [-> | ->].
  - intros schedule schedule_id start end_ k Hsched Hsid Hstart Hne Hend Hparse
           new_id record'.
    assert (Hsyn : synthesize_id (JObj kv) = inr record').
    { unfold synthesize_id, and_then. cbn [py_item].
      rewrite Hsched, Hsid, Hstart, Hend. reflexivity. }
    split; [exact Hsyn |].
    unfold oncalls_record.
    erewrite bind_ok by reflexivity. cbn [py_get]. rewrite Hstart.
    cbn [default from_option id truthy].
    destruct (String.eqb_spec start "") as [E | _]; [contradiction |].
    cbn [negb].
    erewrite bind_ok by (rewrite Hsyn; reflexivity).
    erewrite bind_ok by reflexivity.
    subst record'. cbn [py_get]. rewrite assoc_get_set_ne by discriminate.
    rewrite Hstart. cbn [default from_option id parser_parse]. rewrite Hparse.
    erewrite bind_ok by reflexivity.
    destruct (passes current k); [| reflexivity].
    unfold emit.
    destruct (transform OncallsStream _) as [e | t].
    + erewrite bind_raise; [reflexivity |].
      erewrite bind_raise; reflexivity.
    + erewrite bind_ok; [reflexivity |].
      erewrite bind_ok by reflexivity.
      erewrite bind_ok by reflexivity. reflexivity.
Qed.

(** *** The retrying fetcher *)

Lemma is_fatal_code_spec status_code :
  is_fatal_code status_code = true
  <-> 400 <= status_code < 500 /\ status_code <> 429.
Proof using Type.
  unfold is_fatal_code.
  rewrite !andb_true_iff, negb_true_iff, Z.leb_le, Z.ltb_lt, Z.eqb_neq.
  split; intros [[H1 H2] H3]; repeat split; assumption.
Qed.

Lemma fibo_ordered n : 0 < fst (fibo n) <= snd (fibo n).
Proof.
  induction n as [ | n IH]; cbn; [lia |].
  destruct (fibo n) as [a b]. cbn in *. lia.
Qed.

Lemma fib_next n : fib (S (S n)) = fib n + fib (S n).
Proof. unfold fib. cbn. destruct (fibo n) as [a b]. reflexivity. Qed.

Lemma fib_mono n m : (n <= m)%nat -> 0 < fib n <= fib m.
Proof.
  intros Hle. split; [apply fibo_ordered |].
  induction Hle as [ | m _ IH]; [lia |].
  assert (H := fibo_ordered m). unfold fib in *. cbn.
  destruct (fibo m) as [a b]. cbn in *. lia.
Qed.

Lemma hd_app_cons {A} (d x : A) l l' : hd d (l ++ x :: l') = hd x l.
Proof. now destruct l. Qed.

Lemma hd_in_new {A} (x : A) l : In (hd x l) (l ++ [x]).
Proof. destruct l; cbn; auto. Qed.

Lemma get_once_attempts url p max_time start g w res w' :
  get_once url p w = (res, w') ->
  attempts_ok (fun _ => False) max_time start g w res w'.
Proof.
  unfold get_once. destruct (requests_get url p (net w)) as [r n1].
  intros H. inversion H; subst. clear H.
  exists [], (clock (net w), r), []. cbn.
  split; [reflexivity | split; [reflexivity | split; [constructor |]]].
  split; [reflexivity | split; [now rewrite app_nil_r | split; [reflexivity |]]].
  split; [intros i d Hi; destruct i; discriminate | contradiction].
Qed.

Lemma on_exception_attempts catches giveup max_time target Qt :
  (forall v n, 0 <= v -> 0 <= fst (uniform v n) <= v) ->
  (forall g w res w',
      target w = (res, w') -> res <> OutOfFuel ->
      attempts_ok Qt max_time (clock (net w)) g w res w') ->
  (forall r e, outcome_of r = Raise e -> catches e = true -> giveup e = false ->
               retryable r) ->
  forall fuel start j g w res w',
    (j <= g)%nat ->
    on_exception fuel catches giveup max_time target start (fib j) (fib (S j)) w
    = (res, w') ->
    res <> OutOfFuel ->
    attempts_ok
      (fun r => Qt r \/ exists e, outcome_of r = Raise e /\ catches e = true
                                  /\ giveup e = false)
      max_time start g w res w'.
Proof.
  intros Huniform Htarget Hretry fuel.
  induction fuel as [ | fuel IH]; intros start j g w res w' Hj H Hres;
    [cbn in H; inversion H; subst; now destruct Hres |].
  cbn [on_exception] in H.
  destruct (target w) as [rt w1] eqn:Ht.
  assert (Hpass : (rt, w1) = (res, w') ->
                  (forall e, rt = Raise e -> catches e = true -> giveup e = false ->
                             max_time <= clock (net w) - start) ->
                  attempts_ok
                    (fun r => Qt r \/ exists e, outcome_of r = Raise e
                                                /\ catches e = true
                                                /\ giveup e = false)
                    max_time start g w res w').
  { intros E Hlate. inversion E; subst rt w1. clear E.
    destruct (Htarget g _ _ _ Ht Hres)
      as (failed & last & ds & Hs & Hhd & Hf & Ho & Hsl & Hlen & Hb & HQ).
    exists failed, last, ds.
    do 7 (split; [assumption |]).
    assert (Hfirst : In (clock (net w)) (map fst (failed ++ [last]))).
    { rewrite <- Hhd. apply in_map. apply hd_in_new. }
    intros [Hq | (e & He & Hc & Hg)].
    - destruct (HQ Hq) as (t0 & t1 & [-> | H0] & H1 & Hle).
      + exists (clock (net w)), t1. auto.
      + exists t0, t1. auto.
    - exists start, (clock (net w)). split; [now left | split; [exact Hfirst |]].
      apply (Hlate e); auto. congruence. }
  destruct rt as [j0 | e | ]; [apply Hpass; auto; discriminate | | apply Hpass; auto; discriminate].
  destruct (catches e) eqn:Hc; [| apply Hpass; auto; intros e' E; inversion E; congruence].
  destruct (giveup e) eqn:Hg; cbn [orb] in H;
    [apply Hpass; auto; intros e' E; inversion E; congruence |].
  destruct (Z.leb_spec max_time (clock (net w) - start)) as [Hlate | Hearly];
    [apply Hpass; auto; intros e' E; inversion E; subst; auto |].
  clear Hpass.
  destruct (uniform (seconds (fib j)) (net w1)) as [x n2] eqn:Hu.
  assert (Hx : 0 <= x <= seconds (fib j)).
  { assert (Hr := Huniform (seconds (fib j)) (net w1)). rewrite Hu in Hr. cbn in Hr.
    apply Hr. assert (Hp := fib_mono j j (le_n j)). unfold seconds. lia. }
  destruct (Htarget g _ _ _ Ht ltac:(discriminate))
    as (failed & last & ds & Hs & Hhd & Hf & Ho & Hsl & Hlen & Hb & _).
  rewrite <- fib_next in H.
  apply (IH start (S j) (g + length ds + 1)%nat) in H; [| lia | exact Hres].
  destruct H as (failed' & last' & ds' & Hs' & _ & Hf' & Ho' & Hsl' & Hlen' & Hb' & HQ').
  cbn [net sent slept] in *.
  exists (failed ++ last :: failed'), last',
    (ds ++ Z.min x (max_time - (clock (net w) - start)) :: ds').
  split; [| split; [| split; [| split; [| split; [| split; [| split]]]]]].
  - rewrite Hs', Hs, <- !app_assoc. reflexivity.
  - rewrite hd_app_cons. exact Hhd.
  - apply Forall_app. split; [exact Hf |]. constructor; [| exact Hf'].
    apply (Hretry _ e); auto.
  - exact Ho'.
  - rewrite Hsl', Hsl, <- !app_assoc. reflexivity.
  - rewrite !length_app. cbn [length]. lia.
  - intros i d Hi.
    destruct (Nat.lt_ge_cases i (length ds)) as [Hlt | Hge].
    + rewrite lookup_app_l in Hi by exact Hlt. now apply Hb.
    + rewrite lookup_app_r in Hi by exact Hge.
      destruct (i - length ds)%nat as [ | i'] eqn:Ei; cbn in Hi.
      * inversion Hi; subst d. clear Hi.
        assert (Hm := fib_mono j (g + i) ltac:(lia)). unfold seconds in *. lia.
      * apply Hb' in Hi.
        replace (g + length ds + 1 + i')%nat with (g + i)%nat in Hi by lia.
        exact Hi.
  - intros Hq. destruct (HQ' Hq) as (t0 & t1 & H0 & H1 & Hle).
    exists t0, t1. split; [| split; [| exact Hle]].
    + destruct H0 as [-> | H0]; [now left | right].
      rewrite <- app_assoc, map_app. apply in_or_app. right. cbn. now right.
    + rewrite <- app_assoc, map_app. apply in_or_app. right. cbn. now right.
Qed.

Lemma decorated_attempts catches giveup max_time target Qt g w res w' fuel :
  (forall v n, 0 <= v -> 0 <= fst (uniform v n) <= v) ->
  (forall g w res w',
      target w = (res, w') -> res <> OutOfFuel ->
      attempts_ok Qt max_time (clock (net w)) g w res w') ->
  (forall r e, outcome_of r = Raise e -> catches e = true -> giveup e = false ->
               retryable r) ->
  decorated fuel catches giveup max_time target w = (res, w') ->
  res <> OutOfFuel ->
  attempts_ok
    (fun r => Qt r \/ exists e, outcome_of r = Raise e /\ catches e = true
                                /\ giveup e = false)
    max_time (clock (net w)) g w res w'.
Proof.
  intros Huniform Htarget Hretry H Hres. unfold decorated in H.
  apply (on_exception_attempts catches giveup max_time target Qt Huniform
           Htarget Hretry fuel (clock (net w)) 0%nat g w res w');
    [lia | exact H | exact Hres].
Qed.

Lemma outcome_of_raise r e :
  outcome_of r = Raise e ->
  match e with
  | ConnectionError => r = RefusedConnection
  | Timeout => r = TimedOut
  | HTTPError status_code =>
      exists body, r = Response status_code body /\ 400 <= status_code < 600
  | _ => True
  end.
Proof.
  destruct r as [ | | status_code body]; cbn.
  - intros E; inversion E; reflexivity.
  - intros E; inversion E; reflexivity.
  - destruct (Z.leb_spec 400 status_code) as [Hlo | Hlo];
      destruct (Z.ltb_spec status_code 600) as [Hhi | Hhi]; cbn;
      try (destruct body; intros E; inversion E; exact I).
    intros E; inversion E. exists body. split; [reflexivity | lia].
Qed.

Lemma network_retry r e :
  outcome_of r = Raise e -> is_network_error e = true -> false = false ->
  retryable r.
Proof.
  intros Ho He _. apply outcome_of_raise in Ho.
  destruct e; try discriminate; subst r; exact I.
Qed.

Lemma http_retry r e :
  outcome_of r = Raise e -> is_http_error e = true -> giveup_fatal e = false ->
  retryable r.
Proof.
  intros Ho He Hg. apply outcome_of_raise in Ho.
  destruct e as [ | status_code | | | | | | | | ]; try discriminate.
  destruct Ho as (body & -> & Hrange). cbn in *.
  destruct (is_fatal_code status_code) eqn:Hf; [discriminate |].
  assert (Hn : ~ (400 <= status_code < 500 /\ status_code <> 429)).
  { intros Hc. apply is_fatal_code_spec in Hc. congruence. }
  lia.
Qed.

Lemma retryable_is_retried r :
  retryable r ->
  ((False \/ exists e, outcome_of r = Raise e /\ is_network_error e = true
                       /\ false = false)
   \/ exists e, outcome_of r = Raise e /\ is_http_error e = true
                /\ giveup_fatal e = false).
Proof.
  destruct r as [ | | status_code body]; cbn.
  - intros _. left. right. now exists ConnectionError.
  - intros _. left. right. now exists Timeout.
  - intros Hr. right. exists (HTTPError status_code).
    assert (Hrange : (400 <=? status_code) && (status_code <? 600) = true).
    { apply andb_true_iff. rewrite Z.leb_le, Z.ltb_lt. lia. }
    rewrite Hrange. split; [reflexivity | split; [reflexivity |]]. cbn.
    destruct (is_fatal_code status_code) eqn:Hf; [| reflexivity].
    apply is_fatal_code_spec in Hf. lia.
Qed.

(** *** The pace of the retry loops *)

Lemma paced_network_retry call_start j round_start i t r d n attempts waits :
  r = RefusedConnection \/ r = TimedOut ->
  t - round_start < seconds 120 ->
  d = Z.min (fst (uniform (seconds (fib i)) n)) (seconds 120 - (t - round_start)) ->
  paced_list call_start j round_start (S i) attempts waits ->
  paced call_start j round_start i (t, r) attempts (d :: waits).
Proof.
  intros Hr Ht Hd Hrest. destruct attempts as [ | next rest]; [contradiction |].
  cbn [paced paced_list] in *. exists d, waits, n. split; [reflexivity |].
  destruct Hr as [-> | ->]; cbn [snd fst]; auto.
Qed.

Lemma response_not_caught status_code body :
  match outcome_of (Response status_code body) with
  | Raise e => is_network_error e = false
  | _ => True
  end.
Proof.
  cbn. destruct ((400 <=? status_code) && (status_code <? 600));
    [reflexivity | now destruct body].
Qed.

(** One run of the inner loop: the attempts it retried, and the one it
    ended on. *)
Lemma network_loop_paced url p start : forall fuel i w res w',
  on_exception fuel is_network_error (fun _ => false) (seconds 120)
    (get_once url p) start (fib i) (fib (S i)) w = (res, w') ->
  res <> OutOfFuel ->
  exists failed last ds,
    sent w' = sent w ++ failed ++ [last]
    /\ slept w' = slept w ++ ds
    /\ fst (hd last failed) = clock (net w)
    /\ res = outcome_of (snd last)
    /\ match snd last with
       | Response _ _ => True
       | _ => seconds 120 <= fst last - start
       end
    /\ forall call_start j rest waits,
         paced call_start j start (i + length failed) last rest waits ->
         paced_list call_start j start i (failed ++ last :: rest) (ds ++ waits).
Proof.
  induction fuel as [ | fuel IH]; intros i w res w' H Hres;
    [cbn in H; inversion H; subst; now destruct Hres |].
  cbn [on_exception] in H. unfold get_once in H at 1.
  destruct (requests_get url p (net w)) as [r n1] eqn:Hget.
  assert (Hend : res = outcome_of r ->
                 w' = {| net := n1; sent := sent w ++ [(clock (net w), r)];
                         slept := slept w |} ->
                 match r with
                 | Response _ _ => True
                 | _ => seconds 120 <= clock (net w) - start
                 end ->
                 exists failed last ds,
                   sent w' = sent w ++ failed ++ [last]
                   /\ slept w' = slept w ++ ds
                   /\ fst (hd last failed) = clock (net w)
                   /\ res = outcome_of (snd last)
                   /\ match snd last with
                      | Response _ _ => True
                      | _ => seconds 120 <= fst last - start
                      end
                   /\ forall call_start j rest waits,
                        paced call_start j start (i + length failed) last rest waits ->
                        paced_list call_start j start i (failed ++ last :: rest)
                          (ds ++ waits)).
  { intros -> -> Hlast. exists [], (clock (net w), r), []. cbn [sent slept app hd fst snd length].
    rewrite app_nil_r, Nat.add_0_r. repeat split; auto. }
  assert (Hretry :
            r = RefusedConnection \/ r = TimedOut ->
            clock (net w) - start < seconds 120 ->
            forall x n2,
              uniform (seconds (fib i)) n1 = (x, n2) ->
              on_exception fuel is_network_error (fun _ => false) (seconds 120)
                (get_once url p) start (fib (S i)) (fib i + fib (S i))
                {| net := sleep (Z.min x (seconds 120 - (clock (net w) - start))) n2;
                   sent := sent w ++ [(clock (net w), r)];
                   slept := slept w ++ [Z.min x (seconds 120 - (clock (net w) - start))] |}
              = (res, w') ->
              exists failed last ds,
                sent w' = sent w ++ failed ++ [last]
                /\ slept w' = slept w ++ ds
                /\ fst (hd last failed) = clock (net w)
                /\ res = outcome_of (snd last)
                /\ match snd last with
                   | Response _ _ => True
                   | _ => seconds 120 <= fst last - start
                   end
                /\ forall call_start j rest waits,
                     paced call_start j start (i + length failed) last rest waits ->
                     paced_list call_start j start i (failed ++ last :: rest)
                       (ds ++ waits)).
  { intros Hr Hearly x n2 Hu Hrec. rewrite <- fib_next in Hrec.
    apply IH in Hrec; [| exact Hres].
    destruct Hrec as (failed & last & ds & Hs & Hsl & _ & Ho & Hlast & Hk).
    cbn [net sent slept] in *.
    exists ((clock (net w), r) :: failed), last,
      (Z.min x (seconds 120 - (clock (net w) - start)) :: ds).
    split; [rewrite Hs, <- !app_assoc; reflexivity |].
    split; [rewrite Hsl, <- !app_assoc; reflexivity |].
    split; [reflexivity | split; [exact Ho | split; [exact Hlast |]]].
    intros call_start j rest waits Hp. cbn [app paced_list length].
    apply (paced_network_retry _ _ _ _ _ _ _ n1); auto.
    - now rewrite Hu.
    - apply Hk. cbn [length] in Hp. now rewrite Nat.add_succ_r in Hp. }
  destruct r as [ | | status_code body].
  - cbn [outcome_of is_network_error orb] in H.
    destruct (Z.leb_spec (seconds 120) (clock (net w) - start)) as [Hlate | Hearly].
    + apply Hend; [cbn; congruence | congruence | auto].
    + cbn [net sent slept] in H.
      destruct (uniform (seconds (fib i)) n1) as [x n2] eqn:Hu.
      eapply Hretry; eauto.
  - cbn [outcome_of is_network_error orb] in H.
    destruct (Z.leb_spec (seconds 120) (clock (net w) - start)) as [Hlate | Hearly].
    + apply Hend; [cbn; congruence | congruence | auto].
    + cbn [net sent slept] in H.
      destruct (uniform (seconds (fib i)) n1) as [x n2] eqn:Hu.
      eapply Hretry; eauto.
  - assert (Hc := response_not_caught status_code body).
    destruct (outcome_of (Response status_code body)) as [j0 | e | ] eqn:Ho.
    + apply Hend; [cbn; congruence | congruence | auto].
    + rewrite Hc in H. apply Hend; [cbn; congruence | congruence | auto].
    + apply Hend; [cbn; congruence | congruence | auto].
Qed.

(** The two loops together. *)
Lemma http_loop_paced url p fuel_in call_start : forall fuel j w res w',
  on_exception fuel is_http_error giveup_fatal (seconds 120)
    (decorated fuel_in is_network_error (fun _ => false) (seconds 120)
       (get_once url p))
    call_start (fib j) (fib (S j)) w = (res, w') ->
  res <> OutOfFuel ->
  exists first rest waits,
    sent w' = sent w ++ first :: rest
    /\ slept w' = slept w ++ waits
    /\ fst first = clock (net w)
    /\ paced call_start j (clock (net w)) 0 first rest waits.
Proof.
  induction fuel as [ | fuel IH]; intros j w res w' H Hres;
    [cbn in H; inversion H; subst; now destruct Hres |].
  cbn [on_exception] in H.
  destruct (decorated fuel_in is_network_error (fun _ => false) (seconds 120)
              (get_once url p) w) as [rt w1] eqn:Ht.
  assert (Hrt : rt <> OutOfFuel).
  { intros ->. inversion H. subst. now destruct Hres. }
  unfold decorated in Ht.
  apply (network_loop_paced url p (clock (net w)) fuel_in 0%nat) in Ht; [| exact Hrt].
  destruct Ht as (failed & last & ds & Hs & Hsl & Hhd & Ho & Hlast & Hk).
  assert (Hshape : forall rest waits,
             paced call_start j (clock (net w)) (length failed) last rest waits ->
             exists first rest0,
               failed ++ last :: rest = first :: rest0
               /\ fst first = clock (net w)
               /\ paced call_start j (clock (net w)) 0 first rest0 (ds ++ waits)).
  { intros rest waits Hp. apply (Hk call_start j rest waits) in Hp.
    destruct failed as [ | first failed]; cbn [app hd paced_list] in *; eauto. }
  assert (Hend : (rt, w1) = (res, w') ->
                 match snd last with
                 | Response status_code _ =>
                     500 <= status_code < 600 \/ status_code = 429 ->
                     seconds 120 <= clock (net w) - call_start
                 | _ => True
                 end ->
                 exists first rest waits,
                   sent w' = sent w ++ first :: rest
                   /\ slept w' = slept w ++ waits
                   /\ fst first = clock (net w)
                   /\ paced call_start j (clock (net w)) 0 first rest waits).
  { intros E Hfinal. inversion E; subst rt w1. clear E.
    destruct (Hshape [] []) as (first & rest0 & E & Hf & Hp).
    - cbn [paced]. split; [reflexivity |].
      destruct (snd last); auto.
    - exists first, rest0, (ds ++ []). rewrite <- E.
      split; [exact Hs | split; [now rewrite app_nil_r | split; assumption]]. }
  destruct rt as [j0 | e | ]; [| | now destruct Hrt].
  { apply Hend; [exact H |].
    destruct (snd last) as [ | | status_code body]; auto.
    intros Hr. cbn in Ho.
    destruct (Z.leb_spec 400 status_code), (Z.ltb_spec status_code 600);
      cbn in Ho; (discriminate || lia). }
  destruct (is_http_error e) eqn:Hc.
  2:{ apply Hend; [exact H |].
      destruct (snd last) as [ | | status_code body]; auto.
      intros Hr. cbn in Ho.
      destruct (Z.leb_spec 400 status_code), (Z.ltb_spec status_code 600);
        cbn in Ho; try lia.
      inversion Ho; subst e. discriminate. }
  assert (He := outcome_of_raise (snd last) e (eq_sym Ho)).
  destruct e as [ | status_code | | | | | | | | ]; try discriminate.
  destruct He as (body & Hr & Hrange).
  destruct (giveup_fatal (HTTPError status_code)) eqn:Hg; cbn [orb] in H.
  { apply Hend; [exact H |]. rewrite Hr. intros Hretry.
    cbn in Hg. apply is_fatal_code_spec in Hg. lia. }
  destruct (Z.leb_spec (seconds 120) (clock (net w) - call_start)) as [Hlate | Hearly].
  { apply Hend; [exact H |]. rewrite Hr. auto. }
  destruct (uniform (seconds (fib j)) (net w1)) as [x n2] eqn:Hu.
  rewrite <- fib_next in H.
  apply IH in H; [| exact Hres].
  destruct H as (first' & rest' & waits' & Hs' & Hsl' & Hf' & Hp').
  cbn [net sent slept] in *.
  destruct (Hshape (first' :: rest')
              (Z.min x (seconds 120 - (clock (net w) - call_start)) :: waits'))
    as (first & rest0 & E & Hf & Hp).
  - cbn [paced]. eexists _, _, (net w1). split; [reflexivity |].
    rewrite Hr. split; [| split; [exact Hearly | split]].
    + assert (Hretry := http_retry (snd last) (HTTPError status_code)
                          (eq_sym Ho) eq_refl Hg).
      rewrite Hr in Hretry. exact Hretry.
    + now rewrite Hu.
    + rewrite Hf'. exact Hp'.
  - exists first, rest0, (ds ++ Z.min x (seconds 120 - (clock (net w) - call_start))
                            :: waits').
    rewrite <- E.
    split; [rewrite Hs', Hs, <- !app_assoc; reflexivity |].
    split; [rewrite Hsl', Hsl, <- !app_assoc; reflexivity |].
    split; assumption.
Qed.

(** C6. The status codes [is_fatal_code] holds of are those in [400, 500)
    other than 429.  A call of [_get] that ends sends one request after the
    other: every request but the last came back with a connection error, a
    timeout, a 5xx or a 429, and was followed by exactly one wait; the
    last reply decides the result, its parsed JSON body when the status is
    no error.  So a reply with a fatal status is the last one: when it
    answers the first request, the call ends with that HTTP error after no
    retry and no wait, and a first reply without error status gives its
    body at once.
    The waits follow [backoff.fibo] with the jitter, once per retry loop
    ([paced]): the wait after a connection error or a timeout is a random
    part of the next Fibonacci number of seconds of the inner loop, whose
    sequence starts again with every attempt of the outer loop; the wait
    after a 5xx or a 429 is a random part of the next Fibonacci number of
    seconds of the outer loop; each is cut to what is left of the 120
    seconds of its loop, so the [i]-th wait of the call is no longer than
    the [i]-th Fibonacci number of seconds.
    The 120 seconds are a budget of each loop, not of the call: a loop
    retries the attempt that failed when less than 120 seconds had passed
    since the loop began when that attempt began (for the outer loop an
    attempt is a run of the inner loop), and a reply that would be retried
    ends the call only when its loop is 120 seconds or more from its
    start. *)
Theorem fetcher_policy fuel url p w res w' :
  (forall v n, 0 <= v -> 0 <= fst (uniform v n) <= v) ->
  get_retrying fuel url p w = (res, w') ->
  res <> OutOfFuel ->
  (forall status_code,
      is_fatal_code status_code = true
      <-> 400 <= status_code < 500 /\ status_code <> 429)
  /\ (exists failed last ds,
         sent w' = sent w ++ failed ++ [last]
         /\ Forall (fun tr => retryable (snd tr)) failed
         /\ res = outcome_of (snd last)
         /\ slept w' = slept w ++ ds
         /\ length ds = length failed
         /\ paced_list (clock (net w)) 0 (clock (net w)) 0 (failed ++ [last]) ds
         /\ (forall i d, ds !! i = Some d -> 0 <= d <= seconds (fib i))
         /\ (forall status_code body,
                snd (hd last failed) = Response status_code body ->
                is_fatal_code status_code = true ->
                failed = [] /\ ds = [] /\ res = Raise (HTTPError status_code))
         /\ (forall status_code j,
                snd last = Response status_code (Some j) ->
                ~ 400 <= status_code < 600 -> res = Ok j)
         /\ (retryable (snd last) ->
             exists t0 t1,
               In t0 (map fst (failed ++ [last]))
               /\ In t1 (map fst (failed ++ [last]))
               /\ seconds 120 <= t1 - t0))
  /\ (forall catches giveup target start a b w0 e w1 fuel0,
         target w0 = (Raise e, w1) ->
         seconds 120 <= clock (net w0) - start ->
         on_exception (S fuel0) catches giveup (seconds 120) target start a b w0
         = (Raise e, w1))
  /\ (forall fuel0 w0 status_code body n1,
         requests_get url p (net w0) = (Response status_code body, n1) ->
         is_fatal_code status_code = true ->
         get_retrying (S fuel0) url p w0
         = (Raise (HTTPError status_code),
            {| net := n1;
               sent := sent w0 ++ [(clock (net w0), Response status_code body)];
               slept := slept w0 |}))
  /\ (forall fuel0 w0 status_code j n1,
         requests_get url p (net w0) = (Response status_code (Some j), n1) ->
         ~ 400 <= status_code < 600 ->
         get_retrying (S fuel0) url p w0
         = (Ok j,
            {| net := n1;
               sent := sent w0 ++ [(clock (net w0), Response status_code (Some j))];
               slept := slept w0 |})).
Proof.
  intros Huniform H Hres.
  split; [exact is_fatal_code_spec | split; [| split; [| split]]].
  - assert (Hpace := H). unfold get_retrying, decorated in Hpace.
    apply (http_loop_paced url p fuel (clock (net w)) fuel 0%nat) in Hpace;
      [| exact Hres].
    destruct Hpace as (attempt0 & rest0 & waits0 & Hs0 & Hsl0 & _ & Hpaced).
    unfold get_retrying in H.
    apply (decorated_attempts is_http_error giveup_fatal (seconds 120) _
             (fun r => False \/ exists e, outcome_of r = Raise e
                                          /\ is_network_error e = true
                                          /\ false = false)
             0%nat) in H; auto.
    + destruct H as (failed & last & ds & Hs & Hhd & Hf & Ho & Hsl & Hlen & Hb & HQ).
      exists failed, last, ds.
      do 5 (split; [assumption |]).
      split; [| split; [exact Hb | split; [| split]]].
      * rewrite Hs in Hs0. apply app_inv_head in Hs0.
        rewrite Hsl in Hsl0. apply app_inv_head in Hsl0.
        rewrite Hs0, Hsl0. exact Hpaced.
      * intros status_code body Hfirst Hfatal.
        assert (Hnot : ~ retryable (Response status_code body)).
        { cbn. apply is_fatal_code_spec in Hfatal. lia. }
        destruct failed as [ | first failed]; cbn in Hfirst.
        -- destruct ds; [| discriminate]. rewrite Ho, Hfirst. cbn.
           apply is_fatal_code_spec in Hfatal.
           assert (Hrange : (400 <=? status_code) && (status_code <? 600) = true).
           { apply andb_true_iff. rewrite Z.leb_le, Z.ltb_lt. lia. }
           now rewrite Hrange.
        -- inversion Hf as [ | ? ? Hr _]; subst. rewrite Hfirst in Hr.
           contradiction.
      * intros status_code j Hlast Hgood. rewrite Ho, Hlast. cbn.
        destruct (Z.leb_spec 400 status_code), (Z.ltb_spec status_code 600);
          (reflexivity || lia).
      * intros Hr. apply retryable_is_retried in Hr.
        destruct (HQ Hr) as (t0 & t1 & H0 & H1 & Hle).
        exists t0, t1. split; [| auto].
        destruct H0 as [-> | H0]; [| exact H0].
        rewrite <- Hhd. apply in_map. apply hd_in_new.
    + intros g w0 res0 w0' H0 Hres0.
      apply (decorated_attempts is_network_error (fun _ => false) (seconds 120)
               (get_once url p) (fun _ => False) g w0 res0 w0' fuel); auto.
      * intros g1 w1 res1 w1' H1 _. now apply get_once_attempts with (url := url) (p := p).
      * exact network_retry.
    + exact http_retry.
  - intros catches giveup target start a b w0 e w1 fuel0 Ht Hlate.
    cbn [on_exception]. rewrite Ht.
    destruct (catches e); [| reflexivity].
    destruct (Z.leb_spec (seconds 120) (clock (net w0) - start)); [| lia].
    now rewrite orb_true_r.
  - intros fuel0 w0 status_code body n1 Hget Hfatal.
    unfold get_retrying, decorated. cbn [on_exception]. unfold get_once.
    rewrite Hget. cbn [outcome_of].
    assert (Hrange : (400 <=? status_code) && (status_code <? 600) = true).
    { apply is_fatal_code_spec in Hfatal. apply andb_true_iff.
      rewrite Z.leb_le, Z.ltb_lt. lia. }
    rewrite Hrange. cbn [is_network_error is_http_error giveup_fatal].
    rewrite Hfatal. reflexivity.
  - intros fuel0 w0 status_code j n1 Hget Hgood.
    unfold get_retrying, decorated. cbn [on_exception]. unfold get_once.
    rewrite Hget. cbn [outcome_of].
    assert (Hrange : (400 <=? status_code) && (status_code <? 600) = false).
    { apply andb_false_iff. rewrite Z.leb_gt, Z.ltb_ge. lia. }
    rewrite Hrange. reflexivity.
Qed.

(** *** One write per record, outside the incidents *)

Lemma page_records_app id evs1 evs2 :
  page_records id (evs1 ++ evs2) = page_records id evs1 ++ page_records id evs2.
Proof. apply flat_map_app. Qed.

Lemma emit_records_ok c id rs : forall u m u' m',
  for_records (fun record _ => emit c record) rs u m = (Ok u', m') ->
  exists new, events m' = events m ++ new
              /\ page_records id new = []
              /\ Forall2 (fun r t => transform c r = inr t) rs (writes_of new).
Proof.
  induction rs as [ | r rs IH]; intros u m u' m' H; cbn in H.
  - inversion H; subst. exists []. rewrite app_nil_r. repeat split. constructor.
  - apply bind_inv_ok in H. destruct H as (u1 & m1 & He & H).
    apply emit_inv_ok in He. destruct He as (t & Ht & E1).
    apply IH in H. destruct H as (new & E2 & P2 & F2).
    exists (WriteRecord (stream c) t :: new). split; [| split].
    + rewrite E2, E1, <- app_assoc. reflexivity.
    + exact P2.
    + cbn. constructor; assumption.
Qed.

(** In a completed run of a FULL_TABLE stream every record of every page
    fetched is written exactly once, transformed, in the order fetched. *)
Lemma full_table_writes_once fuel self m u m' :
  full_table_sync fuel self m = (Ok u, m') ->
  exists new,
    events m' = events m ++ new
    /\ Forall2 (fun r t => transform (cls self) r = inr t)
         (page_records (tap_stream_id (cls self)) new) (writes_of new).
Proof.
  intros H. unfold full_table_sync in H.
  apply bind_inv_ok in H. destruct H as (resp & m1 & Hl & H).
  set (id := tap_stream_id (cls self)) in *.
  set (R := fun (page : json) (_ _ : unit) (new1 : list event) =>
              page_records id new1 = []
              /\ Forall2 (fun r t => transform (cls self) r = inr t)
                   (records_of id page) (writes_of new1)).
  eapply (for_pages_paged R) in H; [| | exact Hl].
  2:{ intros page acc m0 acc' m0' Hb. unfold for_records_of in Hb.
      apply bind_inv_ok in Hb. destruct Hb as (v & m2 & Hv & Hb).
      apply lift_inv_ok in Hv. destruct Hv as (Hv & ->).
      apply bind_inv_ok in Hb. destruct Hb as (records & m2 & Hr & Hb).
      apply lift_inv_ok in Hr. destruct Hr as (Hr & ->).
      apply (emit_records_ok (cls self) id) in Hb.
      destruct Hb as (new & E & P & F). exists new. split; [exact E |].
      unfold R, records_of. fold id. rewrite Hv, Hr. now split. }
  destruct H as (p & page & acc1 & new1 & rest & E & (P1 & F1) & Hpaged).
  assert (Hrest : Forall2 (fun r t => transform (cls self) r = inr t)
                    (page_records id rest) (writes_of rest)).
  { clear E. induction Hpaged as [acc | acc q page' acc2 new2 rest' acc' (P2 & F2) _ IH].
    - constructor.
    - change (Get ?a ?b ?c :: ?l) with ([Get a b c] ++ l).
      rewrite !page_records_app, !writes_of_app, P2. cbn [page_records writes_of flat_map app].
      rewrite app_nil_r. apply Forall2_app; assumption. }
  eexists. split; [exact E |].
  change (Get ?a ?b ?c :: ?l) with ([Get a b c] ++ l).
  rewrite !page_records_app, !writes_of_app, P1. cbn [page_records writes_of flat_map app].
  rewrite app_nil_r. apply Forall2_app; assumption.
Qed.

(** In a completed run of the notifications or of the on-calls, each
    record that passes is written exactly once. *)
Lemma siblings_write_once s fuel self m running m' :
  s <> Incidents ->
  sync_records s fuel self m = (Ok running, m') ->
  exists new groups,
    events m' = events m ++ new
    /\ writes_of new = concat groups
    /\ Forall2 (fun r g => g <> [] -> length g = 1%nat)
         (top_records s new) groups.
Proof.
  intros Hs H.
  apply sync_records_ok in H; [| intros W; apply record_body_ok].
  destruct H as (new & E & P).
  apply processed_groups in P. destruct P as (groups & Hw & HF).
  exists new, groups. split; [exact E | split; [exact Hw |]].
  eapply Forall2_impl; [exact HF |].
  intros r g (_ & HG & _) Hg. specialize (HG Hg).
  destruct s; [contradiction | |].
  - destruct HG as (t & _ & ->). reflexivity.
  - destruct HG as (r' & t & _ & _ & ->). reflexivity.
Qed.

(** *** The books of a run *)

Lemma accounted_pure {A} P (c : M A) :
  (forall m, exists r m', c m = (r, m') /\ events m' = events m
                          /\ counter m' = counter m) ->
  accounted P c.
Proof.
  intros Hc m r m' H. destruct (Hc m) as (r0 & m0 & E & He & Hn).
  rewrite E in H. inversion H; subst. exists [].
  rewrite app_nil_r. cbn. split; [exact He | split; [constructor | lia]].
Qed.

Lemma accounted_ret {A} P (a : A) : accounted P (ret a).
Proof. apply accounted_pure. intros m. now eexists _, _. Qed.

Lemma accounted_raise {A} P e : accounted P (@raise A e).
Proof. apply accounted_pure. intros m. now eexists _, _. Qed.

Lemma accounted_out_of_fuel {A} P : accounted P (@out_of_fuel A).
Proof. apply accounted_pure. intros m. now eexists _, _. Qed.

Lemma accounted_lift {A} P (x : exn + A) : accounted P (lift x).
Proof. destruct x; [apply accounted_raise | apply accounted_ret]. Qed.

Lemma accounted_read_dict P r : accounted P (read_dict r).
Proof. apply accounted_pure. intros m. now eexists _, _. Qed.

Lemma accounted_write_dict P r d : accounted P (write_dict r d).
Proof. apply accounted_pure. intros m. now eexists _, _. Qed.

Lemma accounted_new_dict P d : accounted P (new_dict d).
Proof. apply accounted_pure. intros m. now eexists _, _. Qed.

Lemma accounted_get_bookmark P id key : accounted P (get_bookmark id key).
Proof. apply accounted_pure. intros m. now eexists _, _. Qed.

Lemma accounted_parser_parse P v : accounted P (parser_parse v).
Proof.
  unfold parser_parse. destruct v; try apply accounted_raise.
  destruct (parse s); [apply accounted_ret | apply accounted_raise].
Qed.

(** Sequencing, with what is known of the value handed over. *)
Lemma accounted_bind_post {A B} P (Q : A -> Prop) (c : M A) (k : A -> M B) :
  (forall m a m', c m = (Ok a, m') -> Q a) ->
  accounted P c -> (forall a, Q a -> accounted P (k a)) ->
  accounted P (bind c k).
Proof.
  intros HQ Hc Hk m r m' H. unfold bind in H.
  destruct (c m) as [[a | e |] m1] eqn:E; destruct (Hc _ _ _ E) as (n1 & E1 & F1 & C1).
  - destruct (Hk a (HQ _ _ _ E) _ _ _ H) as (n2 & E2 & F2 & C2).
    exists (n1 ++ n2). rewrite E2, E1, app_assoc. split; [reflexivity | split].
    + apply Forall_app; auto.
    + rewrite writes_of_app, length_app. lia.
  - inversion H; subst. eauto.
  - inversion H; subst. eauto.
Qed.

Lemma accounted_bind {A B} P (c : M A) (k : A -> M B) :
  accounted P c -> (forall a, accounted P (k a)) -> accounted P (bind c k).
Proof.
  intros Hc Hk. apply (accounted_bind_post P (fun _ => True)); auto.
Qed.

Lemma accounted_get P url pref :
  (forall p reply, P (Get url p reply)) -> accounted P (_get url pref).
Proof.
  intros HP m r m' H. unfold _get in H.
  destruct (fetch _ _ _) as [[e | j] a']; inversion H; subst; cbn;
    (eexists; split; [reflexivity | split; [repeat constructor; apply HP | cbn; lia]]).
Qed.

Lemma accounted_emit P c r :
  (forall t, P (WriteRecord (stream c) t)) -> accounted P (emit c r).
Proof.
  intros HP m x m' H.
  unfold emit, bind, lift, raise, ret, write_record, counter_increment in H.
  destruct (transform c r) as [e | t]; cbn in H; inversion H; subst; cbn.
  - exists []. rewrite app_nil_r. cbn. split; [reflexivity | split; [constructor | lia]].
  - exists [WriteRecord (stream c) t]. cbn.
    split; [reflexivity | split; [repeat constructor; apply HP | lia]].
Qed.

Create HintDb accounted.

#[local] Hint Resolve accounted_ret accounted_raise accounted_out_of_fuel
  accounted_lift accounted_read_dict accounted_write_dict accounted_new_dict
  accounted_get_bookmark accounted_parser_parse : accounted.

Lemma accounted_list_resource P url pref :
  (forall p reply, P (Get url p reply)) -> accounted P (_list_resource url pref).
Proof.
  intros HP. unfold _list_resource.
  apply accounted_bind; [now apply accounted_get | intros; apply accounted_ret].
Qed.

Lemma list_resource_url url pref m resp m' :
  _list_resource url pref m = (Ok resp, m') -> url_suffix resp = url.
Proof.
  unfold _list_resource. intros H.
  apply bind_inv_ok in H. destruct H as (j & m1 & _ & H).
  inversion H. reflexivity.
Qed.

Lemma next_keeps_url it m page m' :
  PagerdutyResponse_next it m = (Ok (Some page), m') ->
  url_suffix page = url_suffix it.
Proof.
  unfold PagerdutyResponse_next. destruct (_iteration it + 1 =? 1).
  - intros H. inversion H. reflexivity.
  - intros H. apply bind_inv_ok in H. destruct H as (more & m1 & _ & H).
    destruct more as [ | [ | ] | | | | ]; try (inversion H; fail).
    do 6 (apply bind_inv_ok in H; destruct H as (? & ? & _ & H)).
    inversion H. reflexivity.
Qed.

Lemma accounted_next P it :
  (forall p reply, P (Get (url_suffix it) p reply)) ->
  accounted P (PagerdutyResponse_next it).
Proof.
  intros HP. unfold PagerdutyResponse_next.
  destruct (_iteration it + 1 =? 1); [apply accounted_ret |].
  apply accounted_bind; [apply accounted_lift | intros more].
  destruct more as [ | [ | ] | | | | ]; try apply accounted_ret.
  do 5 (apply accounted_bind; [solve [auto with accounted] | intros ?]).
  apply accounted_bind; [now apply accounted_get | intros; apply accounted_ret].
Qed.

Lemma accounted_next_pages {A} P url (body : PagerdutyResponse -> A -> M A) :
  (forall p reply, P (Get url p reply)) ->
  (forall page acc, accounted P (body page acc)) ->
  forall fuel it acc,
    url_suffix it = url -> accounted P (next_pages fuel body it acc).
Proof.
  intros HP Hbody fuel. induction fuel as [ | fuel IH]; intros it acc Hurl; cbn.
  - apply accounted_out_of_fuel.
  - apply (accounted_bind_post P
             (fun nx => forall page, nx = Some page -> url_suffix page = url)).
    + intros m nx m' H page ->. rewrite <- Hurl. eapply next_keeps_url; eauto.
    + apply accounted_next. rewrite Hurl. exact HP.
    + intros [page | ] Hq.
      * apply accounted_bind; [apply Hbody | intros acc']. apply IH. now apply Hq.
      * apply accounted_ret.
Qed.

(** A pagination from its first request on. *)
Lemma accounted_pagination {A B} P url pref fuel
  (body : PagerdutyResponse -> A -> M A) acc (k : A -> M B) :
  (forall p reply, P (Get url p reply)) ->
  (forall page acc, accounted P (body page acc)) ->
  (forall a, accounted P (k a)) ->
  accounted P (bind (_list_resource url pref)
                 (fun resp => bind (for_pages fuel body resp acc) k)).
Proof.
  intros HP Hbody Hk.
  apply (accounted_bind_post P (fun resp => url_suffix resp = url)).
  - intros m resp m' H. eapply list_resource_url; eauto.
  - now apply accounted_list_resource.
  - intros resp Hurl. apply accounted_bind; [| exact Hk].
    unfold for_pages. now apply (accounted_next_pages P url).
Qed.

Lemma accounted_paging {A} P url pref fuel
  (body : PagerdutyResponse -> A -> M A) acc :
  (forall p reply, P (Get url p reply)) ->
  (forall page acc, accounted P (body page acc)) ->
  accounted P (bind (_list_resource url pref)
                 (fun resp => for_pages fuel body resp acc)).
Proof.
  intros HP Hbody.
  apply (accounted_bind_post P (fun resp => url_suffix resp = url)).
  - intros m resp m' H. eapply list_resource_url; eauto.
  - now apply accounted_list_resource.
  - intros resp Hurl. unfold for_pages. now apply (accounted_next_pages P url).
Qed.

Lemma accounted_for_records {A} P (body : json -> A -> M A) :
  (forall r acc, accounted P (body r acc)) ->
  forall rs acc, accounted P (for_records body rs acc).
Proof.
  intros Hbody rs. induction rs as [ | r rs IH]; intros acc; cbn.
  - apply accounted_ret.
  - apply accounted_bind; [apply Hbody | intros acc']. apply IH.
Qed.

Lemma accounted_for_records_of {A} P key (body : json -> A -> M A) page acc :
  (forall r acc, accounted P (body r acc)) ->
  accounted P (for_records_of key body page acc).
Proof.
  intros Hbody. unfold for_records_of.
  do 2 (apply accounted_bind; [apply accounted_lift | intros ?]).
  now apply accounted_for_records.
Qed.

Lemma accounted_record_body s fuel current r run :
  accounted (stream_event s) (record_body s fuel current r run).
Proof.
  destruct s; cbn [record_body].
  - unfold incidents_record.
    do 5 (apply accounted_bind; [solve [auto with accounted] | intros ?]).
    apply accounted_pagination.
    { intros p reply. right. split; [reflexivity |]. eexists _, _. eauto. }
    { intros. apply accounted_lift. }
    intros ?.
    do 2 (apply accounted_bind; [solve [auto with accounted] | intros ?]).
    apply accounted_pagination.
    { intros p reply. right. split; [reflexivity |]. eexists _, _. eauto. }
    { intros page acc. unfold extend_alerts.
      apply accounted_bind; [apply accounted_lift | intros ?].
      destruct (passes _ _); [| apply accounted_ret].
      apply accounted_bind; [| intros; apply accounted_ret].
      apply accounted_emit. reflexivity. }
    intros ?. apply accounted_ret.
  - unfold notifications_record.
    do 2 (apply accounted_bind; [solve [auto with accounted] | intros ?]).
    destruct (passes _ _); [| apply accounted_ret].
    apply accounted_bind; [| intros; apply accounted_ret].
    apply accounted_emit. reflexivity.
  - unfold oncalls_record.
    apply accounted_bind; [solve [auto with accounted] | intros ?].
    destruct (negb _); [apply accounted_ret |].
    do 3 (apply accounted_bind; [solve [auto with accounted] | intros ?]).
    destruct (passes _ _); [| apply accounted_ret].
    apply accounted_bind; [| intros; apply accounted_ret].
    apply accounted_emit. reflexivity.
Qed.

Lemma accounted_sync_window s fuel self current since_dtime until_dtime run :
  accounted (stream_event s)
    (sync_window s fuel self current since_dtime until_dtime run).
Proof.
  unfold sync_window.
  do 2 (apply accounted_bind; [solve [auto with accounted] | intros ?]).
  apply accounted_paging; [intros; now left |].
  intros. apply accounted_for_records_of. intros. apply accounted_record_body.
Qed.

Lemma accounted_window_loop P (turn : Z -> option Z -> M (option Z)) step until_dtime :
  (forall since run, accounted P (turn since run)) ->
  forall turns since run,
    accounted P (window_loop turns turn step since until_dtime run).
Proof.
  intros Hturn turns. induction turns as [ | turns IH]; intros since run; cbn.
  - apply accounted_out_of_fuel.
  - destruct (since <? until_dtime); [| apply accounted_ret].
    apply accounted_bind; [apply Hturn | intros ?]. apply IH.
Qed.

Lemma accounted_sync_records s fuel self :
  accounted (stream_event s) (sync_records s fuel self).
Proof.
  unfold sync_records.
  apply accounted_bind; [solve [auto with accounted] | intros bm].
  apply accounted_bind.
  { destruct bm; auto with accounted;
      (apply accounted_bind; [solve [auto with accounted] | intros ?];
       apply accounted_ret). }
  intros current.
  apply accounted_bind; [solve [auto with accounted] | intros p].
  apply accounted_bind.
  { destruct current; auto with accounted. }
  intros since.
  apply accounted_bind; [solve [auto with accounted] | intros until_].
  apply accounted_window_loop. intros. apply accounted_sync_window.
Qed.

(** X2. Whatever the outcome of a run of an incremental stream, its events
    are appended to those before it, they are requests on the endpoint of
    the stream (for the incidents, also on the log entries and the alerts
    of an incident) and records written under the name of the stream, and
    the record counter has moved by exactly the number of records
    written. *)
Theorem sync_accounted s fuel self m r m' :
  sync s fuel self m = (r, m') ->
  exists new,
    events m' = events m ++ new
    /\ Forall (stream_event s) new
    /\ counter m' = counter m + Z.of_nat (length (writes_of new)).
Proof.
  revert m r m'. change (accounted (stream_event s) (sync s fuel self)).
  unfold sync. apply accounted_bind; [apply accounted_sync_records | intros running].
  apply accounted_pure. intros m. destruct running; now eexists _, _.
Qed.

Lemma extends_full_table_sync fuel self : extends (full_table_sync fuel self).
Proof.
  unfold full_table_sync.
  apply extends_bind; [apply extends_list_resource | intros resp].
  apply extends_for_pages. intros. apply extends_for_records_of.
  intros. apply extends_emit.
Qed.

(** X3. A run of a FULL_TABLE stream, whatever its outcome: its events are
    requests on the endpoint of the stream and records written under its
    name, the record counter moves by the number of records written, and
    the bookmark store is not touched.  When the run completes, every
    record of every page fetched has been written exactly once,
    transformed, in the order fetched. *)
Theorem full_table_accounted fuel self m r m' :
  full_table_sync fuel self m = (r, m') ->
  exists new,
    events m' = events m ++ new
    /\ Forall (own_event (cls self)) new
    /\ counter m' = counter m + Z.of_nat (length (writes_of new))
    /\ state m' = state m
    /\ (r = Ok tt ->
        Forall2 (fun record t => transform (cls self) record = inr t)
          (page_records (tap_stream_id (cls self)) new) (writes_of new)).
Proof.
  intros H.
  assert (Hacc : accounted (own_event (cls self)) (full_table_sync fuel self)).
  { unfold full_table_sync. apply accounted_paging; [reflexivity |].
    intros. apply accounted_for_records_of. intros.
    apply accounted_emit. reflexivity. }
  destruct (Hacc _ _ _ H) as (new & E & F & C).
  exists new. do 3 (split; [assumption |]). split.
  - now destruct (extends_full_table_sync fuel self _ _ _ H).
  - intros ->. destruct (full_table_writes_once _ _ _ _ _ H) as (new' & E' & F').
    rewrite E in E'. apply app_inv_head in E'. now subst new'.
Qed.

(** *** The bookmark store across a run *)

(** X4. A run of an incremental stream that does not complete leaves the
    bookmark store as it was: the bookmark is written by the last
    statement of [sync] only.  What the run had written before it failed
    stays written. *)
Theorem sync_failure_keeps_bookmarks s fuel self m r m' :
  sync s fuel self m = (r, m') ->
  r <> Ok tt ->
  state m' = state m /\ exists new, events m' = events m ++ new.
Proof.
  intros H Hr. unfold sync, bind in H.
  destruct (sync_records s fuel self m) as [[running | e |] m1] eqn:E;
    destruct (extends_sync_records s fuel self _ _ _ E) as (Hs & Hev).
  - destruct running as [t | ]; cbn in H; inversion H; subst.
    + now destruct Hr.
    + auto.
  - inversion H; subst. auto.
  - inversion H; subst. auto.
Qed.

(** X5. A run of an incremental stream that completes changes one entry
    of the bookmark store, the replication key of its own stream: the
    bookmarks of the other streams and the other keys kept under its own
    stream are as before. *)
Theorem sync_bookmark_confined s fuel self m m' :
  sync s fuel self m = (Ok tt, m') ->
  (forall id, id <> tap_stream_id (class_of s) -> state m' !! id = state m !! id)
  /\ (forall key,
         key <> key_of s ->
         default ∅ (state m' !! tap_stream_id (class_of s)) !! key
         = default ∅ (state m !! tap_stream_id (class_of s)) !! key).
Proof.
  intros H. unfold sync in H.
  apply bind_inv_ok in H. destruct H as (running & m1 & Hrec & H).
  destruct (extends_sync_records s fuel self _ _ _ Hrec) as (Hs & _).
  destruct running as [t | ]; [| discriminate].
  cbn in H. inversion H; subst. clear H. cbn [state]. rewrite Hs. split.
  - intros id Hid. now rewrite lookup_insert_ne by congruence.
  - intros key Hkey. rewrite lookup_insert_eq. cbn [default from_option id].
    now rewrite lookup_insert_ne by congruence.
Qed.

(** X6. The bookmark that a completed run of an incremental stream stores
    is the ISO text of the replication-key value of one of the records the
    run fetched and let pass, the latest of them; read back by a parser
    that inverts [isoformat] on it, it is the watermark of the next run. *)
Theorem bookmark_attained s fuel self m m' :
  sync s fuel self m = (Ok tt, m') ->
  exists new t r,
    events m' = events m ++ new
    /\ bookmark s m' = Some (JStr (isoformat t))
    /\ In r (top_records s new)
    /\ record_dtime s r = Some t
    /\ passes (watermark s m) t = true
    /\ (forall r' k,
           In r' (top_records s new) -> record_dtime s r' = Some k ->
           passes (watermark s m) k = true -> k <= t)
    /\ (parse (isoformat t) = Some t -> watermark s m' = Some t).
Proof.
  intros H. unfold sync in H.
  apply bind_inv_ok in H. destruct H as (running & m1 & Hrec & H).
  destruct running as [t | ]; [| discriminate].
  cbn in H. inversion H; subst. clear H.
  apply sync_records_ok in Hrec; [| intros W; apply record_body_ok].
  destruct Hrec as (new & E & P).
  destruct (processed_attained _ _ _ _ _ _ _ P t eq_refl)
    as [Hnone | (r & Hin & Hd & Hpass)]; [discriminate |].
  exists new, t, r. cbn [events].
  split; [exact E | split; [| split; [exact Hin | split; [exact Hd |
    split; [exact Hpass | split]]]]].
  - unfold bookmark. cbn [state]. rewrite lookup_insert_eq.
    cbn [default from_option id]. apply lookup_insert_eq.
  - intros r' k. apply (processed_bounds _ _ _ _ _ _ _ P t eq_refl).
  - intros Hround. unfold watermark. cbn [state]. rewrite lookup_insert_eq.
    cbn [default from_option id]. rewrite lookup_insert_eq.
    cbn [default from_option id]. exact Hround.
Qed.

(** *** Where a run starts *)

(** X7. Without a bookmark and without [since] among its parameters (a
    config that has none leaves it null), a run of an incremental stream
    ends in the [TypeError] of [parser.parse(None)] before any request. *)
Theorem sync_needs_since s fuel self m :
  default JNull (default ∅ (state m !! tap_stream_id (class_of s)) !! key_of s)
  = JNull ->
  default JNull (default ∅ (heap m !! params self) !! "since") = JNull ->
  sync s fuel self m = (Raise TypeError, m).
Proof.
  intros Hbm Hsince. unfold sync, sync_records.
  erewrite bind_raise; [reflexivity |].
  erewrite bind_ok by (unfold get_bookmark; rewrite Hbm; reflexivity).
  erewrite bind_ok by reflexivity.
  erewrite bind_ok by reflexivity.
  erewrite bind_raise; [reflexivity |].
  rewrite Hsince. reflexivity.
Qed.

(** X8. When the stored bookmark is not before [until], the window loop
    does not run: no request is sent, nothing is written, and the run ends
    in the [AttributeError] of [None.isoformat()]. *)
Theorem sync_caught_up s fuel self m b w text u :
  bookmark s m = Some (JStr b) ->
  parse b = Some w ->
  default ∅ (heap m !! params self) !! "until" = Some (JStr text) ->
  parse text = Some u ->
  u <= w ->
  sync s (S fuel) self m = (Raise AttributeError, m).
Proof.
  intros Hbm Hw Hun Hu Hle. unfold bookmark in Hbm.
  assert (Hrec : sync_records s (S fuel) self m = (Ok None, m)).
  { unfold sync_records.
    erewrite bind_ok by (unfold get_bookmark; rewrite Hbm; reflexivity).
    cbn [default from_option id parser_parse]. rewrite Hw.
    erewrite bind_ok by reflexivity.
    erewrite bind_ok by reflexivity.
    erewrite bind_ok by reflexivity.
    erewrite bind_ok by (cbn [default from_option id]; rewrite Hun;
                         cbn [default from_option id parser_parse];
                         rewrite Hu; reflexivity).
    cbn [window_loop].
    destruct (Z.ltb_spec w u); [lia | reflexivity]. }
  unfold sync. rewrite (bind_ok _ _ _ _ _ Hrec). reflexivity.
Qed.

Lemma starts_with_bind {A B} url p (c : M A) (k : A -> M B) m :
  starts_with url p c m ->
  (forall a m1 r m', k a m1 = (r, m') -> exists new, events m' = events m1 ++ new) ->
  starts_with url p (bind c k) m.
Proof.
  intros Hc Hk r m' H. unfold bind in H.
  destruct (c m) as [[a | e |] m1] eqn:E; destruct (Hc _ _ E) as (reply & rest & E1).
  - destruct (Hk _ _ _ _ H) as (new & E2). exists reply, (rest ++ new).
    rewrite E2, E1, <- app_assoc. reflexivity.
  - inversion H; subst; eauto.
  - inversion H; subst; eauto.
Qed.

Lemma starts_with_sync_window s fuel self current since_dtime until_dtime run m p :
  heap m !! params self = Some p ->
  starts_with (String.append "/" (tap_stream_id (class_of s)))
    (dict_update p (window_range (timedelta (range_days s)) since_dtime until_dtime))
    (sync_window s fuel self current since_dtime until_dtime run) m.
Proof.
  intros Hp r m' H. unfold sync_window in H.
  erewrite bind_ok in H by (unfold read_dict; rewrite Hp; reflexivity).
  erewrite bind_ok in H by reflexivity.
  apply list_resource_first in H.
  - destruct H as (reply & rest & E). cbn [events heap] in E.
    rewrite lookup_insert_eq in E. cbn [default from_option id] in E. eauto.
  - intros resp. apply extends_for_pages. intros. apply extends_for_records_of.
    intros. apply extends_record_body.
Qed.

(** X9. A run that finds a bookmark before [until] starts from it: its
    first request asks for the window that begins at the instant of the
    bookmark, with [offset] 0 and the other parameters of the stream;
    the [since] of the configuration plays no part. *)
Theorem sync_resumes_from_bookmark s fuel self m b w p text u res m' :
  bookmark s m = Some (JStr b) ->
  parse b = Some w ->
  heap m !! params self = Some p ->
  p !! "until" = Some (JStr text) ->
  parse text = Some u ->
  w < u ->
  sync s (S fuel) self m = (res, m') ->
  exists reply rest,
    events m'
    = events m
      ++ Get (String.append "/" (tap_stream_id (class_of s)))
           (<["until" := JStr (py_min (isoformat (w + timedelta (range_days s)))
                                 (isoformat u))]>
              (<["since" := JStr (isoformat w)]> (<["offset" := JNum 0]> p)))
           reply
         :: rest.
Proof.
  intros Hbm Hw Hp Hun Hu Hlt H. unfold bookmark in Hbm.
  eapply starts_with_bind; [| | exact H].
  - intros r1 m1 H1. unfold sync_records in H1.
    erewrite bind_ok in H1 by (unfold get_bookmark; rewrite Hbm; reflexivity).
    cbn [default from_option id parser_parse] in H1. rewrite Hw in H1.
    erewrite bind_ok in H1 by reflexivity.
    erewrite bind_ok in H1 by (unfold read_dict; rewrite Hp; reflexivity).
    erewrite bind_ok in H1 by reflexivity.
    erewrite bind_ok in H1
      by (cbn [default from_option id]; rewrite Hun;
          cbn [default from_option id parser_parse]; rewrite Hu; reflexivity).
    cbn [window_loop] in H1.
    destruct (Z.ltb_spec w u); [| lia].
    eapply starts_with_bind; [| | exact H1].
    + apply (starts_with_sync_window s (S fuel) self (Some w) w u None m p Hp).
    + intros a m2 r2 m2' H2.
      now destruct (extends_window_loop _ _ _
                      (fun since run =>
                         extends_sync_window s (S fuel) self (Some w) since u run)
                      _ _ _ _ _ _ H2).
  - intros running m1 r1 m1' H1. exists [].
    destruct running; cbn in H1; inversion H1; cbn; now rewrite app_nil_r.
Qed.

(** X10. Every turn of the window loop resets the paging: whatever the
    parameter dict of the stream holds when the turn begins (the previous
    window's pagination leaves its last offset there), the first request of
    the turn is sent with [offset] 0, the [since] and [until] of the window,
    and the other parameters as they are. *)
Theorem window_resets_offset s fuel self current since_dtime until_dtime run m p
  res m' :
  heap m !! params self = Some p ->
  sync_window s fuel self current since_dtime until_dtime run m = (res, m') ->
  exists reply rest,
    events m'
    = events m
      ++ Get (String.append "/" (tap_stream_id (class_of s)))
           (<["until" := JStr (py_min
                                 (isoformat (since_dtime + timedelta (range_days s)))
                                 (isoformat until_dtime))]>
              (<["since" := JStr (isoformat since_dtime)]>
                 (<["offset" := JNum 0]> p)))
           reply
         :: rest.
Proof.
  intros Hp H.
  exact (starts_with_sync_window s fuel self current since_dtime until_dtime run
           m p Hp res m' H).
Qed.

(** *** Construction of a stream, read backwards *)

Lemma check_overrides_inv c keys m m' :
  check_overrides c keys m = (Ok tt, m') ->
  m' = m /\ forall key, In key keys -> In key (valid_params c).
Proof.
  induction keys as [ | key keys IH]; cbn; intros H.
  - inversion H. split; [reflexivity | intros ? []].
  - destruct (bool_decide_reflect (key ∈ valid_params c)) as [Hok | Hno];
      [| discriminate].
    destruct (IH H) as (-> & Hall). split; [reflexivity |].
    intros k [<- | Hk]; [now apply list_elem_of_In | auto].
Qed.

Lemma check_required_inv c pref now required :
  forall p m m',
    heap m !! pref = Some p ->
    check_required c pref now required m = (Ok tt, m') ->
    exists p',
      m' = {| api := api m; events := events m; heap := <[pref := p']> (heap m);
              counter := counter m; state := state m |}
      /\ (forall k, k <> "until" -> p' !! k = p !! k)
      /\ (forall v, p !! "until" = Some v -> p' !! "until" = Some v)
      /\ (forall param, In param required -> is_Some (p' !! param)).
Proof.
  induction required as [ | param rest IH]; intros p m m' Hheap H.
  - cbn in H. inversion H; subst. exists p.
    rewrite insert_id by exact Hheap. rewrite machine_eta.
    split; [reflexivity | split; [auto | split; [auto | intros ? []]]].
  - cbn [check_required] in H.
    erewrite bind_ok in H by (unfold read_dict; rewrite Hheap; reflexivity).
    cbn [default from_option id] in H.
    destruct (p !! param) as [v | ] eqn:Hparam.
    + erewrite bind_ok in H by reflexivity.
      destruct (IH p m m' Hheap H) as (p' & -> & Hk & Hu & Hreq).
      exists p'. split; [reflexivity | split; [exact Hk | split; [exact Hu |]]].
      intros q [<- | Hq]; [| auto].
      destruct (String.eqb_spec param "until") as [-> | Hne].
      * rewrite (Hu _ Hparam). eauto.
      * rewrite (Hk _ Hne), Hparam. eauto.
    + destruct (String.eqb_spec param "until") as [-> | Hne];
        [| unfold bind, raise in H; discriminate].
      erewrite bind_ok in H by reflexivity.
      cbn [dict_update fold_left fst snd] in H.
      apply (IH (<["until" := JStr (isoformat now)]> p)) in H;
        [| cbn [heap]; apply lookup_insert_eq].
      destruct H as (p' & -> & Hk & Hu & Hreq). cbn [api events heap counter state].
      exists p'. rewrite insert_insert_eq.
      split; [reflexivity | split; [| split]].
      * intros k Hne. rewrite (Hk _ Hne). now apply lookup_insert_ne.
      * intros v Hv. congruence.
      * intros q [<- | Hq]; [| auto].
        rewrite (Hu (JStr (isoformat now))) by apply lookup_insert_eq. eauto.
Qed.

(** A completed [__init__]: the config is an object, the overrides of the
    stream (none when the config has no entry for it) name valid
    parameters only, the stream holds a new dict, and that dict is the one
    made from the config and the overrides, but for [until]. *)
Lemma init_inv c config now m self m' :
  PagerdutyStream_init c config now m = (Ok self, m') ->
  exists cfg items p,
    config = JObj cfg
    /\ (forall key, In key (map fst items) -> In key (valid_params c))
    /\ self = {| cls := c; config := config;
                 token := default JNull (assoc_get "token" cfg);
                 email := default JNull (assoc_get "email" cfg);
                 params := fresh (dom (heap m)) |}
    /\ m' = {| api := api m; events := events m;
               heap := <[fresh (dom (heap m)) := p]> (heap m);
               counter := counter m; state := state m |}
    /\ (forall k, k <> "until" -> p !! k = params_after_overrides cfg items !! k)
    /\ (forall v, params_after_overrides cfg items !! "until" = Some v ->
                  p !! "until" = Some v)
    /\ (forall param, In param (required_params c) -> is_Some (p !! param)).
Proof.
  intros H. unfold PagerdutyStream_init in H.
  destruct config as [ | | | | | cfg];
    try (unfold bind at 1 in H; cbn in H; discriminate).
  do 6 (erewrite bind_ok in H by reflexivity).
  apply bind_inv_ok in H. destruct H as (csp & m1 & Hcsp & H).
  apply lift_inv_ok in Hcsp. destruct Hcsp as (Hcsp & ->).
  apply bind_inv_ok in H. destruct H as ([] & m2 & Hov & H).
  apply bind_inv_ok in H. destruct H as ([] & m3 & Hreq & H).
  inversion H; subst self m3. clear H.
  set (pref := fresh (dom (heap m))) in *.
  assert (Hm2 : exists items,
             (forall key, In key (map fst items) -> In key (valid_params c))
             /\ m2 = {| api := api m; events := events m;
                        heap := <[pref := params_after_overrides cfg items]> (heap m);
                        counter := counter m; state := state m |}).
  { destruct csp as [ | | | | | items];
      try (unfold bind at 1 in Hov; cbn in Hov; discriminate).
    - inversion Hov; subst m2. exists []. split; [intros ? [] | reflexivity].
    - erewrite bind_ok in Hov by reflexivity.
      apply bind_inv_ok in Hov. destruct Hov as ([] & m4 & Hchk & Hov).
      apply check_overrides_inv in Hchk. destruct Hchk as (-> & Hvalid).
      erewrite bind_ok in Hov by reflexivity.
      inversion Hov; subst m2. clear Hov. exists items. split; [exact Hvalid |].
      cbn [api events heap counter state]. rewrite lookup_insert_eq, insert_insert_eq.
      reflexivity. }
  destruct Hm2 as (items & Hvalid & ->).
  apply (check_required_inv c pref now (required_params c)
           (params_after_overrides cfg items)) in Hreq;
    [| cbn [heap]; apply lookup_insert_eq].
  destruct Hreq as (p & -> & Hk & Hu & Hall). cbn [api events heap counter state].
  exists cfg, items, p. rewrite insert_insert_eq.
  repeat (split; [first [reflexivity | assumption] |]). exact Hall.
Qed.

Lemma paging_not_overridable c :
  In c AVAILABLE_STREAMS ->
  ~ In "limit" (valid_params c) /\ ~ In "offset" (valid_params c).
Proof.
  intros Hc. cbn in Hc.
  repeat (destruct Hc as [<- | Hc];
          [split; cbn; intros H;
           repeat (destruct H as [H | H]; [discriminate |]); exact H |]).
  destruct Hc.
Qed.

(** X11. The paging of a stream is not for the configuration of the stream
    to set: for each of the stream classes of the tap, a stream that was
    constructed holds [offset] 0 and for [limit] the [limit] of the config
    (100 when it has none), whatever the overrides of the stream, which
    [valid_params] keeps away from both.  Its required parameters are keys
    of its dict, and [time_zone] is ['UTC'] for a class that does not list
    it among its valid parameters. *)
Theorem init_paging c cfg now m self m' :
  In c AVAILABLE_STREAMS ->
  PagerdutyStream_init c (JObj cfg) now m = (Ok self, m') ->
  exists p,
    heap m' !! params self = Some p
    /\ p !! "offset" = Some (JNum 0)
    /\ p !! "limit" = Some (default (JNum 100) (assoc_get "limit" cfg))
    /\ (forall param, In param (required_params c) -> is_Some (p !! param))
    /\ (~ In "time_zone" (valid_params c) -> p !! "time_zone" = Some (JStr "UTC")).
Proof.
  intros Hc H. destruct (paging_not_overridable c Hc) as (Hlimit & Hoffset).
  apply init_inv in H.
  destruct H as (cfg' & items & p & E & Hvalid & -> & -> & Hk & _ & Hall).
  inversion E; subst cfg'. clear E.
  exists p. cbn [heap params]. split; [apply lookup_insert_eq |].
  assert (Hbase : forall k v,
             ~ In k (valid_params c) -> k <> "until" ->
             dict_update ∅ [("limit", default (JNum 100) (assoc_get "limit" cfg));
                            ("offset", JNum 0);
                            ("since", default JNull (assoc_get "since" cfg));
                            ("time_zone", JStr "UTC")] !! k = Some v ->
             p !! k = Some v).
  { intros k v Hno Hne Hv. rewrite (Hk _ Hne). unfold params_after_overrides.
    rewrite dict_update_lookup_notin; [exact Hv |]. intros Hin. auto. }
  split; [| split; [| split; [exact Hall |]]].
  - apply Hbase; [exact Hoffset | discriminate |].
    cbn [dict_update fold_left fst snd].
    rewrite lookup_insert_ne by discriminate.
    rewrite lookup_insert_ne by discriminate. apply lookup_insert_eq.
  - apply Hbase; [exact Hlimit | discriminate |].
    cbn [dict_update fold_left fst snd].
    do 3 (rewrite lookup_insert_ne by discriminate). apply lookup_insert_eq.
  - intros Htz. apply Hbase; [exact Htz | discriminate |].
    cbn [dict_update fold_left fst snd]. apply lookup_insert_eq.
Qed.

(** X12. A stream that was constructed holds a parameter dict of its own:
    the dict did not exist before, every other dict is as it was, and so
    are the API, the events, the record counter and the bookmark store.
    Streams built one after the other therefore never share their
    parameters. *)
Theorem init_fresh_params c config now m self m' :
  PagerdutyStream_init c config now m = (Ok self, m') ->
  heap m !! params self = None
  /\ is_Some (heap m' !! params self)
  /\ (forall r, r <> params self -> heap m' !! r = heap m !! r)
  /\ api m' = api m /\ events m' = events m
  /\ counter m' = counter m /\ state m' = state m.
Proof.
  intros H. apply init_inv in H.
  destruct H as (cfg & items & p & _ & _ & -> & -> & _).
  cbn [params api events heap counter state].
  split; [| split; [| split; [| auto]]].
  - apply not_elem_of_dom. apply is_fresh.
  - rewrite lookup_insert_eq. eauto.
  - intros r Hr. now apply lookup_insert_ne.
Qed.

(** *** On-call records whose id cannot be made *)

(** X13. An on-call record with a [start] needs a schedule with an id and
    an [end] to get its id from: when the schedule is missing or null, or
    the [end] is missing or null (an on-call that does not end), the
    record loop raises ([KeyError] for a missing key, [TypeError] for a
    null) and nothing is written for the record. *)
Theorem oncall_id_failures current kv running m start :
  assoc_get "start" kv = Some (JStr start) ->
  start <> "" ->
  let run := oncalls_record current (JObj kv) running m in
  (assoc_get "schedule" kv = None -> run = (Raise (KeyError "schedule"), m))
  /\ (assoc_get "schedule" kv = Some JNull -> run = (Raise TypeError, m))
  /\ (forall schedule schedule_id,
         assoc_get "schedule" kv = Some schedule ->
         py_item schedule "id" = inr (JStr schedule_id) ->
         (assoc_get "end" kv = None -> run = (Raise (KeyError "end"), m))
         /\ (assoc_get "end" kv = Some JNull -> run = (Raise TypeError, m))).
Proof.
  intros Hstart Hne run. subst run. unfold oncalls_record.
  erewrite bind_ok by reflexivity. cbn [py_get]. rewrite Hstart.
  cbn [default from_option id truthy].
  destruct (String.eqb_spec start "") as [E | _]; [contradiction |].
  cbn [negb].
  split; [| split].
  - intros Hs. erewrite bind_raise; [reflexivity |].
    unfold synthesize_id, and_then. cbn [py_item]. rewrite Hs. reflexivity.
  - intros Hs. erewrite bind_raise; [reflexivity |].
    unfold synthesize_id, and_then. cbn [py_item]. rewrite Hs. reflexivity.
  - intros schedule schedule_id Hs Hid. split; intros Hend.
    + erewrite bind_raise; [reflexivity |].
      unfold synthesize_id, and_then. cbn [py_item]. rewrite Hs, Hid, Hstart, Hend.
      reflexivity.
    + erewrite bind_raise; [reflexivity |].
      unfold synthesize_id, and_then. cbn [py_item]. rewrite Hs, Hid, Hstart, Hend.
      reflexivity.
Qed.

(** *** Pages that cannot be read, paging that cannot go on *)

Lemma response_get_default page key :
  PagerdutyResponse_get page key JNull = py_get (response page) key.
Proof. unfold PagerdutyResponse_get. now destruct (response page). Qed.

(** The record loop of a FULL_TABLE stream over records that the
    transformer accepts. *)
Lemma emit_records_run c records ts :
  Forall2 (fun record t => transform c record = inr t) records ts ->
  forall u m,
    for_records (fun record _ => emit c record) records u m
    = (Ok (match records with [] => u | _ => tt end),
       {| api := api m;
          events := events m ++ map (WriteRecord (stream c)) ts;
          heap := heap m;
          counter := counter m + Z.of_nat (length ts);
          state := state m |}).
Proof.
  induction 1 as [ | record t records ts Ht _ IH]; intros u m; cbn [for_records].
  - cbn. rewrite app_nil_r, Z.add_0_r, machine_eta. reflexivity.
  - erewrite bind_ok.
    2:{ unfold emit. rewrite Ht. erewrite bind_ok by reflexivity.
        erewrite bind_ok by reflexivity. reflexivity. }
    rewrite IH. cbn [api events heap counter state map length].
    rewrite <- app_assoc. cbn [app].
    replace (counter m + 1 + Z.of_nat (length ts))
      with (counter m + Z.of_nat (S (length ts))) by lia.
    now destruct records.
Qed.

(** X14. A page that has no list under the id of the stream (the key is
    missing or null) ends the run of a FULL_TABLE stream in the
    [TypeError] of a loop over [None]: one request was sent and nothing is
    written. *)
Theorem page_without_key fuel self m page a1 :
  let url := String.append "/" (tap_stream_id (cls self)) in
  let p := default ∅ (heap m !! params self) in
  fetch url p (api m) = (inr page, a1) ->
  (forall it, response it = page ->
              PagerdutyResponse_get it (tap_stream_id (cls self)) JNull = inr JNull) ->
  full_table_sync (S fuel) self m
  = (Raise TypeError,
     {| api := a1; events := events m ++ [Get url p (inr page)];
        heap := heap m; counter := counter m; state := state m |}).
Proof.
  intros url p Hfetch Hget.
  assert (Hkey : py_get page (tap_stream_id (cls self)) = inr JNull).
  { rewrite <- (Hget {| url_suffix := url; resp_params := params self;
                        response := page; _iteration := 0 |} eq_refl).
    symmetry. apply response_get_default. }
  unfold full_table_sync.
  erewrite bind_ok.
  2:{ unfold _list_resource. erewrite bind_ok; [reflexivity |].
      unfold _get. fold p. fold url. rewrite Hfetch. reflexivity. }
  unfold for_pages. cbn [next_pages].
  erewrite bind_ok by (apply next_first; reflexivity). cbn beta iota.
  erewrite bind_raise; [reflexivity |].
  unfold for_records_of. cbn [response PagerdutyResponse_iter].
  erewrite bind_ok by (rewrite Hkey; reflexivity).
  erewrite bind_raise; reflexivity.
Qed.

(** X15. The step of the paging is [offset += limit] on the parameter
    dict, and [limit] is the value of the config as it is: with a [limit]
    that is a string, the records of the first page are written and the
    step to the second page is a [TypeError], before any second request. *)
Theorem string_limit_stops_paging fuel self m p offset limit page a1 records ts :
  let c := cls self in
  let url := String.append "/" (tap_stream_id c) in
  heap m !! params self = Some p ->
  p !! "offset" = Some (JNum offset) ->
  p !! "limit" = Some (JStr limit) ->
  fetch url p (api m) = (inr page, a1) ->
  py_get page (tap_stream_id c) = inr (JArr records) ->
  Forall2 (fun record t => transform c record = inr t) records ts ->
  py_get page "more" = inr (JBool true) ->
  full_table_sync (S (S fuel)) self m
  = (Raise TypeError,
     {| api := a1;
        events := events m ++ Get url p (inr page) :: map (WriteRecord (stream c)) ts;
        heap := heap m;
        counter := counter m + Z.of_nat (length ts);
        state := state m |}).
Proof.
  intros c url Hheap Hoffset Hlimit Hfetch Hkey Hts Hmore.
  unfold full_table_sync. fold c. fold url.
  erewrite bind_ok.
  2:{ unfold _list_resource. erewrite bind_ok; [reflexivity |].
      unfold _get. rewrite Hheap. cbn [default from_option id].
      rewrite Hfetch. reflexivity. }
  unfold for_pages. cbn [next_pages].
  erewrite bind_ok by (apply next_first; reflexivity). cbn beta iota.
  erewrite bind_ok.
  2:{ unfold for_records_of. cbn [response PagerdutyResponse_iter].
      erewrite bind_ok by (rewrite Hkey; reflexivity).
      erewrite bind_ok by reflexivity.
      apply (emit_records_run c records ts Hts). }
  cbn [api events heap counter state].
  erewrite bind_raise; cycle 1.
  - unfold PagerdutyResponse_next.
    cbn [_iteration response resp_params url_suffix PagerdutyResponse_iter].
    change (1 + 1 =? 1) with false. cbn iota.
    erewrite bind_ok by (rewrite Hmore; reflexivity). cbn iota.
    erewrite bind_ok by (unfold read_dict; cbn [heap]; rewrite Hheap; reflexivity).
    cbn [default from_option id].
    erewrite bind_ok by (unfold dict_item; rewrite Hoffset; reflexivity).
    erewrite bind_ok by (unfold dict_item; rewrite Hlimit; reflexivity).
    erewrite bind_raise; reflexivity.
  - rewrite <- app_assoc. reflexivity.
Qed.

(** X16. A reply without error status whose body is not JSON is no case
    for either retry decorator: [_get] ends with the [ValueError] of
    [response.json()] after that one request, without a wait. *)
Theorem bad_body_not_retried fuel url p w status_code n1 :
  requests_get url p (net w) = (Response status_code None, n1) ->
  ~ 400 <= status_code < 600 ->
  get_retrying (S fuel) url p w
  = (Raise ValueError,
     {| net := n1;
        sent := sent w ++ [(clock (net w), Response status_code None)];
        slept := slept w |}).
Proof.
  intros Hget Hgood.
  unfold get_retrying, decorated. cbn [on_exception]. unfold get_once.
  rewrite Hget. cbn [outcome_of].
  assert (Hrange : (400 <=? status_code) && (status_code <? 600) = false).
  { apply andb_false_iff. rewrite Z.leb_gt, Z.ltb_ge. lia. }
  rewrite Hrange. reflexivity.
Qed.

(** *** The headers of a request *)

Lemma ci_get_setitem key key' value headers :
  ci_get key (ci_setitem key' value headers)
  = if String.eqb (lower key) (lower key') then Some value
    else ci_get key headers.
Proof using Type.
  induction headers as [ | [l [k0 v0]] rest IH]; cbn.
  - reflexivity.
  - destruct (String.eqb_spec (lower key') l) as [<- | Hne]; cbn.
    + destruct (String.eqb (lower key) (lower key')); reflexivity.
    + rewrite IH. destruct (String.eqb_spec (lower key) l) as [-> | Hne2].
      * destruct (String.eqb_spec l (lower key')); [congruence | reflexivity].
      * reflexivity.
Qed.

(** X17. The headers of a request, looked up by a name in any case: the
    five headers that [_construct_headers] sets answer with the values of
    the tap (they replace a default of [requests] of the same name,
    however it is cased), [Authorization] with the token of the config
    after ['Token token= '], [From] with its email; every other header is
    the default of [requests]. *)
Theorem construct_headers_lookup default_headers self name :
  ci_get name (_construct_headers default_headers self)
  = if String.eqb (lower name) "from" then Some (email self)
    else if String.eqb (lower name) "content-type"
    then Some (JStr "application/json")
    else if String.eqb (lower name) "authorization"
    then Some (JStr (String.append "Token token= " (py_format repr (token self))))
    else if String.eqb (lower name) "user-agent"
    then Some (JStr "python-pagerduty-tap")
    else if String.eqb (lower name) "accept"
    then Some (JStr "application/vnd.pagerduty+json;version=2")
    else ci_get name default_headers.
Proof.
  unfold _construct_headers. rewrite !ci_get_setitem. reflexivity.
Qed.

(** *** What is written for an incident *)

Lemma incident_urls_differ id :
  String.eqb (incident_url id "alerts") (incident_url id "log_entries") = false
  /\ String.eqb (incident_url id "log_entries") (incident_url id "alerts") = false.
Proof.
  assert (Hne : incident_url id "alerts" <> incident_url id "log_entries").
  { intros E. unfold incident_url in E. cbn [String.concat] in E.
    repeat (apply String.app_inj in E). discriminate. }
  split; apply String.eqb_neq; congruence.
Qed.

Lemma pages_at_app url evs1 evs2 :
  pages_at url (evs1 ++ evs2) = pages_at url evs1 ++ pages_at url evs2.
Proof. apply flat_map_app. Qed.

Lemma extend_from_page_exact key page l kv rec1 :
  extend_from_page key page (JObj (assoc_set key (JArr l) kv)) = inr rec1 ->
  rec1 = JObj (assoc_set key (JArr (l ++ records_of key page)) kv).
Proof.
  unfold extend_from_page, py_extend_item, records_of.
  destruct (py_get page key) as [e | v]; [discriminate |].
  cbn [py_item]. rewrite assoc_get_set_eq.
  destruct (py_iter v) as [e | l']; [discriminate |].
  cbn [py_setitem]. rewrite assoc_set_set. intros H. now inversion H.
Qed.

(** The pages of log entries after the first, folded into the record. *)
Lemma paged_log_entries_exact url kv acc rest acc' :
  paged url
    (fun page rec rec1 new1 =>
       new1 = []
       /\ forall l, rec = JObj (assoc_set "log_entries" (JArr l) kv) ->
                    rec1 = JObj (assoc_set "log_entries"
                                   (JArr (l ++ records_of "log_entries" page)) kv))
    acc rest acc' ->
  forall l,
    acc = JObj (assoc_set "log_entries" (JArr l) kv) ->
    acc' = JObj (assoc_set "log_entries"
                   (JArr (l ++ flat_map (records_of "log_entries")
                                 (pages_at url rest))) kv)
    /\ writes_of rest = []
    /\ forall url', String.eqb url url' = false -> pages_at url' rest = [].
Proof.
  induction 1 as [acc | acc p page acc1 new1 rest acc' (-> & H1) _ IH]; intros l Hl.
  - cbn. rewrite app_nil_r. auto.
  - destruct (IH _ (H1 _ Hl)) as (-> & Hw & Hother). cbn [app].
    split; [| split].
    + cbn [pages_at flat_map]. rewrite String.eqb_refl. cbn [app flat_map].
      now rewrite <- app_assoc.
    + exact Hw.
    + intros url' Hne. cbn [pages_at flat_map]. rewrite Hne. cbn [app].
      now apply Hother.
Qed.

Lemma extend_alerts_exact W k kv logs page acc m acc1 m1 :
  extend_alerts W k page acc m = (Ok acc1, m1) ->
  exists new, events m1 = events m ++ new
              /\ alerts_step W k kv logs (response page) acc acc1 new.
Proof.
  unfold extend_alerts, alerts_step. intros H.
  apply bind_inv_ok in H. destruct H as (r1 & m2 & Hr & H).
  apply lift_inv_ok in Hr. destruct Hr as (Hr & ->).
  assert (Hshape : forall al,
             fst acc = with_sub_resources kv logs al ->
             r1 = with_sub_resources kv logs (al ++ records_of "alerts" (response page))).
  { intros al E. rewrite E in Hr. unfold with_sub_resources in *.
    now apply extend_from_page_exact in Hr. }
  destruct (passes W k).
  - apply bind_inv_ok in H. destruct H as ([] & m2 & He & H).
    apply emit_inv_ok in He. destruct He as (t & Ht & E).
    inversion H; subst. eexists. split; [exact E |]. cbn [fst snd].
    split; [exact Hshape | eauto].
  - inversion H; subst. exists []. rewrite app_nil_r. cbn [fst snd]. auto.
Qed.

Lemma paged_alerts_exact W k kv logs url acc rest acc' :
  paged url (alerts_step W k kv logs) acc rest acc' ->
  forall al,
    fst acc = with_sub_resources kv logs al ->
    (forall url', String.eqb url url' = false -> pages_at url' rest = [])
    /\ (if passes W k
        then Forall2 (fun al' t =>
                        transform IncidentsStream (with_sub_resources kv logs al')
                        = inr t)
               (prefixes al (map (records_of "alerts") (pages_at url rest)))
               (writes_of rest)
             /\ (forall u, snd acc = Some u -> update_bookmark (Some u) k = u ->
                           snd acc' = Some u)
        else writes_of rest = [] /\ snd acc' = snd acc).
Proof.
  induction 1 as [acc | acc p page acc1 new1 rest acc' (Hsh & H1) _ IH]; intros al Hal.
  - split; [reflexivity |]. destruct (passes W k); cbn; [| auto].
    split; [constructor | auto].
  - destruct (IH _ (Hsh _ Hal)) as (Hother & IH').
    assert (Hnew1 : forall url', pages_at url' new1 = []).
    { intros url'. destruct (passes W k).
      - now destruct H1 as (t & _ & -> & _).
      - now destruct H1 as (-> & _). }
    split.
    + intros url' Hne.
      change (Get ?u ?q ?x :: ?l) with ([Get u q x] ++ l).
      rewrite !pages_at_app, Hnew1, (Hother _ Hne). cbn. now rewrite Hne.
    + change (Get ?u ?q ?x :: ?l) with ([Get u q x] ++ l).
      rewrite !pages_at_app, !writes_of_app, Hnew1.
      cbn [pages_at writes_of flat_map app]. rewrite String.eqb_refl.
      cbn [app map prefixes].
      destruct (passes W k).
      * destruct H1 as (t & Ht & -> & Hs). destruct IH' as (HF & Hrun).
        cbn [writes_of flat_map app]. split.
        -- constructor; [| exact HF]. now rewrite <- (Hsh _ Hal).
        -- intros u Hu Hfix. apply Hrun; [| exact Hfix].
           now rewrite Hs, Hu, Hfix.
      * destruct H1 as (-> & Hs). destruct IH' as (Hw & Hrun).
        cbn [writes_of flat_map app]. split; [exact Hw | congruence].
Qed.

(** X18. What a completed turn of the record loop of the incidents leaves
    for its record: the log entries of all the pages of log entries and,
    page by page, the alerts are put into the record, and when the record
    passes the bookmark test it is written once for every page of alerts
    (there is at least one), the [i]-th time with all the log entries and
    the alerts of the first [i] pages; the running bookmark is then updated
    with the replication-key value of the record.  A record that does not
    pass is fetched with its sub-resources all the same, and not
    written. *)
Theorem incident_writes fuel current kv running m running' m' :
  incidents_record fuel current (JObj kv) running m = (Ok running', m') ->
  let id := default JNull (assoc_get "id" kv) in
  exists k new,
    events m' = events m ++ new
    /\ record_dtime Incidents (JObj kv) = Some k
    /\ let log_entries :=
         flat_map (records_of "log_entries")
           (pages_at (incident_url id "log_entries") new) in
       let alerts :=
         map (records_of "alerts") (pages_at (incident_url id "alerts") new) in
       alerts <> []
       /\ if passes current k
          then Forall2 (fun al t =>
                          transform IncidentsStream
                            (with_sub_resources kv log_entries al) = inr t)
                 (prefixes [] alerts) (writes_of new)
               /\ running' = Some (update_bookmark running k)
          else writes_of new = [] /\ running' = running.
Proof.
  intros H id. unfold incidents_record in H.
  apply bind_inv_ok in H. destruct H as (v & m1 & Hv & H).
  apply lift_inv_ok in Hv. destruct Hv as (Hv & ->).
  apply bind_inv_ok in H. destruct H as (k & m1 & Hk & H).
  apply parser_parse_inv_ok in Hk. destruct Hk as (text & -> & Hk & ->).
  assert (Hd : record_dtime Incidents (JObj kv) = Some k).
  { unfold record_dtime. cbn [key_of]. now rewrite Hv. }
  apply bind_inv_ok in H. destruct H as (sub & m1 & Hsub & H).
  assert (E1 : events m1 = events m) by (inversion Hsub; reflexivity).
  clear Hsub.
  apply bind_inv_ok in H. destruct H as (r1 & m2 & H1 & H).
  apply lift_inv_ok in H1. destruct H1 as (Hr1 & ->).
  cbn in Hr1. inversion Hr1; subst r1. clear Hr1.
  apply bind_inv_ok in H. destruct H as (id1 & m2 & H1 & H).
  apply lift_inv_ok in H1. destruct H1 as (Hid1 & ->).
  cbn [py_get] in Hid1. rewrite assoc_get_set_ne in Hid1 by discriminate.
  inversion Hid1; subst id1. clear Hid1. fold id in H.
  apply bind_inv_ok in H. destruct H as (resp & m2 & Hl & H).
  apply bind_inv_ok in H. destruct H as (r2 & m3 & Hf & H).
  eapply (for_pages_paged
            (fun page rec rec1 new1 =>
               new1 = []
               /\ forall l, rec = JObj (assoc_set "log_entries" (JArr l) kv) ->
                            rec1 = JObj (assoc_set "log_entries"
                                           (JArr (l ++ records_of "log_entries" page))
                                           kv)))
    in Hf; [| | exact Hl].
  2:{ intros page acc m0 acc' m0' Hb. unfold extend_log_entries in Hb.
      apply lift_inv_ok in Hb. destruct Hb as (Hb & ->).
      exists []. rewrite app_nil_r. do 2 (split; [reflexivity |]).
      intros l ->. now apply extend_from_page_exact in Hb. }
  destruct Hf as (p1 & page1 & r1' & new1 & rest1 & E3 & (-> & Hs1) & Hpaged1).
  clear Hl. cbn [app] in E3.
  destruct (paged_log_entries_exact _ _ _ _ _ Hpaged1 _ (Hs1 [] eq_refl))
    as (-> & W1 & Hother1).
  cbn [app] in H.
  set (logs := records_of "log_entries" page1
               ++ flat_map (records_of "log_entries")
                    (pages_at (incident_url id "log_entries") rest1)) in *.
  apply bind_inv_ok in H. destruct H as (r3 & m4 & H1 & H).
  apply lift_inv_ok in H1. destruct H1 as (Hr3 & ->).
  cbn in Hr3. inversion Hr3; subst r3. clear Hr3.
  apply bind_inv_ok in H. destruct H as (id2 & m4 & H1 & H).
  apply lift_inv_ok in H1. destruct H1 as (Hid2 & ->).
  cbn [py_get] in Hid2. rewrite !assoc_get_set_ne in Hid2 by discriminate.
  inversion Hid2; subst id2. clear Hid2. fold id in H.
  apply bind_inv_ok in H. destruct H as (resp2 & m4 & Hl & H).
  apply bind_inv_ok in H. destruct H as (acc & m5 & Hf & H).
  eapply (for_pages_paged (alerts_step current k kv logs)) in Hf; [| | exact Hl].
  2:{ intros page a m0 a' m0' Hb. now apply extend_alerts_exact. }
  destruct Hf as (p2 & page2 & acc1 & new2 & rest2 & E5 & (Hsh2 & D2) & Hpaged2).
  clear Hl. inversion H; subst running' m5. clear H.
  cbn [fst snd] in Hsh2, D2.
  specialize (Hsh2 [] eq_refl). cbn [app] in Hsh2.
  destruct (paged_alerts_exact _ _ _ _ _ _ _ _ Hpaged2 _ Hsh2) as (Hother2 & Hrest2).
  destruct (incident_urls_differ id) as (Hal & Hla).
  assert (Hnew2 : forall url', pages_at url' new2 = []).
  { intros url'. destruct (passes current k).
    - now destruct D2 as (t & _ & -> & _).
    - now destruct D2 as (-> & _). }
  exists k.
  exists (Get (incident_url id "log_entries") p1 (inr page1) :: rest1
          ++ Get (incident_url id "alerts") p2 (inr page2) :: new2 ++ rest2).
  split; [rewrite E5, E3, E1, <- !app_assoc; reflexivity |].
  split; [exact Hd |]. cbn zeta.
  assert (Hlogs : flat_map (records_of "log_entries")
                    (pages_at (incident_url id "log_entries")
                       (Get (incident_url id "log_entries") p1 (inr page1) :: rest1
                        ++ Get (incident_url id "alerts") p2 (inr page2)
                           :: new2 ++ rest2))
                  = logs).
  { change (Get ?u ?q ?x :: ?l) with ([Get u q x] ++ l).
    rewrite !pages_at_app.
    change (Get ?u ?q ?x :: ?l) with ([Get u q x] ++ l).
    rewrite !pages_at_app, Hnew2, (Hother2 _ Hal).
    cbn [pages_at flat_map app]. rewrite String.eqb_refl, Hal.
    cbn [app]. rewrite !app_nil_r. reflexivity. }
  assert (Halerts : pages_at (incident_url id "alerts")
                      (Get (incident_url id "log_entries") p1 (inr page1) :: rest1
                       ++ Get (incident_url id "alerts") p2 (inr page2)
                          :: new2 ++ rest2)
                    = page2 :: pages_at (incident_url id "alerts") rest2).
  { change (Get ?u ?q ?x :: ?l) with ([Get u q x] ++ l).
    rewrite !pages_at_app, (Hother1 _ Hla).
    change (Get ?u ?q ?x :: ?l) with ([Get u q x] ++ l).
    rewrite !pages_at_app, Hnew2.
    cbn [pages_at flat_map app]. rewrite String.eqb_refl, Hla.
    reflexivity. }
  rewrite Hlogs, Halerts. cbn [map prefixes app].
  split; [discriminate |].
  change (Get ?u ?q ?x :: ?l) with ([Get u q x] ++ l).
  rewrite !writes_of_app, W1.
  change (Get ?u ?q ?x :: ?l) with ([Get u q x] ++ l).
  rewrite !writes_of_app. cbn [writes_of flat_map app].
  destruct (passes current k).
  - destruct D2 as (t & Ht & -> & Hs). destruct Hrest2 as (HF & Hrun).
    cbn [writes_of flat_map app]. split.
    + constructor; [| exact HF]. now rewrite <- Hsh2.
    + apply (Hrun _ Hs). apply update_bookmark_again.
  - destruct D2 as (-> & Hs). destruct Hrest2 as (Hw & Hrun).
    cbn [writes_of flat_map app]. split; [exact Hw | congruence].
Qed.

(** *** The parameter dicts across a run *)

Lemma touches_pure {A} S (c : M A) :
  (forall m, exists r m', c m = (r, m') /\ heap m' = heap m) -> touches S c.
Proof.
  intros Hc m r m' H. destruct (Hc m) as (r0 & m0 & E & Hh).
  rewrite E in H. inversion H; subst. rewrite Hh. auto.
Qed.

Lemma touches_ret {A} S (a : A) : touches S (ret a).
Proof. apply touches_pure. intros m. now eexists _, _. Qed.

Lemma touches_raise {A} S e : touches S (@raise A e).
Proof. apply touches_pure. intros m. now eexists _, _. Qed.

Lemma touches_out_of_fuel {A} S : touches S (@out_of_fuel A).
Proof. apply touches_pure. intros m. now eexists _, _. Qed.

Lemma touches_lift {A} S (x : exn + A) : touches S (lift x).
Proof. destruct x; [apply touches_raise | apply touches_ret]. Qed.

Lemma touches_read_dict S r : touches S (read_dict r).
Proof. apply touches_pure. intros m. now eexists _, _. Qed.

Lemma touches_get_bookmark S id key : touches S (get_bookmark id key).
Proof. apply touches_pure. intros m. now eexists _, _. Qed.

Lemma touches_parser_parse S v : touches S (parser_parse v).
Proof.
  unfold parser_parse. destruct v; try apply touches_raise.
  destruct (parse s); [apply touches_ret | apply touches_raise].
Qed.

Lemma touches_get S url pref : touches S (_get url pref).
Proof.
  apply touches_pure. intros m. unfold _get.
  destruct (fetch _ _ _) as [[e | j] a']; now eexists _, _.
Qed.

Lemma touches_emit S c r : touches S (emit c r).
Proof.
  apply touches_pure. intros m.
  unfold emit, bind, lift, raise, ret, write_record, counter_increment.
  destruct (transform c r) as [e | t]; now eexists _, _.
Qed.

Lemma touches_write_dict (S : nat -> Prop) r d : S r -> touches S (write_dict r d).
Proof.
  intros HS m x m' H. inversion H; subst. cbn [heap]. split.
  - intros ref Href. destruct (decide (r = ref)) as [-> | Hne].
    + rewrite lookup_insert_eq. eauto.
    + now rewrite lookup_insert_ne.
  - intros ref _ Hn. apply lookup_insert_ne. intros ->. auto.
Qed.

Lemma touches_bind_post {A B} S (Q : A -> Prop) (c : M A) (k : A -> M B) :
  (forall m a m', c m = (Ok a, m') -> Q a) ->
  touches S c -> (forall a, Q a -> touches S (k a)) ->
  touches S (bind c k).
Proof.
  intros HQ Hc Hk m r m' H. unfold bind in H.
  destruct (c m) as [[a | e |] m1] eqn:E; destruct (Hc _ _ _ E) as (D1 & F1).
  - destruct (Hk a (HQ _ _ _ E) _ _ _ H) as (D2 & F2). split.
    + auto.
    + intros ref Href Hn. rewrite F2 by auto. auto.
  - inversion H; subst. auto.
  - inversion H; subst. auto.
Qed.

Lemma touches_bind {A B} S (c : M A) (k : A -> M B) :
  touches S c -> (forall a, touches S (k a)) -> touches S (bind c k).
Proof.
  intros Hc Hk. apply (touches_bind_post S (fun _ => True)); auto.
Qed.

(** A dict made on the way is none of those that were there. *)
Lemma touches_new_dict_bind {A} (S : nat -> Prop) d (k : nat -> M A) :
  (forall r, touches (fun x => S x \/ x = r) (k r)) ->
  touches S (bind (new_dict d) k).
Proof.
  intros Hk m r m' H. unfold bind, new_dict in H.
  set (sub := fresh (dom (heap m))) in *.
  destruct (Hk sub _ _ _ H) as (D & F). cbn [heap] in D, F.
  assert (Hfresh : heap m !! sub = None) by (apply not_elem_of_dom, is_fresh).
  assert (Hne : forall ref, is_Some (heap m !! ref) -> sub <> ref).
  { intros ref Href <-. rewrite Hfresh in Href. now destruct Href. }
  split.
  - intros ref Href. apply D. now rewrite lookup_insert_ne by auto.
  - intros ref Href Hn. rewrite F.
    + apply lookup_insert_ne. auto.
    + now rewrite lookup_insert_ne by auto.
    + intros [HS | ->]; [auto | now apply (Hne sub)].
Qed.

Create HintDb touches.

#[local] Hint Resolve touches_ret touches_raise touches_out_of_fuel touches_lift
  touches_read_dict touches_get_bookmark touches_parser_parse touches_get
  touches_emit : touches.

Lemma list_resource_params url pref m resp m' :
  _list_resource url pref m = (Ok resp, m') -> resp_params resp = pref.
Proof.
  unfold _list_resource. intros H.
  apply bind_inv_ok in H. destruct H as (j & m1 & _ & H).
  inversion H. reflexivity.
Qed.

Lemma next_keeps_params it m page m' :
  PagerdutyResponse_next it m = (Ok (Some page), m') ->
  resp_params page = resp_params it.
Proof.
  unfold PagerdutyResponse_next. destruct (_iteration it + 1 =? 1).
  - intros H. inversion H. reflexivity.
  - intros H. apply bind_inv_ok in H. destruct H as (more & m1 & _ & H).
    destruct more as [ | [ | ] | | | | ]; try (inversion H; fail).
    do 6 (apply bind_inv_ok in H; destruct H as (? & ? & _ & H)).
    inversion H. reflexivity.
Qed.

Lemma touches_next (S : nat -> Prop) it :
  S (resp_params it) -> touches S (PagerdutyResponse_next it).
Proof.
  intros HS. unfold PagerdutyResponse_next.
  destruct (_iteration it + 1 =? 1); [apply touches_ret |].
  apply touches_bind; [apply touches_lift | intros more].
  destruct more as [ | [ | ] | | | | ]; try apply touches_ret.
  do 4 (apply touches_bind; [solve [auto with touches] | intros ?]).
  apply touches_bind; [now apply touches_write_dict | intros ?].
  apply touches_bind; [apply touches_get | intros; apply touches_ret].
Qed.

Lemma touches_next_pages {A} (S : nat -> Prop) pref
  (body : PagerdutyResponse -> A -> M A) :
  S pref ->
  (forall page acc, touches S (body page acc)) ->
  forall fuel it acc,
    resp_params it = pref -> touches S (next_pages fuel body it acc).
Proof.
  intros HS Hbody fuel. induction fuel as [ | fuel IH]; intros it acc Hpref; cbn.
  - apply touches_out_of_fuel.
  - apply (touches_bind_post S
             (fun nx => forall page, nx = Some page -> resp_params page = pref)).
    + intros m nx m' H page ->. rewrite <- Hpref. eapply next_keeps_params; eauto.
    + apply touches_next. now rewrite Hpref.
    + intros [page | ] Hq.
      * apply touches_bind; [apply Hbody | intros acc']. apply IH. now apply Hq.
      * apply touches_ret.
Qed.

Lemma touches_paging {A} (S : nat -> Prop) url pref fuel
  (body : PagerdutyResponse -> A -> M A) acc :
  S pref ->
  (forall page acc, touches S (body page acc)) ->
  touches S (bind (_list_resource url pref)
               (fun resp => for_pages fuel body resp acc)).
Proof.
  intros HS Hbody.
  apply (touches_bind_post S (fun resp => resp_params resp = pref)).
  - intros m resp m' H. eapply list_resource_params; eauto.
  - unfold _list_resource.
    apply touches_bind; [apply touches_get | intros; apply touches_ret].
  - intros resp Hpref. unfold for_pages. now apply (touches_next_pages S pref).
Qed.

Lemma touches_pagination {A B} (S : nat -> Prop) url pref fuel
  (body : PagerdutyResponse -> A -> M A) acc (k : A -> M B) :
  S pref ->
  (forall page acc, touches S (body page acc)) ->
  (forall a, touches S (k a)) ->
  touches S (bind (_list_resource url pref)
               (fun resp => bind (for_pages fuel body resp acc) k)).
Proof.
  intros HS Hbody Hk.
  apply (touches_bind_post S (fun resp => resp_params resp = pref)).
  - intros m resp m' H. eapply list_resource_params; eauto.
  - unfold _list_resource.
    apply touches_bind; [apply touches_get | intros; apply touches_ret].
  - intros resp Hpref. apply touches_bind; [| exact Hk].
    unfold for_pages. now apply (touches_next_pages S pref).
Qed.

Lemma touches_for_records {A} S (body : json -> A -> M A) :
  (forall r acc, touches S (body r acc)) ->
  forall rs acc, touches S (for_records body rs acc).
Proof.
  intros Hbody rs. induction rs as [ | r rs IH]; intros acc; cbn.
  - apply touches_ret.
  - apply touches_bind; [apply Hbody | intros acc']. apply IH.
Qed.

Lemma touches_for_records_of {A} S key (body : json -> A -> M A) page acc :
  (forall r acc, touches S (body r acc)) ->
  touches S (for_records_of key body page acc).
Proof.
  intros Hbody. unfold for_records_of.
  do 2 (apply touches_bind; [apply touches_lift | intros ?]).
  now apply touches_for_records.
Qed.

(** The record loop bodies touch no dict that was there: the incidents
    page their sub-resources on a dict made for the record. *)
Lemma touches_record_body S s fuel current r run :
  touches S (record_body s fuel current r run).
Proof.
  destruct s; cbn [record_body].
  - unfold incidents_record.
    do 2 (apply touches_bind; [solve [auto with touches] | intros ?]).
    apply touches_new_dict_bind. intros sub.
    do 2 (apply touches_bind; [solve [auto with touches] | intros ?]).
    apply touches_pagination; [now right | intros; apply touches_lift |].
    intros ?.
    do 2 (apply touches_bind; [solve [auto with touches] | intros ?]).
    apply touches_pagination; [now right | | intros; apply touches_ret].
    intros page acc. unfold extend_alerts.
    apply touches_bind; [apply touches_lift | intros ?].
    destruct (passes _ _); [| apply touches_ret].
    apply touches_bind; [apply touches_emit | intros; apply touches_ret].
  - unfold notifications_record.
    do 2 (apply touches_bind; [solve [auto with touches] | intros ?]).
    destruct (passes _ _); [| apply touches_ret].
    apply touches_bind; [apply touches_emit | intros; apply touches_ret].
  - unfold oncalls_record.
    apply touches_bind; [solve [auto with touches] | intros ?].
    destruct (negb _); [apply touches_ret |].
    do 3 (apply touches_bind; [solve [auto with touches] | intros ?]).
    destruct (passes _ _); [| apply touches_ret].
    apply touches_bind; [apply touches_emit | intros; apply touches_ret].
Qed.

Lemma touches_window_loop S (turn : Z -> option Z -> M (option Z)) step until_dtime :
  (forall since run, touches S (turn since run)) ->
  forall turns since run,
    touches S (window_loop turns turn step since until_dtime run).
Proof.
  intros Hturn turns. induction turns as [ | turns IH]; intros since run; cbn.
  - apply touches_out_of_fuel.
  - destruct (since <? until_dtime); [| apply touches_ret].
    apply touches_bind; [apply Hturn | intros ?]. apply IH.
Qed.

Lemma touches_sync s fuel self :
  touches (fun x => x = params self) (sync s fuel self).
Proof.
  unfold sync. apply touches_bind.
  - unfold sync_records.
    apply touches_bind; [solve [auto with touches] | intros bm].
    apply touches_bind.
    { destruct bm; auto with touches;
        (apply touches_bind; [solve [auto with touches] | intros ?];
         apply touches_ret). }
    intros current.
    apply touches_bind; [solve [auto with touches] | intros p].
    apply touches_bind.
    { destruct current; auto with touches. }
    intros since.
    apply touches_bind; [solve [auto with touches] | intros until_].
    apply touches_window_loop. intros since0 run. unfold sync_window.
    apply touches_bind; [solve [auto with touches] | intros ?].
    apply touches_bind; [now apply touches_write_dict | intros ?].
    apply touches_paging; [reflexivity |].
    intros. apply touches_for_records_of. intros. apply touches_record_body.
  - intros running. apply touches_pure. intros m.
    destruct running; now eexists _, _.
Qed.

(** X19. A run of a stream, whatever its outcome, changes no parameter
    dict but the stream's own: every other dict that exists when the run
    starts (the parameters of the other streams) is the same when it ends.
    The dict that the incidents page the log entries and the alerts of a
    record on is made for that record. *)
Theorem sync_touches_own_params fuel self m ref :
  is_Some (heap m !! ref) ->
  ref <> params self ->
  (forall s r m',
      sync s fuel self m = (r, m') -> heap m' !! ref = heap m !! ref)
  /\ (forall r m',
         full_table_sync fuel self m = (r, m') -> heap m' !! ref = heap m !! ref).
Proof.
  intros Href Hne. split.
  - intros s r m' H. destruct (touches_sync s fuel self _ _ _ H) as (_ & F).
    now apply F.
  - intros r m' H.
    assert (Ht : touches (fun x => x = params self) (full_table_sync fuel self)).
    { unfold full_table_sync. apply touches_paging; [reflexivity |].
      intros. apply touches_for_records_of. intros. apply touches_emit. }
    destruct (Ht _ _ _ H) as (_ & F). now apply F.
Qed.

(** *** A failure that passes *)

(** X20. One failure that the decorators retry does not fail the call: when
    the first reply is a connection error, a timeout, a 5xx or a 429 and
    the reply to the second request has no error status and a JSON body,
    [_get] returns that body after two requests and one wait in between,
    of at most one second (the first value of [backoff.fibo], cut by the
    jitter). *)
Theorem transient_failure_absorbed fuel url p w first n1 x n2 status_code j n3 :
  retryable first ->
  requests_get url p (net w) = (first, n1) ->
  uniform (seconds 1) n1 = (x, n2) ->
  let wait := Z.min x (seconds 120) in
  requests_get url p (sleep wait n2) = (Response status_code (Some j), n3) ->
  ~ 400 <= status_code < 600 ->
  get_retrying (S (S fuel)) url p w
  = (Ok j,
     {| net := n3;
        sent := sent w ++ [(clock (net w), first);
                           (clock (sleep wait n2), Response status_code (Some j))];
        slept := slept w ++ [wait] |}).
Proof.
  intros Hfirst Hget1 Hu wait Hget2 Hgood. subst wait.
  assert (Hrange : (400 <=? status_code) && (status_code <? 600) = false).
  { apply andb_false_iff. rewrite Z.leb_gt, Z.ltb_ge. lia. }
  unfold get_retrying, decorated.
  destruct first as [ | | status_code0 body0].
  - cbn [on_exception]. unfold get_once at 1. rewrite Hget1.
    cbn [outcome_of is_network_error net sent slept orb].
    rewrite Z.sub_diag. change (seconds 120 <=? 0) with false. cbn iota.
    rewrite Hu, Z.sub_0_r. unfold get_once at 1. cbn [net sent slept].
    rewrite Hget2. cbn [outcome_of]. rewrite Hrange.
    rewrite <- app_assoc. reflexivity.
  - cbn [on_exception]. unfold get_once at 1. rewrite Hget1.
    cbn [outcome_of is_network_error net sent slept orb].
    rewrite Z.sub_diag. change (seconds 120 <=? 0) with false. cbn iota.
    rewrite Hu, Z.sub_0_r. unfold get_once at 1. cbn [net sent slept].
    rewrite Hget2. cbn [outcome_of]. rewrite Hrange.
    rewrite <- app_assoc. reflexivity.
  - cbn in Hfirst.
    assert (Hbad : (400 <=? status_code0) && (status_code0 <? 600) = true).
    { apply andb_true_iff. rewrite Z.leb_le, Z.ltb_lt. lia. }
    assert (Hfatal : is_fatal_code status_code0 = false).
    { destruct (is_fatal_code status_code0) eqn:Hf; [| reflexivity].
      apply is_fatal_code_spec in Hf. lia. }
    cbn [on_exception]. unfold get_once at 1. rewrite Hget1.
    cbn [outcome_of]. rewrite Hbad.
    cbn [is_network_error is_http_error giveup_fatal net sent slept].
    rewrite Hfatal. cbn [orb].
    rewrite Z.sub_diag. change (seconds 120 <=? 0) with false. cbn iota.
    rewrite Hu, Z.sub_0_r. unfold get_once at 1. cbn [net sent slept].
    rewrite Hget2. cbn [outcome_of]. rewrite Hrange.
    rewrite <- app_assoc. reflexivity.
Qed.

(** *** The table of stream classes *)

(** X21. The stream classes of the tap fit together: no two of them share
    a stream id, each writes its records under its id with [id] as the
    key, every required parameter of a class is one of its valid
    parameters, an INCREMENTAL class has exactly one valid replication
    key, which is its replication key, and requires [since] and [until],
    and a FULL_TABLE class has no replication key and no required
    parameter. *)
Theorem stream_table_consistent :
  NoDup (map tap_stream_id AVAILABLE_STREAMS)
  /\ Forall (fun c =>
               stream c = tap_stream_id c
               /\ key_properties c = "id"
               /\ (forall param, In param (required_params c) ->
                                 In param (valid_params c))
               /\ match replication_key c with
                  | Some key =>
                      replication_method c = "INCREMENTAL"
                      /\ valid_replication_keys c = [key]
                      /\ required_params c = ["since"; "until"]
                  | None =>
                      replication_method c = "FULL_TABLE"
                      /\ valid_replication_keys c = []
                      /\ required_params c = []
                  end)
       AVAILABLE_STREAMS.
Proof using Type.
  split.
  - unfold AVAILABLE_STREAMS. cbn [map tap_stream_id IncidentsStream ServicesStream
      NotificationsStream EscalationPoliciesStream SchedulesStream OncallsStream
      UsersStream].
    repeat (apply NoDup_cons; split;
            [intros H; repeat (apply elem_of_cons in H; destruct H as [H | H];
                               [discriminate |]);
             now apply elem_of_nil in H |]).
    apply NoDup_nil_2.
  - repeat (apply Forall_cons; split;
            [split; [reflexivity | split; [reflexivity | split;
               [| repeat split]]];
             cbn; intros param H;
             repeat (destruct H as [<- | H]; [auto 20 |]); destruct H |]).
    apply Forall_nil_2.
Qed.

End Tap.

(** ** The engine on the sample data *)

Example isoformat_utc_sample :
  isoformat_utc 1704067200000000 = "2024-01-01T00:00:00+00:00"
  /\ isoformat_utc 1704067200500000 = "2024-01-01T00:00:00.500000+00:00"
  /\ parse_utc "2024-01-01T00:00:00Z" = Some 1704067200000000
  /\ parse_utc "2024-02-29T12:30:15.250000+00:00" = Some 1709209815250000
  /\ isoformat_utc 1709209815250000 = "2024-02-29T12:30:15.250000+00:00".
Proof. vm_compute. repeat split. Qed.


(** The same run to its end: the bookmark written is 2024-01-04, the
    latest replication-key value written. *)
Lemma watermark_monotone_witness :
  let m := sample_machine notifications_api
             (notifications_bookmark "2024-01-03T00:00:00+00:00") in
  let run := sync_records mock_api mock_fetch parse_utc isoformat_utc accept_all
               no_repr Notifications 5 (sample_stream NotificationsStream) m in
  exists t m',
    sync mock_api mock_fetch parse_utc isoformat_utc accept_all no_repr
      Notifications 5 (sample_stream NotificationsStream) m = (Ok tt, m')
    /\ Some 1704326400000000 = Some t
    /\ bookmark mock_api Notifications m' = Some (JStr (isoformat_utc t))
    /\ (forall w, watermark mock_api parse_utc Notifications m = Some w -> w <= t)
    /\ (forall r k,
           In r (top_records Notifications (events (snd run))) ->
           record_dtime parse_utc Notifications r = Some k ->
           passes (watermark mock_api parse_utc Notifications m) k = true ->
           k <= t)
    /\ exists groups,
         writes_of (events (snd run)) = concat groups
         /\ Forall2 (fun r g =>
                       (g <> [] <->
                        exists k,
                          record_dtime parse_utc Notifications r = Some k
                          /\ passes (watermark mock_api parse_utc Notifications m) k
                             = true)
                       /\ (g <> [] -> written_from accept_all Notifications r g)
                       /\ (g <> [] ->
                           exists k, record_dtime parse_utc Notifications r = Some k
                                     /\ k <= t))
              (top_records Notifications (events (snd run))) groups.
Proof.
  intros m run.
  apply (watermark_monotone mock_api mock_fetch parse_utc isoformat_utc accept_all
           no_repr Notifications 5 (sample_stream NotificationsStream) m
           (Some 1704326400000000) (snd run) (events (snd run))).
  - vm_compute. reflexivity.
  - vm_compute. reflexivity.
  - vm_compute. discriminate.
Defined.

(** The windows of 2024-01-01 to 2024-01-20 by seven days: three, the
    last one five days long. *)
Lemma window_plan_witness :
  let since := 1704067200000000 in
  let until_ := 1705708800000000 in
  window_count (timedelta 7) since until_ = 3%nat
  /\ (forall turns (turn : Z -> option Z -> M mock_api (option Z)) run m,
         (3 < turns)%nat ->
         window_loop mock_api turns turn (timedelta 7) since until_ run m
         = turns_over mock_api turn
             [since; since + timedelta 7; since + timedelta 14] run m)
  /\ map (fun k => window_range isoformat_utc (timedelta 7)
                     (window_start (timedelta 7) since k) until_)
       [0%nat; 1%nat; 2%nat]
     = [[("offset", JNum 0); ("since", JStr "2024-01-01T00:00:00+00:00");
         ("until", JStr "2024-01-08T00:00:00+00:00")];
        [("offset", JNum 0); ("since", JStr "2024-01-08T00:00:00+00:00");
         ("until", JStr "2024-01-15T00:00:00+00:00")];
        [("offset", JNum 0); ("since", JStr "2024-01-15T00:00:00+00:00");
         ("until", JStr "2024-01-20T00:00:00+00:00")]].
Proof.
  intros since until_.
  destruct (window_plan mock_api isoformat_utc (timedelta 7) since until_
              ltac:(reflexivity))
    as (Hloop & _ & _ & _ & _ & _ & _ & _ & Hrange).
  split; [reflexivity | split].
  - intros turns turn run m Hturns. apply (Hloop turns turn run m Hturns).
  - cbn [map].
    rewrite (Hrange 0%nat) by (vm_compute; (lia || reflexivity)).
    rewrite (Hrange 1%nat) by (vm_compute; (lia || reflexivity)).
    rewrite (Hrange 2%nat) by (vm_compute; (lia || reflexivity)).
    vm_compute. reflexivity.
Defined.

(** *** The window loop on datetimes with their offset *)

(** With every offset zero these are the texts of [isoformat_utc]. *)
Lemma datetime_isoformat_utc t :
  datetime_isoformat {| instant := t; utcoffset := 0 |} = isoformat_utc t.
Proof.
  unfold datetime_isoformat, isoformat_utc. cbn [instant utcoffset].
  rewrite Z.add_0_r. destruct (civil_from_days (t / 86400000000)) as [[y m] dd].
  reflexivity.
Qed.

Lemma datetime_parse_utc s t :
  parse_utc s = Some t -> datetime_parse s = Some {| instant := t; utcoffset := 0 |}.
Proof.
  unfold parse_utc, datetime_parse. intros H.
  repeat match type of H with
         | mbind _ ?x = Some _ =>
             let E := fresh "E" in
             destruct x as [[? ?] | ] eqn:E; [| discriminate]; cbn [mbind option_bind] in H |- *
         | mbind _ ?x = Some _ =>
             let E := fresh "E" in
             destruct x as [? | ] eqn:E; [| discriminate]; cbn [mbind option_bind] in H |- *
         end.
  cbn [mbind option_bind].
  assert (Hs : parse_offset s11 = Some 0 /\ ((s11 =? "Z")%string || (s11 =? "+00:00")%string) = true).
  { destruct (String.eqb_spec s11 "Z") as [-> | _]; [now split |].
    destruct (String.eqb_spec s11 "+00:00") as [-> | _]; [now split | discriminate]. }
  destruct Hs as (-> & Hs). rewrite Hs in H. cbn [mbind option_bind].
  inversion H. do 2 f_equal. lia.
Qed.

(** With one offset on both ends, the [range] dicts of the loop are those
    of [window_range] at the starts of the windows. *)
Lemma window_ranges_same_offset step offset until_ :
  0 < step ->
  forall turns since,
    (window_count step since until_ < turns)%nat ->
    window_ranges turns step {| instant := since; utcoffset := offset |}
      {| instant := until_; utcoffset := offset |}
    = Some (map (fun start =>
                   window_range
                     (fun t => datetime_isoformat {| instant := t; utcoffset := offset |})
                     step start until_)
              (map (window_start step since)
                 (seq 0 (window_count step since until_)))).
Proof.
  intros Hstep turns.
  induction turns as [ | turns IH]; intros since Hfuel; [lia |].
  cbn [window_ranges]. unfold datetime_lt. cbn [instant].
  destruct (Z.ltb_spec since until_) as [Hlt | Hge].
  - rewrite (window_count_more step since until_ Hstep Hlt) in *.
    unfold datetime_add at 1. cbn [instant utcoffset].
    rewrite IH by lia. rewrite window_starts_more. reflexivity.
  - now rewrite (window_count_done step since until_ Hstep Hge).
Qed.

(** C3. A run from [since = 2024-01-01T00:00:00-05:00] up to
    [until = 2024-01-08T02:00:00+00:00], by seven days: [since] is before
    [until], and there is one window.  Its end should be the smaller of
    [since] + 7 days (2024-01-08 05:00 UTC) and [until] (02:00 UTC): [until].
    The [range] dict carries 2024-01-08T00:00:00-05:00 instead, three hours
    past [until]: [min] compared the two ISO texts, and the text of the
    later instant is the smaller string. *)
Lemma window_past_until :
  exists since_dtime until_dtime window_end,
    datetime_parse "2024-01-01T00:00:00-05:00" = Some since_dtime
    /\ datetime_parse "2024-01-08T02:00:00+00:00" = Some until_dtime
    /\ datetime_lt since_dtime until_dtime = true
    /\ window_ranges 5 (timedelta 7) since_dtime until_dtime
       = Some [[("offset", JNum 0);
                ("since", JStr "2024-01-01T00:00:00-05:00");
                ("until", JStr "2024-01-08T00:00:00-05:00")]]
    /\ datetime_parse "2024-01-08T00:00:00-05:00" = Some window_end
    /\ Z.min (instant since_dtime + timedelta 7) (instant until_dtime)
       = instant until_dtime
    /\ instant window_end = instant until_dtime + 3 * 3600000000.
Proof.
  eexists _, _, _.
  split; [vm_compute; reflexivity |].
  split; [vm_compute; reflexivity |].
  repeat split.
Qed.


(** A config without [until] gets the clock as [until]; an override that
    [/notifications] does not support stops the construction. *)
Lemma init_validates_witness :
  let now := 1705708800000000 in
  (exists self m',
      PagerdutyStream_init mock_api isoformat_utc NotificationsStream
        (JObj (sample_config [])) now empty_machine = (Ok self, m')
      /\ default ∅ (heap m' !! params self) !! "until"
         = Some (JStr "2024-01-20T00:00:00+00:00")
      /\ events m' = [])
  /\ (exists msg m',
         PagerdutyStream_init mock_api isoformat_utc NotificationsStream
           (JObj (sample_config [("bogus", JNum 1)])) now empty_machine
         = (Raise (RuntimeError msg), m')).
Proof.
  intros now. split.
  - destruct (init_validates mock_api isoformat_utc NotificationsStream
                (sample_config []) [("notifications", JObj [])] (JObj []) []
                now empty_machine eq_refl eq_refl (or_intror eq_refl))
      as (Hquiet & _ & Hok).
    destruct (Hok ltac:(intros key [])) as (Hdefault & _).
    destruct Hdefault as (self & m' & Hinit & _ & Hheap).
    + intros param [<- | [<- | []]]; vm_compute; intros H;
        (discriminate || reflexivity).
    + exists self, m'. split; [exact Hinit | split].
      * rewrite Hheap. vm_compute. reflexivity.
      * now destruct (Hquiet _ _ _ Hinit).
  - destruct (init_validates mock_api isoformat_utc NotificationsStream
                (sample_config [("bogus", JNum 1)])
                [("notifications", JObj [("bogus", JNum 1)])]
                (JObj [("bogus", JNum 1)]) [("bogus", JNum 1)]
                now empty_machine eq_refl eq_refl (or_intror eq_refl))
      as (_ & Hbad & _).
    apply Hbad. exists "bogus". split; [now left |].
    cbn. intros H. repeat (destruct H as [H | H]; [discriminate |]). exact H.
Defined.

(** C8. A config without [since], for the incidents stream, whose required
    parameters are [since] and [until]: where the claim has a fatal
    configuration error, construction succeeds, [since] being a key of the
    parameter dict with the value [None]; nothing is requested.  The run
    fails later, in [sync], with the [TypeError] of [parser.parse(None)]. *)
Lemma missing_since_accepted :
  let cfg := [("token", JStr "secret"); ("email", JStr "ops@example.com")] in
  let run := PagerdutyStream_init mock_api isoformat_utc IncidentsStream
               (JObj cfg) 1705708800000000 empty_machine in
  In "since" (required_params IncidentsStream)
  /\ assoc_get "since" cfg = None
  /\ exists self,
       fst run = Ok self
       /\ cls self = IncidentsStream
       /\ default ∅ (heap (snd run) !! params self) !! "since" = Some JNull
       /\ default ∅ (heap (snd run) !! params self) !! "until"
          = Some (JStr "2024-01-20T00:00:00+00:00")
       /\ events (snd run) = []
       /\ sync mock_api mock_fetch parse_utc isoformat_utc accept_all no_repr
            Incidents 5 self (snd run)
          = (Raise TypeError, snd run).
Proof.
  intros cfg run. split; [now left | split; [reflexivity |]].
  eexists. split; [vm_compute; reflexivity |].
  repeat split; vm_compute; reflexivity.
Qed.

(** An on-call with schedule, start and end gets the three texts glued
    together as its id before it is written; one without a start is
    skipped. *)
Lemma oncall_record_id_witness :
  let kv := [("schedule", JObj [("id", JStr "SCHED1")]);
             ("start", JStr "2024-01-05T00:00:00Z");
             ("end", JStr "2024-01-06T00:00:00Z")] in
  let with_id :=
    JObj (kv ++ [("id", JStr "SCHED12024-01-05T00:00:00Z2024-01-06T00:00:00Z")]) in
  synthesize_id (JObj kv) = inr with_id
  /\ oncalls_record mock_api parse_utc accept_all None (JObj kv) None empty_machine
     = (Ok (Some 1704412800000000),
        {| api := []; events := [WriteRecord "oncalls" with_id]; heap := ∅;
           counter := 1; state := ∅ |})
  /\ oncalls_record mock_api parse_utc accept_all None
       (JObj [("schedule", JNull); ("start", JNull); ("end", JNull)]) None
       empty_machine
     = (Ok None, empty_machine).
Proof.
  intros kv with_id.
  destruct (oncall_record_id mock_api parse_utc accept_all None kv None
              empty_machine) as (_ & Hid).
  destruct (Hid (JObj [("id", JStr "SCHED1")]) "SCHED1" "2024-01-05T00:00:00Z"
              "2024-01-06T00:00:00Z" 1704412800000000
              eq_refl eq_refl eq_refl ltac:(discriminate) eq_refl eq_refl)
    as (Hsyn & Hrun).
  split; [exact Hsyn | split; [exact Hrun |]].
  destruct (oncall_record_id mock_api parse_utc accept_all None
              [("schedule", JNull); ("start", JNull); ("end", JNull)] None
              empty_machine) as (Hskip & _).
  apply Hskip. now right.
Defined.

(** The log entries of the sample incident take three pages, so the first
    request for its alerts leaves with offset 200. *)
Lemma alerts_offset_left_over_witness :
  let m := sample_machine incidents_api ∅ in
  let run := incidents_record mock_api mock_fetch parse_utc accept_all no_repr 5
               None (incident "P1" "2024-01-02T00:00:00Z") None m in
  exists reply rest,
    events (snd run)
    = events m
      ++ page_requests "/incidents/P1/log_entries" substream_params 100 0
           [page_of "log_entries" [JStr "L1"] true;
            page_of "log_entries" [JStr "L2"] true;
            page_of "log_entries" [JStr "L3"] false]
      ++ Get "/incidents/P1/alerts" (<["offset" := JNum 200]> substream_params) reply
         :: rest.
Proof.
  intros m run.
  apply (alerts_offset_left_over mock_api mock_fetch parse_utc accept_all no_repr 5
           None [("id", JStr "P1"); ("created_at", JStr "2024-01-02T00:00:00Z")]
           "2024-01-02T00:00:00Z" 1704153600000000 None m
           (page_of "log_entries" [JStr "L1"] true)
           [page_of "log_entries" [JStr "L2"] true;
            page_of "log_entries" [JStr "L3"] false]
           [("/incidents",
              [inr (page_of "incidents" [incident "P1" "2024-01-02T00:00:00Z"] false);
               inr (page_of "incidents" [] false);
               inr (page_of "incidents" [] false)]);
            ("/incidents/P1/log_entries", []);
            ("/incidents/P1/alerts",
              [inr (page_of "alerts" [JStr "A1"] true);
               inr (page_of "alerts" [JStr "A2"] false)])]
           (fst run) (snd run)).
  - reflexivity.
  - vm_compute. reflexivity.
  - cbn. split; [reflexivity | split; [reflexivity |]].
    exists (JBool false). split; [reflexivity | discriminate].
  - cbn [served]. eexists. split; [vm_compute; reflexivity |].
    eexists. split; [vm_compute; reflexivity |].
    eexists. split; [vm_compute; reflexivity |]. reflexivity.
  - repeat constructor; eexists _, _; split; reflexivity.
  - cbn. lia.
  - vm_compute. reflexivity.
Defined.

(** Four timeouts in a row are retried after waits of half of 1, 1, 2 and
    3 seconds, the Fibonacci numbers; the 503 that follows is retried by
    the outer loop after half of its first second, and the timeout after
    that by the inner loop, whose sequence has started again; the 200 gives
    the body.  A 404 ends the call at once. *)
Lemma fetcher_policy_witness :
  let w := fresh_wire stubborn_tape in
  let run := get_retrying tape tape_get time tape_sleep tape_uniform 8 "/users"
               sample_params w in
  fst run = Ok (JObj [("users", JArr [])])
  /\ map snd (sent (snd run))
     = [TimedOut; TimedOut; TimedOut; TimedOut; Response 503 None; TimedOut;
        Response 200 (Some (JObj [("users", JArr [])]))]
  /\ slept (snd run) = [500000; 500000; 1000000; 1500000; 500000; 500000]
  /\ (exists failed last ds,
         sent (snd run) = sent w ++ failed ++ [last]
         /\ Forall (fun tr => retryable (snd tr)) failed
         /\ fst run = outcome_of (snd last)
         /\ slept (snd run) = slept w ++ ds
         /\ length ds = length failed
         /\ paced_list tape tape_uniform (time (net w)) 0 (time (net w)) 0
              (failed ++ [last]) ds
         /\ forall i d, ds !! i = Some d -> 0 <= d <= seconds (fib i))
  /\ get_retrying tape tape_get time tape_sleep tape_uniform 5 "/users"
       sample_params (fresh_wire not_found_tape)
     = (Raise (HTTPError 404),
        {| net := {| replies_left := [(Response 200 (Some JNull), 1000000)];
                     time := 1000000 |};
           sent := [(0, Response 404 None)]; slept := [] |}).
Proof.
  intros w run.
  split; [vm_compute; reflexivity |].
  split; [vm_compute; reflexivity |].
  split; [vm_compute; reflexivity |].
  split; [| vm_compute; reflexivity].
  destruct (fetcher_policy tape tape_get time tape_sleep tape_uniform 8 "/users"
              sample_params w (fst run) (snd run))
    as (_ & (failed & last & ds & Hs & Hf & Ho & Hsl & Hlen & Hp & Hb & _) & _).
  - intros v n Hv. unfold tape_uniform. cbn [fst].
    split; [apply Z.div_pos; lia | apply Z.div_le_upper_bound; lia].
  - vm_compute. reflexivity.
  - vm_compute. discriminate.
  - exists failed, last, ds.
    do 6 (split; [assumption |]). exact Hb.
Defined.

(** C6, the budget.  On a network where each request takes a minute, a
    call that began at 0 sends requests at 0, 60.5, 121, 181.5 and 242
    seconds and returns the body after 302 seconds: the timeouts at 121
    and at 181.5 seconds are retried, the inner loop having started again
    at 121 seconds, after the 503.  So the 120 seconds are no budget of the
    call. *)
Lemma call_outlasts_budget :
  let w := fresh_wire slow_tape in
  let run := get_retrying tape tape_get time tape_sleep tape_uniform 6 "/users"
               sample_params w in
  time (net w) = 0
  /\ fst run = Ok (JObj [("users", JArr [])])
  /\ sent (snd run)
     = [(0, TimedOut); (60500000, Response 503 None); (121000000, TimedOut);
        (181500000, TimedOut);
        (242000000, Response 200 (Some (JObj [("users", JArr [])])))]
  /\ slept (snd run) = [500000; 500000; 500000; 500000]
  /\ time (net (snd run)) = 302000000
  /\ ~ budget_per_call (seconds 120) (time (net w)) (sent (snd run)).
Proof.
  intros w run.
  assert (Hsent : sent (snd run)
     = [(0, TimedOut); (60500000, Response 503 None); (121000000, TimedOut);
        (181500000, TimedOut);
        (242000000, Response 200 (Some (JObj [("users", JArr [])])))])
    by (vm_compute; reflexivity).
  split; [reflexivity |].
  split; [vm_compute; reflexivity |].
  split; [exact Hsent |].
  split; [vm_compute; reflexivity |].
  split; [vm_compute; reflexivity |].
  unfold budget_per_call. rewrite Hsent. cbn [removelast].
  rewrite !Forall_cons. intros (_ & _ & Hthird & _).
  vm_compute in Hthird. discriminate.
Qed.

(** C4 on the sample data: the incident is fetched once and written twice,
    once per page of its alerts, the first time with the alerts of the
    first page only. *)
Lemma incident_written_per_alerts_page :
  let run := sync mock_api mock_fetch parse_utc isoformat_utc accept_all no_repr
               Incidents 5 (sample_stream IncidentsStream)
               (sample_machine incidents_api ∅) in
  fst run = Ok tt
  /\ top_records Incidents (events (snd run))
     = [incident "P1" "2024-01-02T00:00:00Z"]
  /\ writes_of (events (snd run))
     = [JObj [("id", JStr "P1"); ("created_at", JStr "2024-01-02T00:00:00Z");
              ("log_entries", JArr [JStr "L1"; JStr "L2"; JStr "L3"]);
              ("alerts", JArr [JStr "A1"])];
        JObj [("id", JStr "P1"); ("created_at", JStr "2024-01-02T00:00:00Z");
              ("log_entries", JArr [JStr "L1"; JStr "L2"; JStr "L3"]);
              ("alerts", JArr [JStr "A1"; JStr "A2"])]].
Proof. vm_compute. repeat split. Qed.

(** C5 on the sample data: with the watermark on 2024-01-10 no notification
    passes, and the run ends in the [AttributeError] of [None.isoformat()];
    the stored bookmark is the one the run started with. *)
Lemma empty_run_raises :
  let m := sample_machine notifications_api
             (notifications_bookmark "2024-01-10T00:00:00+00:00") in
  let run := sync mock_api mock_fetch parse_utc isoformat_utc accept_all no_repr
               Notifications 5 (sample_stream NotificationsStream) m in
  fst run = Raise AttributeError
  /\ writes_of (events (snd run)) = []
  /\ state (snd run) = state m.
Proof. vm_compute. repeat split. Qed.

(** ** The further properties on the sample data *)

(** A run [c m] whose outcome has been computed, as the pair of that
    outcome and the machine it leaves. *)
Ltac completed Hok :=
  exact (eq_trans (surjective_pairing _) (f_equal (fun o => (o, _)) Hok)).

(** The run of the notifications from the watermark of 2024-01-03 sends
    two requests and writes two records; the counter stands at 2. *)
Lemma sync_accounted_witness :
  let m := sample_machine notifications_api
             (notifications_bookmark "2024-01-03T00:00:00+00:00") in
  let run := sync mock_api mock_fetch parse_utc isoformat_utc accept_all no_repr
               Notifications 5 (sample_stream NotificationsStream) m in
  counter (snd run) = 2
  /\ exists new,
       events (snd run) = events m ++ new
       /\ Forall (stream_event no_repr Notifications) new
       /\ counter (snd run) = counter m + Z.of_nat (length (writes_of new)).
Proof.
  intros m run. split; [vm_compute; reflexivity |].
  apply (sync_accounted mock_api mock_fetch parse_utc isoformat_utc accept_all
           no_repr Notifications 5 (sample_stream NotificationsStream) m
           (fst run) (snd run)).
  apply surjective_pairing.
Defined.

(** The three pages of users: three records written, the counter at 3. *)
Lemma full_table_accounted_witness :
  let m := sample_machine users_api ∅ in
  let run := full_table_sync mock_api mock_fetch accept_all 5
               (sample_stream UsersStream) m in
  fst run = Ok tt
  /\ counter (snd run) = 3
  /\ exists new,
       events (snd run) = events m ++ new
       /\ Forall (own_event UsersStream) new
       /\ counter (snd run) = counter m + Z.of_nat (length (writes_of new))
       /\ state (snd run) = state m
       /\ Forall2 (fun record t => accept_all UsersStream record = inr t)
            (page_records "users" new) (writes_of new).
Proof.
  intros m run.
  assert (Hok : fst run = Ok tt) by (vm_compute; reflexivity).
  split; [exact Hok | split; [vm_compute; reflexivity |]].
  destruct (full_table_accounted mock_api mock_fetch accept_all 5
              (sample_stream UsersStream) m (fst run) (snd run)
              (surjective_pairing run))
    as (new & E & F & C & S & W).
  exists new. do 4 (split; [assumption |]). exact (W Hok).
Defined.

(** The second page of the notifications is answered 404: the record of
    the first page that passes is written, the run fails, and the bookmark
    is the one the run started with. *)
Lemma sync_failure_keeps_bookmarks_witness :
  let m := sample_machine truncated_notifications_api
             (notifications_bookmark "2024-01-03T00:00:00+00:00") in
  let run := sync mock_api mock_fetch parse_utc isoformat_utc accept_all no_repr
               Notifications 5 (sample_stream NotificationsStream) m in
  fst run = Raise (HTTPError 404)
  /\ writes_of (events (snd run)) = [notification "N2" "2024-01-03T00:00:00Z"]
  /\ state (snd run) = state m
  /\ exists new, events (snd run) = events m ++ new.
Proof.
  intros m run.
  assert (Hr : fst run = Raise (HTTPError 404)) by (vm_compute; reflexivity).
  split; [exact Hr | split; [vm_compute; reflexivity |]].
  apply (sync_failure_keeps_bookmarks mock_api mock_fetch parse_utc isoformat_utc
           accept_all no_repr Notifications 5 (sample_stream NotificationsStream)
           m (fst run) (snd run) (surjective_pairing run)).
  rewrite Hr. discriminate.
Defined.

(** The run of the notifications moves their [started_at] to 2024-01-04
    and leaves the other key of the stream and the bookmark of the
    incidents alone. *)
Lemma sync_bookmark_confined_witness :
  let m := sample_machine notifications_api crowded_bookmarks in
  let run := sync mock_api mock_fetch parse_utc isoformat_utc accept_all no_repr
               Notifications 5 (sample_stream NotificationsStream) m in
  fst run = Ok tt
  /\ default ∅ (state (snd run) !! "notifications") !! "started_at"
     = Some (JStr "2024-01-04T00:00:00+00:00")
  /\ state (snd run) !! "incidents" = state m !! "incidents"
  /\ default ∅ (state (snd run) !! "notifications") !! "version"
     = default ∅ (state m !! "notifications") !! "version".
Proof.
  intros m run.
  assert (Hok : fst run = Ok tt) by (vm_compute; reflexivity).
  assert (Hrun : run = (Ok tt, snd run)) by completed Hok.
  destruct (sync_bookmark_confined mock_api mock_fetch parse_utc isoformat_utc
              accept_all no_repr Notifications 5 (sample_stream NotificationsStream)
              m (snd run) Hrun) as (Hid & Hkey).
  split; [exact Hok | split; [vm_compute; reflexivity | split]].
  - apply (Hid "incidents"). discriminate.
  - apply (Hkey "version"). discriminate.
Defined.

(** The bookmark stored by that run, 2024-01-04, is the replication-key
    value of N3, the latest record written. *)
Lemma bookmark_attained_witness :
  let m := sample_machine notifications_api
             (notifications_bookmark "2024-01-03T00:00:00+00:00") in
  let run := sync mock_api mock_fetch parse_utc isoformat_utc accept_all no_repr
               Notifications 5 (sample_stream NotificationsStream) m in
  bookmark mock_api Notifications (snd run)
  = Some (JStr "2024-01-04T00:00:00+00:00")
  /\ exists new t r,
       events (snd run) = events m ++ new
       /\ bookmark mock_api Notifications (snd run) = Some (JStr (isoformat_utc t))
       /\ In r (top_records Notifications new)
       /\ record_dtime parse_utc Notifications r = Some t
       /\ passes (watermark mock_api parse_utc Notifications m) t = true
       /\ (forall r' k,
              In r' (top_records Notifications new) ->
              record_dtime parse_utc Notifications r' = Some k ->
              passes (watermark mock_api parse_utc Notifications m) k = true ->
              k <= t)
       /\ (parse_utc (isoformat_utc t) = Some t ->
           watermark mock_api parse_utc Notifications (snd run) = Some t).
Proof.
  intros m run. split; [vm_compute; reflexivity |].
  assert (Hok : fst run = Ok tt) by (vm_compute; reflexivity).
  apply (bookmark_attained mock_api mock_fetch parse_utc isoformat_utc accept_all
           no_repr Notifications 5 (sample_stream NotificationsStream) m (snd run)).
  completed Hok.
Defined.

(** A stream whose [since] is null, with no bookmark: the run is a
    [TypeError] and nothing has happened. *)
Lemma sync_needs_since_witness :
  let m := machine_with notifications_api (<["since" := JNull]> sample_params) ∅ in
  sync mock_api mock_fetch parse_utc isoformat_utc accept_all no_repr
    Notifications 5 (sample_stream NotificationsStream) m
  = (Raise TypeError, m).
Proof.
  intros m.
  apply (sync_needs_since mock_api mock_fetch parse_utc isoformat_utc accept_all
           no_repr Notifications 5 (sample_stream NotificationsStream) m);
    vm_compute; reflexivity.
Defined.

(** With the bookmark on 2024-01-20, the [until] of the stream, the run
    sends nothing and ends in the [AttributeError]. *)
Lemma sync_caught_up_witness :
  let m := sample_machine notifications_api
             (notifications_bookmark "2024-01-20T00:00:00+00:00") in
  sync mock_api mock_fetch parse_utc isoformat_utc accept_all no_repr
    Notifications 5 (sample_stream NotificationsStream) m
  = (Raise AttributeError, m).
Proof.
  intros m.
  apply (sync_caught_up mock_api mock_fetch parse_utc isoformat_utc accept_all
           no_repr Notifications 4 (sample_stream NotificationsStream) m
           "2024-01-20T00:00:00+00:00" 1705708800000000
           "2024-01-20T00:00:00Z" 1705708800000000);
    try (vm_compute; reflexivity).
  lia.
Defined.

(** With the bookmark on 2024-01-03 the first request of the run asks for
    the notifications since 2024-01-03, not since the 2024-01-01 of the
    config. *)
Lemma sync_resumes_from_bookmark_witness :
  let m := sample_machine notifications_api
             (notifications_bookmark "2024-01-03T00:00:00+00:00") in
  let run := sync mock_api mock_fetch parse_utc isoformat_utc accept_all no_repr
               Notifications 5 (sample_stream NotificationsStream) m in
  exists reply rest,
    events (snd run)
    = events m
      ++ Get "/notifications"
           (<["until" := JStr "2024-01-20T00:00:00+00:00"]>
              (<["since" := JStr "2024-01-03T00:00:00+00:00"]>
                 (<["offset" := JNum 0]> sample_params)))
           reply
         :: rest.
Proof.
  intros m run.
  apply (sync_resumes_from_bookmark mock_api mock_fetch parse_utc isoformat_utc
           accept_all no_repr Notifications 4 (sample_stream NotificationsStream) m
           "2024-01-03T00:00:00+00:00" 1704240000000000 sample_params
           "2024-01-20T00:00:00Z" 1705708800000000 (fst run) (snd run)).
  - vm_compute. reflexivity.
  - vm_compute. reflexivity.
  - vm_compute. reflexivity.
  - vm_compute. reflexivity.
  - vm_compute. reflexivity.
  - lia.
  - apply surjective_pairing.
Defined.

(** A window that begins while the dict still holds the offset 300 of an
    earlier pagination sends its first request with offset 0. *)
Lemma window_resets_offset_witness :
  let p := <["offset" := JNum 300]> sample_params in
  let m := machine_with notifications_api p ∅ in
  let run := sync_window mock_api mock_fetch parse_utc isoformat_utc accept_all
               no_repr Notifications 5 (sample_stream NotificationsStream) None
               1704067200000000 1705708800000000 None m in
  exists reply rest,
    events (snd run)
    = events m
      ++ Get "/notifications"
           (<["until" := JStr "2024-01-20T00:00:00+00:00"]>
              (<["since" := JStr "2024-01-01T00:00:00+00:00"]>
                 (<["offset" := JNum 0]> p)))
           reply
         :: rest.
Proof.
  intros p m run.
  apply (window_resets_offset mock_api mock_fetch parse_utc isoformat_utc accept_all
           no_repr Notifications 5 (sample_stream NotificationsStream) None
           1704067200000000 1705708800000000 None m p (fst run) (snd run)).
  - vm_compute. reflexivity.
  - apply surjective_pairing.
Defined.

(** With the watermark on 2024-01-10 the record part of the run completes
    without a write, and the run is the [AttributeError]. *)
Lemma sync_without_writes_witness :
  let m := sample_machine notifications_api
             (notifications_bookmark "2024-01-10T00:00:00+00:00") in
  let m1 := snd (sync_records mock_api mock_fetch parse_utc isoformat_utc accept_all
                   no_repr Notifications 5 (sample_stream NotificationsStream) m) in
  length (events m1) = 2%nat
  /\ sync mock_api mock_fetch parse_utc isoformat_utc accept_all no_repr
       Notifications 5 (sample_stream NotificationsStream) m
     = (Raise AttributeError, m1)
  /\ state m1 = state m.
Proof.
  intros m m1. split; [vm_compute; reflexivity |].
  assert (Hok : fst (sync_records mock_api mock_fetch parse_utc isoformat_utc
                       accept_all no_repr Notifications 5
                       (sample_stream NotificationsStream) m) = Ok None)
    by (vm_compute; reflexivity).
  apply (sync_without_writes mock_api mock_fetch parse_utc isoformat_utc accept_all
           no_repr Notifications 5 (sample_stream NotificationsStream) m None m1
           (events m1)).
  - completed Hok.
  - reflexivity.
  - vm_compute. reflexivity.
Defined.

(** The sample incident, with three pages of log entries and two of
    alerts, is written twice: with the alerts of the first page, then with
    those of both. *)
Lemma incident_writes_witness :
  let kv := [("id", JStr "P1"); ("created_at", JStr "2024-01-02T00:00:00Z")] in
  let m := sample_machine incidents_api ∅ in
  let run := incidents_record mock_api mock_fetch parse_utc accept_all no_repr 5
               None (JObj kv) None m in
  writes_of (events (snd run))
  = [with_sub_resources kv [JStr "L1"; JStr "L2"; JStr "L3"] [JStr "A1"];
     with_sub_resources kv [JStr "L1"; JStr "L2"; JStr "L3"] [JStr "A1"; JStr "A2"]]
  /\ exists k new,
       events (snd run) = events m ++ new
       /\ record_dtime parse_utc Incidents (JObj kv) = Some k
       /\ let log_entries :=
            flat_map (records_of "log_entries")
              (pages_at "/incidents/P1/log_entries" new) in
          let alerts :=
            map (records_of "alerts") (pages_at "/incidents/P1/alerts" new) in
          alerts <> []
          /\ Forall2 (fun al t =>
                        accept_all IncidentsStream
                          (with_sub_resources kv log_entries al) = inr t)
               (prefixes [] alerts) (writes_of new)
          /\ fst run = Ok (Some (update_bookmark None k)).
Proof.
  intros kv m run. split; [vm_compute; reflexivity |].
  destruct (incident_writes mock_api mock_fetch parse_utc accept_all no_repr 5
              None kv None m (Some 1704153600000000) (snd run))
    as (k & new & E & Hk & Hne & Hw).
  - assert (Hok : fst run = Ok (Some 1704153600000000))
      by (vm_compute; reflexivity).
    completed Hok.
  - exists k, new. split; [exact E | split; [exact Hk |]].
    cbn [passes] in Hw. destruct Hw as (HF & Hrun).
    split; [exact Hne | split; [exact HF |]].
    rewrite <- Hrun. vm_compute. reflexivity.
Defined.

(** An on-call with a start and a null schedule, and one with a schedule
    and a null end: both stop the record loop with a [TypeError]. *)
Lemma oncall_id_failures_witness :
  oncalls_record mock_api parse_utc accept_all None (JObj oncall_without_schedule)
    None empty_machine
  = (Raise TypeError, empty_machine)
  /\ oncalls_record mock_api parse_utc accept_all None (JObj oncall_without_end)
       None empty_machine
     = (Raise TypeError, empty_machine).
Proof.
  split.
  - destruct (oncall_id_failures mock_api parse_utc accept_all None
                oncall_without_schedule None empty_machine "2024-01-05T00:00:00Z"
                eq_refl ltac:(discriminate)) as (_ & Hnull & _).
    apply Hnull. reflexivity.
  - destruct (oncall_id_failures mock_api parse_utc accept_all None
                oncall_without_end None empty_machine "2024-01-05T00:00:00Z"
                eq_refl ltac:(discriminate)) as (_ & _ & Hend).
    destruct (Hend (JObj [("id", JStr "SCHED1")]) "SCHED1" eq_refl eq_refl)
      as (_ & Hnull).
    apply Hnull. reflexivity.
Defined.

(** A config with [limit] 25 whose entry for the notifications sets
    [time_zone]: the stream pages by 25 from offset 0. *)
Lemma init_paging_witness :
  let cfg := ("limit", JNum 25)
             :: sample_config [("time_zone", JStr "Europe/Paris")] in
  let run := PagerdutyStream_init mock_api isoformat_utc NotificationsStream
               (JObj cfg) 1705708800000000 empty_machine in
  exists self p,
    fst run = Ok self
    /\ heap (snd run) !! params self = Some p
    /\ p !! "offset" = Some (JNum 0)
    /\ p !! "limit" = Some (JNum 25)
    /\ p !! "time_zone" = Some (JStr "Europe/Paris")
    /\ forall param, In param ["since"; "until"] -> is_Some (p !! param).
Proof.
  intros cfg run.
  set (self := {| cls := NotificationsStream; config := JObj cfg;
                  token := JStr "secret"; email := JStr "ops@example.com";
                  params := 0%nat |}).
  assert (Hok : fst run = Ok self) by (vm_compute; reflexivity).
  destruct (init_paging mock_api isoformat_utc NotificationsStream cfg
              1705708800000000 empty_machine self (snd run))
    as (p & Hp & Hoff & Hlim & Hreq & _).
  - cbn. auto.
  - completed Hok.
  - exists self, p. split; [exact Hok | split; [exact Hp | split; [exact Hoff |]]].
    split; [exact Hlim | split; [| exact Hreq]].
    assert (Hq : heap (snd run) !! params self
                 = Some (<["until" := JStr "2024-01-20T00:00:00+00:00"]>
                           (<["time_zone" := JStr "Europe/Paris"]>
                              (<["since" := JStr "2024-01-01T00:00:00Z"]>
                                 (<["offset" := JNum 0]>
                                    (<["limit" := JNum 25]> ∅))))))
      by (vm_compute; reflexivity).
    rewrite Hq in Hp. inversion Hp. reflexivity.
Defined.

(** A stream built on a machine that holds the parameters of another
    stream gets the reference 1, and the dict at 0 is as it was. *)
Lemma init_fresh_params_witness :
  let m := sample_machine [] ∅ in
  let run := PagerdutyStream_init mock_api isoformat_utc UsersStream
               (JObj (sample_config [])) 1705708800000000 m in
  exists self,
    fst run = Ok self
    /\ params self = 1%nat
    /\ heap m !! params self = None
    /\ is_Some (heap (snd run) !! params self)
    /\ heap (snd run) !! 0%nat = Some sample_params.
Proof.
  intros m run.
  set (self := {| cls := UsersStream; config := JObj (sample_config []);
                  token := JStr "secret"; email := JStr "ops@example.com";
                  params := 1%nat |}).
  assert (Hok : fst run = Ok self) by (vm_compute; reflexivity).
  destruct (init_fresh_params mock_api isoformat_utc UsersStream
              (JObj (sample_config [])) 1705708800000000 m self (snd run))
    as (Hnew & Hsome & Hframe & _).
  - completed Hok.
  - exists self. split; [exact Hok | split; [reflexivity |]].
    split; [exact Hnew | split; [exact Hsome |]].
    rewrite (Hframe 0%nat) by discriminate. reflexivity.
Defined.

(** A body without the list of users: one request, a [TypeError]. *)
Lemma page_without_key_witness :
  let m := sample_machine keyless_users_api ∅ in
  full_table_sync mock_api mock_fetch accept_all 5 (sample_stream UsersStream) m
  = (Raise TypeError,
     {| api := [("/users", [])];
        events := [Get "/users" sample_params
                     (inr (JObj [("error", JStr "unavailable")]))];
        heap := heap m; counter := 0; state := ∅ |}).
Proof.
  intros m.
  apply (page_without_key mock_api mock_fetch accept_all 4
           (sample_stream UsersStream) m (JObj [("error", JStr "unavailable")])
           [("/users", [])]).
  - vm_compute. reflexivity.
  - intros it Hit. unfold PagerdutyResponse_get. rewrite Hit. reflexivity.
Defined.

(** With the [limit] ['100'] of a config that quotes its numbers, the user
    of the first page is written and the run is a [TypeError]; the second
    and third page are never asked for. *)
Lemma string_limit_stops_paging_witness :
  let p := <["limit" := JStr "100"]> sample_params in
  let m := machine_with users_api p ∅ in
  let run := full_table_sync mock_api mock_fetch accept_all 5
               (sample_stream UsersStream) m in
  fst run = Raise TypeError
  /\ events (snd run)
     = [Get "/users" p (inr (page_of "users" [JStr "U1"] true));
        WriteRecord "users" (JStr "U1")]
  /\ counter (snd run) = 1.
Proof.
  intros p m run.
  assert (Hrun : run
                 = (Raise TypeError,
                    {| api := [("/users", [inr (page_of "users" [JStr "U2"] true);
                                           inr (page_of "users" [JStr "U3"] false)])];
                       events := events m
                                 ++ Get "/users" p
                                      (inr (page_of "users" [JStr "U1"] true))
                                    :: map (WriteRecord "users") [JStr "U1"];
                       heap := heap m;
                       counter := counter m + Z.of_nat (length [JStr "U1"]);
                       state := state m |})).
  { apply (string_limit_stops_paging mock_api mock_fetch accept_all 3
             (sample_stream UsersStream) m p 0 "100"
             (page_of "users" [JStr "U1"] true)
             [("/users", [inr (page_of "users" [JStr "U2"] true);
                          inr (page_of "users" [JStr "U3"] false)])]
             [JStr "U1"] [JStr "U1"]);
      try (vm_compute; reflexivity).
    repeat constructor. }
  rewrite Hrun. repeat split.
Defined.

(** A 204 without a body: the [ValueError], after one request. *)
Lemma bad_body_not_retried_witness :
  get_retrying tape tape_get time tape_sleep tape_uniform 5 "/users" sample_params
    (fresh_wire empty_body_tape)
  = (Raise ValueError,
     {| net := {| replies_left := []; time := 1000000 |};
        sent := [(0, Response 204 None)]; slept := [] |}).
Proof.
  apply (bad_body_not_retried tape tape_get time tape_sleep tape_uniform 4 "/users"
           sample_params (fresh_wire empty_body_tape) 204
           {| replies_left := []; time := 1000000 |}).
  - reflexivity.
  - lia.
Defined.

(** Of two streams' parameters, the run of the first changes its own (the
    offset is left at 100) and not the other's. *)
Lemma sync_touches_own_params_witness :
  let m := two_streams notifications_api
             (notifications_bookmark "2024-01-03T00:00:00+00:00") in
  let run := sync mock_api mock_fetch parse_utc isoformat_utc accept_all no_repr
               Notifications 5 (sample_stream NotificationsStream) m in
  default ∅ (heap (snd run) !! 0%nat) !! "offset" = Some (JNum 100)
  /\ heap (snd run) !! 1%nat = heap m !! 1%nat.
Proof.
  intros m run. split; [vm_compute; reflexivity |].
  destruct (sync_touches_own_params mock_api mock_fetch parse_utc isoformat_utc
              accept_all no_repr 5 (sample_stream NotificationsStream) m 1%nat)
    as (Hsync & _).
  - vm_compute. eauto.
  - discriminate.
  - apply (Hsync Notifications (fst run) (snd run)). apply surjective_pairing.
Defined.

(** A timeout, then a 200: the body, after two requests and a wait of half
    a second. *)
Lemma transient_failure_absorbed_witness :
  let body := JObj [("users", JArr [])] in
  get_retrying tape tape_get time tape_sleep tape_uniform 5 "/users" sample_params
    (fresh_wire hiccup_tape)
  = (Ok body,
     {| net := {| replies_left := []; time := 2500000 |};
        sent := [(0, TimedOut); (1500000, Response 200 (Some body))];
        slept := [500000] |}).
Proof.
  intros body.
  apply (transient_failure_absorbed tape tape_get time tape_sleep tape_uniform 3
           "/users" sample_params (fresh_wire hiccup_tape) TimedOut
           {| replies_left := [(Response 200 (Some body), 1000000)];
              time := 1000000 |}
           500000
           {| replies_left := [(Response 200 (Some body), 1000000)];
              time := 1000000 |}
           200 body {| replies_left := []; time := 2500000 |}).
  - exact I.
  - reflexivity.
  - reflexivity.
  - reflexivity.
  - lia.
Defined.

(** The headers of the sample stream over the defaults of [requests]: the
    [User-Agent] of the tap replaces the default, looked up in any case;
    [Accept-Encoding] is the default. *)
Example construct_headers_sample :
  let defaults :=
    [("user-agent", ("User-Agent", JStr "python-requests/2.31.0"));
     ("accept-encoding", ("Accept-Encoding", JStr "gzip, deflate"));
     ("accept", ("Accept", JStr "*/*"));
     ("connection", ("Connection", JStr "keep-alive"))] in
  let headers := _construct_headers no_repr defaults (sample_stream UsersStream) in
  ci_get "user-agent" headers = Some (JStr "python-pagerduty-tap")
  /\ ci_get "AUTHORIZATION" headers = Some (JStr "Token token= secret")
  /\ ci_get "From" headers = Some (JStr "ops@example.com")
  /\ ci_get "Accept-Encoding" headers = Some (JStr "gzip, deflate")
  /\ length headers = 7%nat.
Proof. vm_compute. repeat split. Qed.
